(** * go_spritesheet: the procedural effect engines of [spritesheet.go]

    A shallow embedding of the gradient builder, the directional engine
    ([applyEffect], [ApplyFlameEffect], [ApplyDripEffect]), the glow engine
    ([ApplyGlowEffect]) and the corrosion engine ([ApplyCorrosion]), of
    [ReplaceColor] and of the spritesheet ([New], [NumTiles], [TileImage]),
    with the parts of Go's [image], [image/color], [image/draw] and
    [math/rand] packages they call.

    Conventions.
    - Go's [int] is modelled by [Z]: every integer the engines compute is a
      pixel coordinate, a pixel count or a small counter of an image that
      fits in memory, far from the 64-bit range.
    - [float64] is the kernel's binary64 ([PrimFloat]), operation by
      operation, with no fused multiply-add.
    - A panic of the Go runtime (index out of range, negative length) is
      the result [None].
    - The top-level functions of [math/rand] draw from one global source;
      the source is a tape of answers and the state is the number of draws
      made so far. *)

From Stdlib Require Import ZArith Lia List Floats Uint63.
From stdpp Require Import base option list gmap.

Local Open Scope Z_scope.

(** ** image/color *)

Module color.

(** [color.RGBA]: four [uint8] channels, alpha-premultiplied. *)
Record RGBA : Type := mkRGBA { R : Z; G : Z; B : Z; A : Z }.

(** The zero value [color.RGBA{}]: transparent black. *)
Definition zero : RGBA := mkRGBA 0 0 0 0.

(** A value whose fields are [uint8]s. *)
Definition uint8s (c : RGBA) : Prop :=
  0 <= R c < 256 /\ 0 <= G c < 256 /\ 0 <= B c < 256 /\ 0 <= A c < 256.

(** One channel of the method [RGBA()]: [r := uint32(c.R); r |= r << 8]. *)
Definition widen (v : Z) : Z := Z.lor v (Z.shiftl v 8).

(** [func (c RGBA) RGBA() (r, g, b, a uint32)]. *)
Definition RGBA_RGBA (c : RGBA) : Z * Z * Z * Z :=
  (widen (R c), widen (G c), widen (B c), widen (A c)).

End color.

#[global] Instance color_RGBA_eq_dec : EqDecision color.RGBA.
Proof. solve_decision. Defined.

#[global] Instance color_RGBA_inhabited : Inhabited color.RGBA :=
  populate color.zero.

(** The alpha that [_, _, _, a := c.RGBA()] binds. *)
Definition alphaOf (c : color.RGBA) : Z :=
  let '(_, _, _, a) := color.RGBA_RGBA c in a.

(** ** image *)

Module image.

Record Point : Type := mkPoint { X : Z; Y : Z }.

Record Rectangle : Type := mkRectangle { Min : Point; Max : Point }.

Definition Rect (x0 y0 x1 y1 : Z) : Rectangle :=
  mkRectangle (mkPoint x0 y0) (mkPoint x1 y1).

Definition Dx (r : Rectangle) : Z := X (Max r) - X (Min r).
Definition Dy (r : Rectangle) : Z := Y (Max r) - Y (Min r).

(** [func (p Point) In(r Rectangle) bool]. *)
Definition Point_In (x y : Z) (r : Rectangle) : bool :=
  (X (Min r) <=? x) && (x <? X (Max r)) &&
  (Y (Min r) <=? y) && (y <? Y (Max r)).

(** [image.RGBA], one list element per pixel (the four bytes of a pixel
    are kept together, so [Stride] counts pixels). *)
Record RGBA : Type := mkRGBA {
  Pix : list color.RGBA;
  Stride : Z;
  RGBA_Rect : Rectangle
}.

Definition Bounds (p : RGBA) : Rectangle := RGBA_Rect p.

(** [image.NewRGBA] panics on a rectangle of negative width or height. *)
Definition NewRGBA (r : Rectangle) : option RGBA :=
  if (Dx r <? 0) || (Dy r <? 0) then None
  else Some (mkRGBA (replicate (Z.to_nat (Dx r * Dy r)) color.zero) (Dx r) r).

Definition RGBA_PixOffset (p : RGBA) (x y : Z) : Z :=
  (y - Y (Min (RGBA_Rect p))) * Stride p + (x - X (Min (RGBA_Rect p))).

(** [func (p *RGBA) At(x, y int) color.Color]: the zero colour outside
    the bounds. *)
Definition RGBA_At (p : RGBA) (x y : Z) : color.RGBA :=
  if Point_In x y (RGBA_Rect p)
  then default color.zero (Pix p !! Z.to_nat (RGBA_PixOffset p x y))
  else color.zero.

(** [func (p *RGBA) Set(x, y int, c color.Color)]: nothing outside the
    bounds. *)
Definition RGBA_Set (p : RGBA) (x y : Z) (c : color.RGBA) : RGBA :=
  if Point_In x y (RGBA_Rect p)
  then mkRGBA (<[Z.to_nat (RGBA_PixOffset p x y) := c]> (Pix p))
              (Stride p) (RGBA_Rect p)
  else p.

(** The shape [NewRGBA] gives a buffer and [RGBA_Set] keeps. *)
Definition packed (p : RGBA) : Prop :=
  Stride p = Dx (RGBA_Rect p) /\
  length (Pix p) = Z.to_nat (Dx (RGBA_Rect p) * Dy (RGBA_Rect p)).

End image.

(** A pixel is occupied iff its alpha is not zero. *)
Definition occupied (layer : image.RGBA) (x y : Z) : bool :=
  negb (alphaOf (image.RGBA_At layer x y) =? 0).

(** ** float64 *)

Definition float64_of_int (n : Z) : float :=
  if n <? 0 then PrimFloat.opp (PrimFloat.of_uint63 (Uint63.of_Z (- n)))
  else PrimFloat.of_uint63 (Uint63.of_Z n).

(** Truncation toward zero of a finite float; 0 for NaN and infinities,
    where Go leaves the conversion to the implementation. *)
Definition int_of_float64 (f : float) : Z :=
  match Prim2SF f with
  | S754_finite s m e =>
      let v := if 0 <=? e then Z.shiftl (Z.pos m) e
               else Z.shiftr (Z.pos m) (- e) in
      if s then - v else v
  | _ => 0
  end.

Definition uint16 (v : Z) : Z := v mod 65536.
Definition uint8 (v : Z) : Z := v mod 256.

(** ** The gradient builder *)

(** One channel of [interpolateColor]:
    [uint16(float64(a) + percentage*(float64(b)-float64(a)))]. *)
Definition interpolateChannel (a b : Z) (percentage : float) : Z :=
  uint16 (int_of_float64
    (PrimFloat.add (float64_of_int a)
       (PrimFloat.mul percentage
          (PrimFloat.sub (float64_of_int b) (float64_of_int a))))).

Definition interpolateColor (colorA colorB : color.RGBA) (percentage : float)
  : color.RGBA :=
  let '(rA, gA, bA, aA) := color.RGBA_RGBA colorA in
  let '(rB, gB, bB, aB) := color.RGBA_RGBA colorB in
  let r := interpolateChannel rA rB percentage in
  let g := interpolateChannel gA gB percentage in
  let b := interpolateChannel bA bB percentage in
  let a := interpolateChannel aA aB percentage in
  color.mkRGBA (uint8 (Z.shiftr r 8)) (uint8 (Z.shiftr g 8))
               (uint8 (Z.shiftr b 8)) (uint8 (Z.shiftr a 8)).

(** [percentage := float64(i) / float64(numColors-1)]. *)
Definition percentageOf (i numColors : Z) : float :=
  PrimFloat.div (float64_of_int i) (float64_of_int (numColors - 1)).

(** The loop [for i := 0; i < numColors; i++ { gradient[i] = ... }] over
    the slice [make([]color.Color, numColors)]; [make] panics on a negative
    length. *)
Definition gradientLoop (colorA colorB : color.RGBA) (numColors : Z)
  (gradient : list color.RGBA) : list color.RGBA :=
  foldl (fun g i =>
           <[Z.to_nat i := interpolateColor colorA colorB
                             (percentageOf i numColors)]> g)
        gradient (seqZ 0 numColors).

Definition buildGradient (colorA colorB : color.RGBA) (numColors : Z)
  : option (list color.RGBA) :=
  if numColors <? 0 then None
  else Some (gradientLoop colorA colorB numColors
               (replicate (Z.to_nat numColors) color.zero)).

(** ** math/rand and the effect monad *)

Module rand.

(** The global source as a tape: what the k-th draw answers when it is a
    [Float64()], an [Intn(n)] or a [Perm(n)]. *)
Record Source : Type := mkSource {
  Float64_at : nat -> float;
  Intn_at : nat -> Z -> Z;
  Perm_at : nat -> Z -> list Z
}.

(** A mocked source: every draw returns the same values. *)
Definition constant (f : float) (k : Z) (perm : Z -> list Z) : Source :=
  mkSource (fun _ => f) (fun _ _ => k) (fun _ => perm).

End rand.

(** A computation that may draw from the source and may panic. The state is
    the number of draws made so far. *)
Definition M (T : Type) : Type := nat -> option (T * nat).

Definition ret {T} (v : T) : M T := fun n => Some (v, n).

Definition bind {T U} (m : M T) (k : T -> M U) : M U :=
  fun n => match m n with
           | Some (v, n') => k v n'
           | None => None
           end.

Definition panic {T} : M T := fun _ => None.

Definition orPanic {T} (o : option T) : M T :=
  match o with Some v => ret v | None => panic end.

Notation "x <- m ;; k" := (bind m (fun x => k))
  (at level 100, m at next level, right associativity).

(** A [for ... range] loop whose body updates the loop's state. *)
Fixpoint foldM {T S} (body : T -> S -> M S) (l : list T) (s : S) : M S :=
  match l with
  | [] => ret s
  | a :: l' => s' <- body a s ;; foldM body l' s'
  end.

Section Engines.

Variable src : rand.Source.

Definition Float64 : M float :=
  fun n => Some (rand.Float64_at src n, S n).

Definition Intn (k : Z) : M Z :=
  fun n => Some (rand.Intn_at src n k, S n).

(** [rand.Perm] panics on a negative argument. *)
Definition Perm (k : Z) : M (list Z) :=
  fun n => if k <? 0 then None else Some (rand.Perm_at src n k, S n).

(** *** Loops over a rectangle *)

(** [for x := bounds.Min.X; x < bounds.Max.X; x++]. *)
Definition columns (b : image.Rectangle) : list Z :=
  seqZ (image.X (image.Min b)) (image.Dx b).

(** [for y := bounds.Min.Y; y < bounds.Max.Y; y++]. *)
Definition rowsDown (b : image.Rectangle) : list Z :=
  seqZ (image.Y (image.Min b)) (image.Dy b).

(** The 3x3 neighbourhood loops:
    [for i := -1; i <= 1; i++ { if x+i is outside { continue }
       for j := -1; j <= 1; j++ { if y+j is outside { continue }; body } }]. *)
Definition offsets : list Z := [-1; 0; 1].

Definition forNeighbors {S} (b : image.Rectangle) (x y : Z)
  (body : Z -> Z -> S -> S) (s : S) : S :=
  foldl (fun s i =>
    if (x + i <? image.X (image.Min b)) || (image.X (image.Max b) <=? x + i)
    then s
    else foldl (fun s j =>
      if (y + j <? image.Y (image.Min b)) || (image.Y (image.Max b) <=? y + j)
      then s
      else body (x + i) (y + j) s) s offsets) s offsets.

(** *** The directional engine *)

Inductive Direction : Type := DirectionUp | DirectionDown.

(** [DirectionUp = 1], [DirectionDown = -1]. *)
Definition Direction_int (d : Direction) : Z :=
  match d with DirectionUp => 1 | DirectionDown => -1 end.

(** [startY := bounds.Max.Y - 1; if direction == -1 { startY = bounds.Min.Y }]
    [for y := startY; y >= bounds.Min.Y && y < bounds.Max.Y; y -= direction]. *)
Definition scanRows (b : image.Rectangle) (d : Direction) : list Z :=
  match d with
  | DirectionUp => reverse (rowsDown b)
  | DirectionDown => rowsDown b
  end.

Definition minNeighbors : Z := 3.

(** Pixels of the neighbourhood set on either layer. *)
Definition countEitherLayer (layer effectLayer : image.RGBA) (x y : Z) : Z :=
  forNeighbors (image.Bounds layer) x y
    (fun x' y' numNeighbors =>
       let aLeft := alphaOf (image.RGBA_At layer x' y') in
       let aEffectLeft := alphaOf (image.RGBA_At effectLayer x' y') in
       if negb (aLeft =? 0) || negb (aEffectLeft =? 0)
       then numNeighbors + 1 else numNeighbors) 0.

(** [(numNeighbors < minNeighbors && rand.Float64() < 0.5) ||
     rand.Float64() < thinning], evaluated left to right with short
    circuit. *)
Definition thinned (numNeighbors : Z) (thinning : float) : M bool :=
  sparse <- (if numNeighbors <? minNeighbors
             then f <- Float64 ;; ret (PrimFloat.ltb f 0.5%float)
             else ret false) ;;
  if (sparse : bool) then ret true
  else f <- Float64 ;; ret (PrimFloat.ltb f thinning).

(** [for i, c := range gradient { if c == target { index = i; break } }]
    with [var index int]. *)
Fixpoint gradientIndexFrom (i : Z) (gradient : list color.RGBA)
  (target : color.RGBA) : Z :=
  match gradient with
  | [] => 0
  | c :: rest =>
      if decide (c = target) then i
      else gradientIndexFrom (i + 1) rest target
  end.

Definition gradientIndex := gradientIndexFrom 0.

(** The body of the two loops of [applyEffect] at pixel (x, y). *)
Definition effectPixel (layer : image.RGBA) (gradient : list color.RGBA)
  (numColors : Z) (direction : Z) (y x : Z) (effectLayer : image.RGBA)
  : M image.RGBA :=
  let a := alphaOf (image.RGBA_At layer x y) in
  let aNeighbor := alphaOf (image.RGBA_At layer x (y + direction)) in
  let aEffectNeighbor :=
    alphaOf (image.RGBA_At effectLayer x (y + direction)) in
  if negb (a =? 0) then ret effectLayer
  else if negb (aNeighbor =? 0) then
    c <- orPanic (gradient !! 0%nat) ;;
    ret (image.RGBA_Set effectLayer x y c)
  else if negb (aEffectNeighbor =? 0) then
    let numNeighbors := countEitherLayer layer effectLayer x y in
    skip <- thinned numNeighbors 0x1.999999999999ap-3%float ;;
    if (skip : bool) then ret effectLayer
    else
      let index :=
        gradientIndex gradient (image.RGBA_At effectLayer x (y + direction)) in
      if index <? numColors - 1 then
        c <- orPanic (gradient !! Z.to_nat (index + 1)) ;;
        ret (image.RGBA_Set effectLayer x y c)
      else ret effectLayer
  else ret effectLayer.

Definition applyEffect (layer : image.RGBA) (colorA colorB : color.RGBA)
  (numColors : Z) (direction : Direction) : M image.RGBA :=
  let bounds := image.Bounds layer in
  effectLayer <- orPanic (image.NewRGBA bounds) ;;
  gradient <- orPanic (buildGradient colorA colorB numColors) ;;
  foldM (fun y =>
           foldM (effectPixel layer gradient numColors
                    (Direction_int direction) y)
                 (columns bounds))
        (scanRows bounds direction) effectLayer.

Definition ApplyFlameEffect (layer : image.RGBA) (colorA colorB : color.RGBA)
  : M image.RGBA :=
  applyEffect layer colorA colorB 10 DirectionUp.

Definition ApplyDripEffect (layer : image.RGBA) (colorA colorB : color.RGBA)
  : M image.RGBA :=
  applyEffect layer colorA colorB 15 DirectionDown.

(** *** The glow engine *)

(** The seed pass ([colorIndex == 0]) at an occupied pixel: every
    neighbour unoccupied on the layer and unset on the effect layer is
    set to [gradient[0]]. *)
Definition glowSeed (layer : image.RGBA) (gradient : list color.RGBA)
  (x y : Z) (effectLayer : image.RGBA) : M image.RGBA :=
  forNeighbors (image.Bounds layer) x y
    (fun x' y' (acc : M image.RGBA) =>
       effectLayer <- acc ;;
       let aNeighbor := alphaOf (image.RGBA_At layer x' y') in
       if negb (aNeighbor =? 0) then ret effectLayer
       else
         let aEffectNeighbor := alphaOf (image.RGBA_At effectLayer x' y') in
         if aEffectNeighbor =? 0 then
           c <- orPanic (gradient !! 0%nat) ;;
           ret (image.RGBA_Set effectLayer x' y' c)
         else ret effectLayer)
    (ret effectLayer).

(** Neighbours set on the effect layer with a colour other than [c]. *)
Definition countOtherColor (bounds : image.Rectangle) (c : color.RGBA)
  (effectLayer : image.RGBA) (x y : Z) : Z :=
  forNeighbors bounds x y
    (fun x' y' numNeighbors =>
       let aEffectLeft := alphaOf (image.RGBA_At effectLayer x' y') in
       let effectLeft := image.RGBA_At effectLayer x' y' in
       if negb (aEffectLeft =? 0) && negb (bool_decide (effectLeft = c))
       then numNeighbors + 1 else numNeighbors) 0.

(** Every neighbour unset on the effect layer is set to [c]. *)
Definition glowFill (bounds : image.Rectangle) (c : color.RGBA)
  (x y : Z) (effectLayer : image.RGBA) : image.RGBA :=
  forNeighbors bounds x y
    (fun x' y' effectLayer =>
       let aEffectLeft := alphaOf (image.RGBA_At effectLayer x' y') in
       if aEffectLeft =? 0 then image.RGBA_Set effectLayer x' y' c
       else effectLayer)
    effectLayer.

(** The body of the three loops of [ApplyGlowEffect] at gradient entry
    [colorIndex], [c] and pixel (x, y). *)
Definition glowPixel (layer : image.RGBA) (gradient : list color.RGBA)
  (colorIndex : Z) (c : color.RGBA) (y x : Z) (effectLayer : image.RGBA)
  : M image.RGBA :=
  let bounds := image.Bounds layer in
  let curPixelAlphaOrig := alphaOf (image.RGBA_At layer x y) in
  if colorIndex =? 0 then
    if curPixelAlphaOrig =? 0 then ret effectLayer
    else glowSeed layer gradient x y effectLayer
  else if curPixelAlphaOrig =? 0 then
    let aEffect := alphaOf (image.RGBA_At effectLayer x y) in
    let effectCol := image.RGBA_At effectLayer x y in
    if (aEffect =? 0) || bool_decide (effectCol = c) then ret effectLayer
    else
      let numNeighbors := countOtherColor bounds c effectLayer x y in
      skip <- (if numNeighbors <? minNeighbors then ret true
               else f <- Float64 ;;
                    ret (PrimFloat.ltb f 0x1.999999999999ap-4%float)) ;;
      if (skip : bool) then ret effectLayer
      else ret (glowFill bounds c x y effectLayer)
  else ret effectLayer.

(** [for colorIndex, c := range gradient]. *)
Definition indexed (gradient : list color.RGBA) : list (Z * color.RGBA) :=
  zip (seqZ 0 (Z.of_nat (length gradient))) gradient.

Definition glowPasses (layer : image.RGBA) (gradient : list color.RGBA)
  (effectLayer : image.RGBA) : M image.RGBA :=
  let bounds := image.Bounds layer in
  foldM (fun '(colorIndex, c) =>
           foldM (fun y =>
                    foldM (glowPixel layer gradient colorIndex c y)
                          (columns bounds))
                 (rowsDown bounds))
        (indexed gradient) effectLayer.

Definition ApplyGlowEffect (layer : image.RGBA) (colorA colorB : color.RGBA)
  : M image.RGBA :=
  let numColors := 3 in
  let bounds := image.Bounds layer in
  effectLayer <- orPanic (image.NewRGBA bounds) ;;
  gradient <- orPanic (buildGradient colorA colorB numColors) ;;
  glowPasses layer gradient effectLayer.

(** *** The corrosion engine *)

(** [make([]bool, n)]. *)
Definition makeBools (n : Z) : option (list bool) :=
  if n <? 0 then None else Some (replicate (Z.to_nat n) false).

(** [s[i]] and [s[i] = v] on a slice; out of range is a panic. *)
Definition boolAt (s : list bool) (i : Z) : option bool :=
  if i <? 0 then None else s !! Z.to_nat i.

Definition boolSet (s : list bool) (i : Z) (v : bool) : option (list bool) :=
  if (i <? 0) || (Z.of_nat (length s) <=? i) then None
  else Some (<[Z.to_nat i := v]> s).

(** The seed loop over [rand.Perm(bounds.Dx() * bounds.Dy())]; [%] and
    [/] are Go's truncated remainder and quotient, and panic on a zero
    divisor. *)
Fixpoint seedLoop (layer : image.RGBA) (perm : list Z)
  (corrosionCur : list bool) (numSeeds : Z) : option (list bool) :=
  match perm with
  | [] => Some corrosionCur
  | i :: rest =>
      let dx := image.Dx (image.Bounds layer) in
      if dx =? 0 then None
      else
        let x := Z.rem i dx in
        let y := Z.quot i dx in
        let a := alphaOf (image.RGBA_At layer x y) in
        marked ← (if negb (a =? 0)
                  then cur ← boolSet corrosionCur i true;
                       Some (cur, numSeeds - 1)
                  else Some (corrosionCur, numSeeds));
        let '(cur, numSeeds) := marked in
        if numSeeds =? 0 then Some cur
        else seedLoop layer rest cur numSeeds
  end.

(** Neighbours set in the previous state. *)
Definition countPrev (bounds : image.Rectangle) (corrosionPrev : list bool)
  (x y : Z) : option Z :=
  forNeighbors bounds x y
    (fun x' y' (acc : option Z) =>
       numNeighbors ← acc;
       set ← boolAt corrosionPrev (y' * image.Dx bounds + x');
       Some (if (set : bool) then numNeighbors + 1 else numNeighbors))
    (Some 0).

(** The body of the two inner loops of one iteration at cell (x, y). *)
Definition corrodeCell (layer : image.RGBA) (corrosionPrev : list bool)
  (y x : Z) (corrosionCur : list bool) : M (list bool) :=
  let bounds := image.Bounds layer in
  let a := alphaOf (image.RGBA_At layer x y) in
  if a =? 0 then ret corrosionCur
  else
    let index := y * image.Dx bounds + x in
    prevSet <- orPanic (boolAt corrosionPrev index) ;;
    if (prevSet : bool) then orPanic (boolSet corrosionCur index true)
    else
      numNeighbors <- orPanic (countPrev bounds corrosionPrev x y) ;;
      r <- Intn 8 ;;
      if r <? numNeighbors then orPanic (boolSet corrosionCur index true)
      else ret corrosionCur.

(** One iteration: the sweep, then
    [corrosionCur, corrosionPrev = corrosionPrev, corrosionCur]. *)
Definition corrodeStep (layer : image.RGBA) (state : list bool * list bool)
  : M (list bool * list bool) :=
  let '(corrosionCur, corrosionPrev) := state in
  let bounds := image.Bounds layer in
  cur <- foldM (fun y =>
                  foldM (corrodeCell layer corrosionPrev y) (columns bounds))
               (rowsDown bounds) corrosionCur ;;
  ret (corrosionPrev, cur).

(** [for i := 0; i < numIterations; i++]. *)
Definition corrodeLoop (layer : image.RGBA) (numIterations : Z)
  (state : list bool * list bool) : M (list bool * list bool) :=
  foldM (fun _ => corrodeStep layer) (seqZ 0 numIterations) state.

(** The final loops: every cell set in [corrosionPrev] is painted. *)
Definition paintCell (bounds : image.Rectangle) (corrosionPrev : list bool)
  (color : color.RGBA) (y x : Z) (corrosionLayer : image.RGBA)
  : M image.RGBA :=
  let index := y * image.Dx bounds + x in
  set <- orPanic (boolAt corrosionPrev index) ;;
  if (set : bool) then ret (image.RGBA_Set corrosionLayer x y color)
  else ret corrosionLayer.

Definition paint (bounds : image.Rectangle) (corrosionPrev : list bool)
  (color : color.RGBA) (corrosionLayer : image.RGBA) : M image.RGBA :=
  foldM (fun y =>
           foldM (paintCell bounds corrosionPrev color y) (columns bounds))
        (rowsDown bounds) corrosionLayer.

(** The seed phase of [ApplyCorrosion]: the two slices and the seed loop. *)
Definition selectSeeds (layer : image.RGBA) (numSeeds : Z)
  : M (list bool * list bool) :=
  let bounds := image.Bounds layer in
  corrosionCur <- orPanic (makeBools (image.Dx bounds * image.Dy bounds)) ;;
  corrosionPrev <- orPanic (makeBools (image.Dx bounds * image.Dy bounds)) ;;
  perm <- Perm (image.Dx bounds * image.Dy bounds) ;;
  cur <- orPanic (seedLoop layer perm corrosionCur numSeeds) ;;
  ret (cur, corrosionPrev).

Definition ApplyCorrosion (layer : image.RGBA) (color : color.RGBA)
  (numIterations numSeeds : Z) : M image.RGBA :=
  let bounds := image.Bounds layer in
  seeded <- selectSeeds layer numSeeds ;;
  final <- corrodeLoop layer numIterations seeded ;;
  let '(corrosionCur, corrosionPrev) := final in
  corrosionLayer <- orPanic (image.NewRGBA bounds) ;;
  paint bounds corrosionPrev color corrosionLayer.

End Engines.

(** ** Vocabulary of the statements *)

(** The effect layer is packed like a fresh buffer and unset wherever the
    layer is occupied. *)
Definition clearOfSilhouette (layer e : image.RGBA) : Prop :=
  image.Stride e = image.Dx (image.RGBA_Rect e) /\
  forall x y, occupied layer x y = true -> image.RGBA_At e x y = color.zero.

(** No pixel of the buffer is set. *)
Definition transparent (e : image.RGBA) : Prop :=
  forall x y, image.RGBA_At e x y = color.zero.

(** The rectangle has no negative side, so [image.NewRGBA] accepts it. *)
Definition wellFormed (r : image.Rectangle) : Prop :=
  0 <= image.Dx r /\ 0 <= image.Dy r.

(** The rectangle's upper-left corner is the origin, as for every image
    that [image.Rect(0, 0, w, h)] or a decoder gives. *)
Definition atOrigin (r : image.Rectangle) : Prop :=
  image.X (image.Min r) = 0 /\ image.Y (image.Min r) = 0.

(** ** Sample inputs *)

Module sample.

Definition red : color.RGBA := color.mkRGBA 255 0 0 255.
Definition yellow : color.RGBA := color.mkRGBA 255 255 0 255.
Definition none : color.RGBA := color.zero.

(** A [w] x [h] image at the origin with the given pixels, row by row. *)
Definition picture (w h : Z) (pix : list color.RGBA) : image.RGBA :=
  image.mkRGBA pix w (image.Rect 0 0 w h).

(** A source whose every [Float64()] is [f], every [Intn] is [k] and
    every [Perm(n)] is the identity permutation. *)
Definition mock (f : float) (k : Z) : rand.Source :=
  rand.constant f k (fun n => seqZ 0 n).

(** A 2 x 2 image with no pixel set. *)
Definition blank : image.RGBA := picture 2 2 [none; none; none; none].

(** One opaque pixel. *)
Definition pixel : image.RGBA := picture 1 1 [red].

(** One opaque pixel in the middle of a 3 x 3 image. *)
Definition dot : image.RGBA :=
  picture 3 3 [none; none; none; none; red; none; none; none; none].

(** One opaque pixel under two transparent ones. *)
Definition stub : image.RGBA := picture 1 3 [none; none; red].

(** An opaque pixel whose bounds start at (1, 0). *)
Definition shifted : image.RGBA :=
  image.mkRGBA [red] 1 (image.Rect 1 0 2 1).

End sample.

(** The cells of the 3x3 neighbourhood of (x, y) that lie inside [b], the
    cell itself included, in the order the loops visit them. *)
Definition neighborhood (b : image.Rectangle) (x y : Z) : list (Z * Z) :=
  filter (fun p => image.Point_In p.1 p.2 b = true)
    [(x + -1, y + -1); (x + -1, y + 0); (x + -1, y + 1);
     (x + 0, y + -1); (x + 0, y + 0); (x + 0, y + 1);
     (x + 1, y + -1); (x + 1, y + 0); (x + 1, y + 1)].

(** (x', y') is a cell of the neighbourhood of (x, y) inside [b]. *)
Definition near (b : image.Rectangle) (x y x' y' : Z) : bool :=
  (Z.abs (x' - x) <=? 1) && (Z.abs (y' - y) <=? 1) && image.Point_In x' y' b.

(** The pixel is set on the effect layer with a colour other than [c]. *)
Definition setOther (e : image.RGBA) (c : color.RGBA) (x y : Z) : bool :=
  negb (alphaOf (image.RGBA_At e x y) =? 0)
  && negb (bool_decide (image.RGBA_At e x y = c)).

(** How many cells of the neighbourhood are set with a colour other than
    [c]. *)
Definition otherColorCount (b : image.Rectangle) (c : color.RGBA)
  (e : image.RGBA) (x y : Z) : Z :=
  Z.of_nat (length (filter (fun p => setOther e c p.1 p.2 = true)
                           (neighborhood b x y))).

(** The glow engine's thinning skip fires on the sample [f]. *)
Definition glowThinned (f : float) : bool :=
  PrimFloat.ltb f 0x1.999999999999ap-4%float.

(** Every cell of the grid that is set belongs to an occupied pixel. *)
Definition withinSilhouette (layer : image.RGBA) (grid : list bool) : Prop :=
  forall x y,
    image.Point_In x y (image.Bounds layer) = true ->
    boolAt grid (y * image.Dx (image.Bounds layer) + x) = Some true ->
    occupied layer x y = true.

(** Every [Perm(k)] of the source is a permutation of 0 .. k-1. *)
Definition permutes (src : rand.Source) : Prop :=
  forall n k, Permutation (rand.Perm_at src n k) (seqZ 0 k).

(** ** ReplaceColor *)

(** [color.NRGBA]: four [uint8] channels, not alpha-premultiplied. *)
Record NRGBA : Type := mkNRGBA { NR : Z; NG : Z; NB : Z; NA : Z }.

(** A value of the interface [color.Color] with its dynamic type: a
    [color.RGBA] or a [color.NRGBA], the colours of the two kinds of image
    that [image.Decode] gives for a PNG with 8-bit channels. Two values are
    [==] when they have the same dynamic type and the same fields. *)
Inductive Color : Type :=
| Color_RGBA (c : color.RGBA)
| Color_NRGBA (c : NRGBA).

#[global] Instance NRGBA_eq_dec : EqDecision NRGBA.
Proof. solve_decision. Defined.

#[global] Instance Color_eq_dec : EqDecision Color.
Proof. solve_decision. Defined.

(** One colour channel of [func (c NRGBA) RGBA()]:
    [r = uint32(c.R); r |= r << 8; r *= uint32(c.A); r /= 0xff]. *)
Definition premultiplied (v a : Z) : Z := Z.quot (color.widen v * a) 255.

(** The method [RGBA()] of a colour. *)
Definition Color_RGBA16 (c : Color) : Z * Z * Z * Z :=
  match c with
  | Color_RGBA c => color.RGBA_RGBA c
  | Color_NRGBA c =>
      (premultiplied (NR c) (NA c), premultiplied (NG c) (NA c),
       premultiplied (NB c) (NA c), color.widen (NA c))
  end.

(** [color.RGBAModel.Convert(c).(color.RGBA)]: a [color.RGBA] is returned
    as it is, another colour through its method [RGBA()]. *)
Definition rgbaModel (c : Color) : color.RGBA :=
  match c with
  | Color_RGBA c => c
  | _ =>
      let '(r, g, b, a) := Color_RGBA16 c in
      color.mkRGBA (uint8 (Z.shiftr r 8)) (uint8 (Z.shiftr g 8))
                   (uint8 (Z.shiftr b 8)) (uint8 (Z.shiftr a 8))
  end.

(** A value of the interface [image.Image], through the two methods that
    [ReplaceColor] calls: [Bounds()] and [At(x, y)]. *)
Record Image : Type := mkImage {
  Image_Bounds : image.Rectangle;
  Image_At : Z -> Z -> Color
}.

(** An [*image.RGBA] as an [image.Image]: its [At] returns a
    [color.RGBA]. *)
Definition Image_of_RGBA (p : image.RGBA) : Image :=
  mkImage (image.Bounds p) (fun x y => Color_RGBA (image.RGBA_At p x y)).

(** [draw.Draw(dst, r, src, r.Min, draw.Src)]: every pixel of [r] becomes
    the conversion of the pixel of [src] at the same place. *)
Definition drawSrc (dst : image.RGBA) (r : image.Rectangle) (src : Image)
  : image.RGBA :=
  foldl (fun dst y =>
           foldl (fun dst x =>
                    image.RGBA_Set dst x y (rgbaModel (Image_At src x y)))
                 dst (columns r))
        dst (rowsDown r).

(** [ReplaceColor]: a copy of [img] in which the pixels that [img.At(x, y)]
    reports [==] to [from], for x in 0 .. Dx-1 and y in 0 .. Dy-1, are set
    to [to]; [Set] converts [to] as [color.RGBAModel] does. *)
Definition ReplaceColor (img : Image) (from to : Color) : option image.RGBA :=
  let bounds := Image_Bounds img in
  newImg ← image.NewRGBA bounds;
  let newImg := drawSrc newImg bounds img in
  Some (foldl (fun newImg x =>
                 foldl (fun newImg y =>
                          if bool_decide (Image_At img x y = from)
                          then image.RGBA_Set newImg x y (rgbaModel to)
                          else newImg)
                       newImg (seqZ 0 (image.Dy bounds)))
              newImg (seqZ 0 (image.Dx bounds))).

(** Every pixel of the image is a [color.RGBA], as those of an
    [*image.RGBA] are. *)
Definition rgbaPixels (img : Image) : Prop :=
  forall x y, exists c, Image_At img x y = Color_RGBA c.

(** A 1 x 1 [*image.NRGBA] with an opaque red pixel, as an
    [image.Image]. *)
Definition nrgbaPixel : Image :=
  mkImage (image.Rect 0 0 1 1)
    (fun x y => if image.Point_In x y (image.Rect 0 0 1 1)
                then Color_NRGBA (mkNRGBA 255 0 0 255)
                else Color_NRGBA (mkNRGBA 0 0 0 0)).

(** (x, y) is one of the coordinates 0 .. Dx-1, 0 .. Dy-1 that the loops
    of [ReplaceColor] visit. *)
Definition inZeroBox (r : image.Rectangle) (x y : Z) : bool :=
  (0 <=? x) && (x <? image.Dx r) && (0 <=? y) && (y <? image.Dy r).

(** ** The spritesheet *)

(** Go's [image.Rect], which swaps the corners when they are given out of
    order; it agrees with [image.Rect] above on ordered corners. *)
Definition image_Rect (x0 y0 x1 y1 : Z) : image.Rectangle :=
  let '(x0, x1) := if x1 <? x0 then (x1, x0) else (x0, x1) in
  let '(y0, y1) := if y1 <? y0 then (y1, y0) else (y0, y1) in
  image.mkRectangle (image.mkPoint x0 y0) (image.mkPoint x1 y1).

(** [type Spritesheet struct]: the fields [image], [tileSize], [xCount],
    [yCount], [x] and [y]. *)
Record Spritesheet : Type := mkSpritesheet {
  s_image : image.RGBA;
  s_tileSize : Z;
  s_xCount : Z;
  s_yCount : Z;
  s_x : Z;
  s_y : Z
}.

(** What a call gives back: a value, the error it returns, or a panic. *)
Inductive outcome (T : Type) : Type :=
| Returned (v : T)
| Failed
| Panicked.

Arguments Returned {T} v.
Arguments Failed {T}.
Arguments Panicked {T}.

(** [New]; [decode] stands for [image.Decode] ([None] is its error), and
    [/] is Go's truncated division, which panics on a zero divisor. *)
Definition New (decode : list Byte.byte -> option image.RGBA)
  (imgData : list Byte.byte) (tileSize : Z) : outcome Spritesheet :=
  match decode imgData with
  | None => Failed
  | Some img =>
      let bounds := image.Bounds img in
      let x := image.Dx bounds in
      let y := image.Dy bounds in
      if tileSize =? 0 then Panicked
      else
        let xCount := Z.quot x tileSize in
        let yCount := Z.quot y tileSize in
        Returned (mkSpritesheet img tileSize xCount yCount x y)
  end.

Definition NumTiles (s : Spritesheet) : Z := s_xCount s * s_yCount s.

(** [x := (index % s.xCount) * s.tileSize] and
    [y := (index / s.xCount) * s.tileSize]. *)
Definition tileOrigin (s : Spritesheet) (index : Z) : Z * Z :=
  (Z.rem index (s_xCount s) * s_tileSize s,
   Z.quot index (s_xCount s) * s_tileSize s).

(** [TileImage]; [%] and [/] panic when [xCount] is zero. *)
Definition TileImage (s : Spritesheet) (index : Z) : option image.RGBA :=
  if s_xCount s =? 0 then None
  else
    let '(x, y) := tileOrigin s index in
    tile ← image.NewRGBA (image_Rect 0 0 (s_tileSize s) (s_tileSize s));
    Some (foldl (fun tile i =>
                   foldl (fun tile j =>
                            image.RGBA_Set tile i j
                              (image.RGBA_At (s_image s) (x + i) (y + j)))
                         tile (seqZ 0 (s_tileSize s)))
                tile (seqZ 0 (s_tileSize s))).


(** ** Vocabulary of the corrosion statements *)

(** The pixel that the seed loop reads for cell [i], at (i % Dx, i / Dx), is
    occupied. *)
Definition seedable (layer : image.RGBA) (i : Z) : bool :=
  let dx := image.Dx (image.Bounds layer) in
  occupied layer (Z.rem i dx) (Z.quot i dx).

(** How many cells of the grid are set. *)
Definition countSet (grid : list bool) : Z :=
  Z.of_nat (length (filter (fun b : bool => b = true) grid)).

(** How many of the cells listed are seedable. *)
Definition seedableIn (layer : image.RGBA) (cells : list Z) : Z :=
  Z.of_nat (length (filter (fun i => seedable layer i = true) cells)).

(** How many cells of the layer are seedable. *)
Definition seedableCount (layer : image.RGBA) : Z :=
  seedableIn layer
    (seqZ 0 (image.Dx (image.Bounds layer) * image.Dy (image.Bounds layer))).

(** How many cells the seed loop marks on its way through [cells] with the
    budget [numSeeds]. *)
Definition marked (layer : image.RGBA) (cells : list Z) (numSeeds : Z) : Z :=
  if 1 <=? numSeeds then Z.min numSeeds (seedableIn layer cells)
  else if numSeeds <? 0 then seedableIn layer cells
  else match cells with
       | [] => 0
       | i :: _ => if seedable layer i then seedableIn layer cells else 0
       end.

(** Every [Intn(k)] of the source is at least 0. *)
Definition intnNonneg (src : rand.Source) : Prop :=
  forall n k, 0 <= rand.Intn_at src n k.

(** Cell (x, y) of the grid is set. *)
Definition cellSet (layer : image.RGBA) (grid : list bool) (x y : Z) : bool :=
  bool_decide (boolAt grid (y * image.Dx (image.Bounds layer) + x) = Some true).

(** Every cell set in the first grid is set in the second. *)
Definition subGrid (g1 g2 : list bool) : Prop :=
  forall i, boolAt g1 i = Some true -> boolAt g2 i = Some true.

(** The two grids of [ApplyCorrosion] when its iterations are over: the
    seed phase, then the loop over the iterations. *)
Definition corrosionGrids (src : rand.Source) (layer : image.RGBA)
  (numIterations numSeeds : Z) : M (list bool * list bool) :=
  seeded <- selectSeeds src layer numSeeds ;;
  corrodeLoop src layer numIterations seeded.

(** ** Vocabulary of the gradient statements *)

(** One channel of [interpolateColor] from the two floats that the
    conversions of the widened channels give. *)
Definition channelOf (fa fb percentage : float) : Z :=
  uint8 (Z.shiftr
           (uint16 (int_of_float64
              (PrimFloat.add fa
                 (PrimFloat.mul percentage (PrimFloat.sub fb fa))))) 8).

(** Exact interpolation half way between two 8-bit channels: the channels
    widen to 257 a and 257 b, the middle lies at (257 a + 257 b) / 2, and
    the channel kept is the high byte of its integer part. *)
Definition middle8 (a b : Z) : Z := (257 * (a + b)) / 512.

Definition middleColor (colorA colorB : color.RGBA) : color.RGBA :=
  color.mkRGBA (middle8 (color.R colorA) (color.R colorB))
               (middle8 (color.G colorA) (color.G colorB))
               (middle8 (color.B colorA) (color.B colorB))
               (middle8 (color.A colorA) (color.A colorB)).

(** [v] lies between [a] and [b]. *)
Definition between (a b v : Z) : Prop :=
  (a <= b -> a <= v <= b) /\ (b <= a -> b <= v <= a).

(** The numbers of colours of the gradients that the engines build: 3 for
    the glow, 10 for the flame, 15 for the drip. *)
Definition engineColors (numColors : Z) : Prop :=
  numColors = 3 \/ numColors = 10 \/ numColors = 15.

(** The floats of the 8-bit channels, widened. *)
Definition channelFloats : list (Z * float) :=
  map (fun a => (a, float64_of_int (color.widen a))) (seqZ 0 256).

(** A check holds for every pair of 8-bit channels. *)
Definition allPairs (check : Z * float -> Z * float -> bool) : bool :=
  forallb (fun ca => forallb (check ca) channelFloats) channelFloats.

(** The conversions of [interpolateColor] give an 8-bit channel back from
    its float. *)
Definition roundTrip (ca : Z * float) : bool :=
  uint8 (Z.shiftr (uint16 (int_of_float64 ca.2)) 8) =? ca.1.

(** At the percentages 0 and 1 the floating-point interpolation of two
    channels gives the float of the first and of the second. *)
Definition endsCheck (ca cb : Z * float) : bool :=
  Leibniz.eqb
    (PrimFloat.add ca.2 (PrimFloat.mul 0 (PrimFloat.sub cb.2 ca.2))) ca.2
  && Leibniz.eqb
       (PrimFloat.add ca.2 (PrimFloat.mul 1 (PrimFloat.sub cb.2 ca.2))) cb.2.

(** In the middle entry of a gradient of three colours the floating-point
    channel is the exact one. *)
Definition middleCheck (ca cb : Z * float) : bool :=
  let v := channelOf ca.2 cb.2 (percentageOf 1 3) in
  let num := 257 * (ca.1 + cb.1) in
  (512 * v <=? num) && (num <? 512 * (v + 1)).

(** ** Vocabulary of the directional statements *)

(** The colour that the directional engine puts next to a pixel of colour
    [c]: the entry after the first entry of the gradient equal to [c] (after
    entry 0 when no entry equals [c]), unless that entry is the last of the
    [numColors]. *)
Definition nextColor (gradient : list color.RGBA) (numColors : Z)
  (c : color.RGBA) : option color.RGBA :=
  let index := gradientIndex gradient c in
  if index <? numColors - 1 then gradient !! Z.to_nat (index + 1) else None.

(** What the directional engine puts at (x, y) when it does not thin, from
    the layer and from the overlay's pixel one step along the direction [d]:
    nothing outside the bounds or on an occupied pixel, [gradient[0]] next to
    an occupied pixel, the colour after the neighbour's next to a pixel set
    on the overlay, and nothing otherwise. *)
Definition trailColor (layer : image.RGBA) (gradient : list color.RGBA)
  (numColors d : Z) (e : image.RGBA) (x y : Z) : color.RGBA :=
  if negb (image.Point_In x y (image.Bounds layer)) || occupied layer x y
  then color.zero
  else if occupied layer x (y + d) then default color.zero (gradient !! 0%nat)
  else if alphaOf (image.RGBA_At e x (y + d)) =? 0 then color.zero
  else default color.zero
         (nextColor gradient numColors (image.RGBA_At e x (y + d))).

(** A thinning test of the directional engine that fired on samples drawn
    between the draws number [n] and [n']: for some number of neighbours, the
    test started at a draw [m] from [n] on, returned before [n'], and said
    to skip the pixel. *)
Definition thinsWithin (src : rand.Source) (n n' : nat) : Prop :=
  exists k m m',
    (n <= m)%nat /\ (m' <= n')%nat
    /\ thinned src k 0x1.999999999999ap-3%float m = Some (true, m').

(** No sample of the source is below 0.5 or below 0.2, the two thresholds
    of the directional engine. *)
Definition neverThins (src : rand.Source) : Prop :=
  forall n,
    PrimFloat.ltb (rand.Float64_at src n) 0.5%float = false
    /\ PrimFloat.ltb (rand.Float64_at src n) 0x1.999999999999ap-3%float = false.

(** ** Vocabulary of the glow statements *)

(** An occupied pixel of the layer lies at most [k] columns and [k] rows
    from (x, y). *)
Definition reach (layer : image.RGBA) (k x y : Z) : Prop :=
  exists x0 y0,
    occupied layer x0 y0 = true /\ Z.abs (x - x0) <= k /\ Z.abs (y - y0) <= k.

(** * Properties *)

(** ** Pixel buffers *)

Section Buffers.

Implicit Types (p : image.RGBA) (r : image.Rectangle) (c : color.RGBA).

Lemma alphaOf_zero : alphaOf color.zero = 0.
Proof. reflexivity. Qed.

Lemma alphaOf_eq_0 c : alphaOf c = 0 <-> color.A c = 0.
Proof.
  unfold alphaOf, color.RGBA_RGBA, color.widen. rewrite Z.lor_eq_0_iff.
  split; [intros [H _]; exact H | intros ->; split; reflexivity].
Qed.

Lemma Point_In_spec x y r :
  image.Point_In x y r = true <->
  image.X (image.Min r) <= x < image.X (image.Max r) /\
  image.Y (image.Min r) <= y < image.Y (image.Max r).
Proof. unfold image.Point_In. rewrite !andb_true_iff. lia. Qed.

Lemma NewRGBA_Some r p :
  image.NewRGBA r = Some p ->
  p = image.mkRGBA (replicate (Z.to_nat (image.Dx r * image.Dy r)) color.zero)
                   (image.Dx r) r.
Proof.
  unfold image.NewRGBA. destruct (_ || _); [discriminate|]. congruence.
Qed.

Lemma NewRGBA_is_Some r :
  0 <= image.Dx r -> 0 <= image.Dy r -> is_Some (image.NewRGBA r).
Proof.
  intros Hx Hy. unfold image.NewRGBA.
  destruct (image.Dx r <? 0) eqn:E1; [lia|].
  destruct (image.Dy r <? 0) eqn:E2; [lia|]. simpl. eauto.
Qed.

Lemma NewRGBA_Rect r p : image.NewRGBA r = Some p -> image.RGBA_Rect p = r.
Proof. intros ->%NewRGBA_Some. reflexivity. Qed.

Lemma NewRGBA_packed r p : image.NewRGBA r = Some p -> image.packed p.
Proof.
  intros ->%NewRGBA_Some. split; simpl; [reflexivity|].
  apply length_replicate.
Qed.

Lemma NewRGBA_At r p x y :
  image.NewRGBA r = Some p -> image.RGBA_At p x y = color.zero.
Proof.
  intros ->%NewRGBA_Some. unfold image.RGBA_At. simpl.
  destruct (image.Point_In x y r); [|reflexivity].
  destruct (replicate _ _ !! _) as [c|] eqn:E; [|reflexivity].
  apply lookup_replicate in E as [-> _]. reflexivity.
Qed.

Lemma RGBA_Set_Rect p x y c :
  image.RGBA_Rect (image.RGBA_Set p x y c) = image.RGBA_Rect p.
Proof. unfold image.RGBA_Set. destruct (image.Point_In _ _ _); reflexivity. Qed.

Lemma RGBA_Set_Stride p x y c :
  image.Stride (image.RGBA_Set p x y c) = image.Stride p.
Proof. unfold image.RGBA_Set. destruct (image.Point_In _ _ _); reflexivity. Qed.

Lemma RGBA_Set_packed p x y c :
  image.packed p -> image.packed (image.RGBA_Set p x y c).
Proof.
  intros [Hs Hl]. unfold image.RGBA_Set.
  destruct (image.Point_In _ _ _); [|split; assumption].
  split; simpl; [assumption|]. rewrite length_insert. assumption.
Qed.

(** Inside the bounds of a packed buffer the pixel offset is a valid
    index, and it determines the pixel. *)
Lemma PixOffset_range p x y :
  image.packed p -> image.Point_In x y (image.RGBA_Rect p) = true ->
  0 <= image.RGBA_PixOffset p x y
    < image.Dx (image.RGBA_Rect p) * image.Dy (image.RGBA_Rect p).
Proof.
  intros [Hs _] Hin%Point_In_spec. unfold image.RGBA_PixOffset.
  rewrite Hs. unfold image.Dx, image.Dy in *. nia.
Qed.

Lemma PixOffset_inj p x y x' y' :
  image.Stride p = image.Dx (image.RGBA_Rect p) ->
  image.Point_In x y (image.RGBA_Rect p) = true ->
  image.Point_In x' y' (image.RGBA_Rect p) = true ->
  Z.to_nat (image.RGBA_PixOffset p x y)
    = Z.to_nat (image.RGBA_PixOffset p x' y') ->
  x = x' /\ y = y'.
Proof.
  intros Hs Hin%Point_In_spec Hin'%Point_In_spec. unfold image.RGBA_PixOffset.
  rewrite Hs. unfold image.Dx in *. intros Heq.
  assert (y = y') by nia. subst y'. split; [nia|reflexivity].
Qed.

Lemma RGBA_At_Set_ne p x y c x' y' :
  image.Stride p = image.Dx (image.RGBA_Rect p) ->
  (x, y) <> (x', y') ->
  image.RGBA_At (image.RGBA_Set p x y c) x' y' = image.RGBA_At p x' y'.
Proof.
  intros Hs Hne. unfold image.RGBA_Set.
  destruct (image.Point_In x y _) eqn:Hin; [|reflexivity].
  unfold image.RGBA_At, image.RGBA_PixOffset. simpl.
  destruct (image.Point_In x' y' _) eqn:Hin'; [|reflexivity].
  rewrite list_lookup_insert_ne; [reflexivity|].
  intros Heq. destruct (PixOffset_inj p x y x' y' Hs Hin Hin' Heq).
  congruence.
Qed.

Lemma RGBA_At_Set_eq p x y c :
  image.packed p -> image.Point_In x y (image.RGBA_Rect p) = true ->
  image.RGBA_At (image.RGBA_Set p x y c) x y = c.
Proof.
  intros Hp Hin. pose proof (PixOffset_range p x y Hp Hin) as Hr.
  destruct Hp as [Hs Hl].
  unfold image.RGBA_Set. rewrite Hin. unfold image.RGBA_At. simpl.
  rewrite Hin. unfold image.RGBA_PixOffset at 1. simpl.
  fold (image.RGBA_PixOffset p x y).
  rewrite list_lookup_insert_eq; [reflexivity|]. rewrite Hl. lia.
Qed.

Lemma RGBA_At_outside p x y :
  image.Point_In x y (image.RGBA_Rect p) = false ->
  image.RGBA_At p x y = color.zero.
Proof. unfold image.RGBA_At. intros ->. reflexivity. Qed.

End Buffers.

(** ** The effect monad *)

Lemma bind_Some {T U} (m : M T) (k : T -> M U) n u n'' :
  bind m k n = Some (u, n'') <->
  exists v n', m n = Some (v, n') /\ k v n' = Some (u, n'').
Proof.
  unfold bind. split.
  - destruct (m n) as [[v n']|]; [eauto|discriminate].
  - intros (v & n' & -> & Hk). exact Hk.
Qed.

Lemma ret_Some {T} (v : T) n u n' : ret v n = Some (u, n') <-> u = v /\ n' = n.
Proof. unfold ret. split; [intros [= <- <-]|intros [-> ->]]; auto. Qed.

Lemma orPanic_Some {T} (o : option T) n u n' :
  orPanic o n = Some (u, n') <-> o = Some u /\ n' = n.
Proof.
  destruct o as [v|]; simpl.
  - rewrite ret_Some. split; [intros [-> ->]|intros [[= ->] ->]]; auto.
  - unfold panic. split; [discriminate|intros [? _]; discriminate].
Qed.

(** Invert one successful run of a monadic computation in the context. *)
Ltac inv_run :=
  repeat match goal with
  | H : bind _ _ _ = Some _ |- _ =>
      apply bind_Some in H; destruct H as (? & ? & ? & H)
  | H : ret _ _ = Some _ |- _ =>
      apply ret_Some in H; destruct H as [? ?]; subst
  | H : orPanic _ _ = Some _ |- _ =>
      apply orPanic_Some in H; destruct H as [? ?]; subst
  | H : panic _ = Some _ |- _ => discriminate H
  | H : Some _ = Some _ |- _ => injection H as ? ?; subst
  end.

(** A loop keeps what each run of its body keeps. *)
Lemma foldM_inv {T S} (I : S -> Prop) (body : T -> S -> M S) l :
  (forall a s n s' n', a ∈ l -> I s -> body a s n = Some (s', n') -> I s') ->
  forall s n s' n', I s -> foldM body l s n = Some (s', n') -> I s'.
Proof.
  induction l as [|a l IH]; intros Hbody s n s' n' Hs Hrun; simpl in Hrun.
  - inv_run. assumption.
  - inv_run. eapply IH; [| |eassumption].
    + intros; eapply Hbody; [right|..]; eassumption.
    + eapply Hbody; [left|..]; eassumption.
Qed.

(** A loop whose body never panics never panics. *)
Lemma foldM_total {T S} (I : S -> Prop) (body : T -> S -> M S) l :
  (forall a s n, a ∈ l -> I s -> exists s' n', body a s n = Some (s', n') /\ I s') ->
  forall s n, I s -> exists s' n', foldM body l s n = Some (s', n') /\ I s'.
Proof.
  induction l as [|a l IH]; intros Hbody s n Hs; simpl.
  - exists s, n. split; [reflexivity|assumption].
  - destruct (Hbody a s n) as (s1 & n1 & H1 & Hs1); [left|assumption|].
    destruct (IH (fun a s n Ha => Hbody a s n (list_elem_of_further _ _ _ Ha))
                 s1 n1 Hs1) as (s2 & n2 & H2 & Hs2).
    exists s2, n2. split; [|assumption]. apply bind_Some. eauto.
Qed.

(** ** The gradient builder *)

Section Gradient.

Variables (colorA colorB : color.RGBA) (numColors : Z).

Let entry (i : Z) : color.RGBA :=
  interpolateColor colorA colorB (percentageOf i numColors).

Lemma gradientLoop_snoc (l : list Z) i (g : list color.RGBA) :
  foldl (fun g i => <[Z.to_nat i := entry i]> g) g (l ++ [i])
  = <[Z.to_nat i := entry i]>
      (foldl (fun g i => <[Z.to_nat i := entry i]> g) g l).
Proof. rewrite foldl_app. reflexivity. Qed.

Lemma gradientLoop_length_gen (l : list Z) (g : list color.RGBA) :
  length (foldl (fun g i => <[Z.to_nat i := entry i]> g) g l) = length g.
Proof.
  induction l as [|i l IH] using rev_ind; [reflexivity|].
  rewrite gradientLoop_snoc, length_insert. exact IH.
Qed.

Lemma gradientLoop_lookup_gen (l : list Z) (g : list color.RGBA) k :
  (forall i, i ∈ l -> 0 <= i) -> 0 <= k -> (Z.to_nat k < length g)%nat ->
  foldl (fun g i => <[Z.to_nat i := entry i]> g) g l !! Z.to_nat k
  = if decide (k ∈ l) then Some (entry k) else g !! Z.to_nat k.
Proof.
  intros Hl Hk Hlt. induction l as [|i l IH] using rev_ind.
  - simpl. destruct (decide (k ∈ [])) as [H|_]; [|reflexivity].
    apply elem_of_nil in H. contradiction.
  - rewrite gradientLoop_snoc.
    assert (Hl' : forall j, j ∈ l -> 0 <= j).
    { intros j Hj. apply Hl, elem_of_app. left. exact Hj. }
    assert (0 <= i) by (apply Hl, elem_of_app; right; left).
    destruct (decide (i = k)) as [->|Hne].
    + rewrite list_lookup_insert_eq
        by (rewrite gradientLoop_length_gen; exact Hlt).
      destruct (decide (k ∈ l ++ [k])) as [_|Hn]; [reflexivity|].
      exfalso. apply Hn, elem_of_app. right. left.
    + rewrite list_lookup_insert_ne by lia. rewrite (IH Hl').
      destruct (decide (k ∈ l)) as [Hin|Hin];
        destruct (decide (k ∈ l ++ [i])) as [Hin'|Hin']; try reflexivity.
      * exfalso. apply Hin', elem_of_app. left. exact Hin.
      * exfalso. apply elem_of_app in Hin' as [?|Hin']; [contradiction|].
        apply list_elem_of_singleton in Hin'. congruence.
Qed.

Lemma buildGradient_Some gradient :
  buildGradient colorA colorB numColors = Some gradient ->
  0 <= numColors /\ length gradient = Z.to_nat numColors /\
  forall i, 0 <= i < numColors -> gradient !! Z.to_nat i = Some (entry i).
Proof.
  unfold buildGradient. destruct (numColors <? 0) eqn:E; [discriminate|].
  intros [= <-]. split; [lia|]. unfold gradientLoop. split.
  - rewrite gradientLoop_length_gen. apply length_replicate.
  - intros i Hi. fold entry. rewrite gradientLoop_lookup_gen.
    + destruct (decide (i ∈ seqZ 0 numColors)) as [_|Hn]; [reflexivity|].
      exfalso. apply Hn, elem_of_seqZ. lia.
    + intros j Hj%elem_of_seqZ. lia.
    + lia.
    + rewrite length_replicate. lia.
Qed.

Lemma buildGradient_is_Some :
  0 <= numColors -> is_Some (buildGradient colorA colorB numColors).
Proof.
  intros H. unfold buildGradient.
  destruct (numColors <? 0) eqn:E; [lia|]. eauto.
Qed.

End Gradient.

(** ** The directional engine *)

Section Directional.

Variable src : rand.Source.
Variable layer : image.RGBA.

Lemma thinned_total numNeighbors thinning n :
  exists skip n', thinned src numNeighbors thinning n = Some (skip, n').
Proof.
  unfold thinned, bind, Float64, ret.
  destruct (numNeighbors <? minNeighbors);
    repeat match goal with |- context [if ?b then _ else _] => destruct b end;
    eauto.
Qed.

Lemma gradientIndexFrom_range gradient target i :
  0 <= i ->
  let index := gradientIndexFrom i gradient target in
  index = 0 \/ i <= index < i + Z.of_nat (length gradient).
Proof.
  revert i. induction gradient as [|c rest IH]; intros i Hi; simpl.
  - left. reflexivity.
  - destruct (decide (c = target)); [right; lia|].
    destruct (IH (i + 1)) as [H|H]; [lia|left; exact H|right; lia].
Qed.

Lemma gradientIndex_range gradient target :
  0 <= gradientIndex gradient target
  /\ (gradientIndex gradient target = 0
      \/ gradientIndex gradient target < Z.of_nat (length gradient)).
Proof.
  unfold gradientIndex.
  destruct (gradientIndexFrom_range gradient target 0) as [H|H]; lia.
Qed.

(** One run of the loop body leaves the effect layer alone or sets the
    pixel it visits, and then that pixel is unoccupied on the layer. *)
Lemma effectPixel_result gradient numColors direction y x effectLayer n e n' :
  effectPixel src layer gradient numColors direction y x effectLayer n
    = Some (e, n') ->
  e = effectLayer \/
  (occupied layer x y = false /\ exists c, e = image.RGBA_Set effectLayer x y c).
Proof.
  unfold effectPixel, occupied. intros H.
  destruct (alphaOf (image.RGBA_At layer x y) =? 0) eqn:Ea; simpl in H;
    [|inv_run; left; reflexivity].
  destruct (negb (alphaOf (image.RGBA_At layer x (y + direction)) =? 0)).
  { inv_run. right. split; [reflexivity|]. eauto. }
  destruct (negb (alphaOf (image.RGBA_At effectLayer x (y + direction)) =? 0));
    [|inv_run; left; reflexivity].
  apply bind_Some in H as (skip & n1 & _ & H).
  destruct skip; [inv_run; left; reflexivity|].
  destruct (_ <? numColors - 1); inv_run; [right|left; reflexivity].
  split; [reflexivity|]. eauto.
Qed.

Lemma effectPixel_total gradient numColors direction y x effectLayer n :
  1 <= numColors -> length gradient = Z.to_nat numColors ->
  exists e n',
    effectPixel src layer gradient numColors direction y x effectLayer n
      = Some (e, n').
Proof.
  intros HN Hlen. unfold effectPixel.
  destruct (negb (alphaOf (image.RGBA_At layer x y) =? 0)); [unfold ret; eauto|].
  destruct (negb (alphaOf (image.RGBA_At layer x (y + direction)) =? 0)).
  { destruct (lookup_lt_is_Some_2 gradient 0%nat) as [c Hc]; [lia|].
    rewrite Hc. unfold orPanic, bind, ret. eauto. }
  destruct (negb (alphaOf (image.RGBA_At effectLayer x (y + direction)) =? 0));
    [|unfold ret; eauto].
  destruct (thinned_total (countEitherLayer layer effectLayer x y)
              0x1.999999999999ap-3%float n) as (skip & n1 & Hskip).
  unfold bind at 1. rewrite Hskip.
  destruct skip; [unfold ret; eauto|].
  set (index := gradientIndex gradient _).
  destruct (index <? numColors - 1) eqn:Ei; [|unfold ret; eauto].
  pose proof (gradientIndex_range gradient
                (image.RGBA_At effectLayer x (y + direction))) as [H0 _].
  fold index in H0.
  destruct (lookup_lt_is_Some_2 gradient (Z.to_nat (index + 1))) as [c Hc];
    [lia|].
  rewrite Hc. unfold orPanic, bind, ret. eauto.
Qed.

Lemma effectPixel_clear gradient numColors direction y x effectLayer n e n' :
  clearOfSilhouette layer effectLayer ->
  effectPixel src layer gradient numColors direction y x effectLayer n
    = Some (e, n') ->
  clearOfSilhouette layer e.
Proof.
  intros [Hs Hclear] H.
  apply effectPixel_result in H as [->|(Hocc & c & ->)]; [split; assumption|].
  split.
  - rewrite RGBA_Set_Stride, RGBA_Set_Rect. exact Hs.
  - intros x' y' Hocc'. rewrite RGBA_At_Set_ne; [auto|assumption|].
    intros [= -> ->]. congruence.
Qed.

Lemma applyEffect_total colorA colorB numColors direction n :
  0 <= image.Dx (image.Bounds layer) -> 0 <= image.Dy (image.Bounds layer) ->
  1 <= numColors ->
  exists e n',
    applyEffect src layer colorA colorB numColors direction n = Some (e, n').
Proof.
  intros Hx Hy HN. unfold applyEffect.
  destruct (NewRGBA_is_Some _ Hx Hy) as [e0 He0].
  destruct (buildGradient_is_Some colorA colorB numColors) as [g Hg]; [lia|].
  destruct (buildGradient_Some _ _ _ _ Hg) as (_ & Hlen & _).
  rewrite He0, Hg. unfold orPanic, bind at 1 2, ret.
  destruct (foldM_total (fun _ => True)
              (fun y => foldM (effectPixel src layer g numColors
                                 (Direction_int direction) y)
                              (columns (image.Bounds layer)))
              (scanRows (image.Bounds layer) direction)) with (s := e0) (n := n)
    as (e & n' & H & _); [|exact I|eauto].
  intros y e1 n1 _ _.
  destruct (foldM_total (fun _ => True)
              (effectPixel src layer g numColors (Direction_int direction) y)
              (columns (image.Bounds layer))) with (s := e1) (n := n1)
    as (e2 & n2 & H & _); [|exact I|eauto].
  intros x e3 n3 _ _.
  destruct (effectPixel_total g numColors (Direction_int direction) y x e3 n3)
    as (e4 & n4 & H); [assumption..|eauto].
Qed.

Lemma applyEffect_clear colorA colorB numColors direction n e n' :
  applyEffect src layer colorA colorB numColors direction n = Some (e, n') ->
  clearOfSilhouette layer e.
Proof.
  unfold applyEffect. intros H. inv_run.
  match goal with H : foldM _ _ _ _ = _ |- _ =>
    eapply (foldM_inv (clearOfSilhouette layer)) in H; [exact H| |] end.
  - intros y e1 n1 e2 n2 _ He1 Hrow.
    eapply (foldM_inv (clearOfSilhouette layer)) in Hrow; [exact Hrow| |exact He1].
    intros x' e3 n3 e4 n4 _ He3 Hpix. eapply effectPixel_clear; eassumption.
  - match goal with H : image.NewRGBA _ = Some _ |- _ =>
      pose proof (NewRGBA_packed _ _ H) as [Hs _];
      pose proof (fun x y => NewRGBA_At _ _ x y H) as Hz end.
    split; [exact Hs|]. intros; apply Hz.
Qed.

End Directional.

(** ** Occupied pixels and the overlay *)

(** C1, as amended. The overlay that the directional engine returns
    ([applyEffect], hence [ApplyFlameEffect] and [ApplyDripEffect]) is never
    set where the layer is occupied: whatever buffer a call returns has
    alpha 0 at every occupied coordinate, and a call on a layer with
    well-formed bounds and at least one gradient colour does return one. *)
Theorem directional_overlay_avoids_silhouette
  (src : rand.Source) (layer : image.RGBA) (colorA colorB : color.RGBA)
  (numColors : Z) (direction : Direction) (n : nat) :
  (forall e n',
     applyEffect src layer colorA colorB numColors direction n = Some (e, n') ->
     forall x y, occupied layer x y = true ->
                 alphaOf (image.RGBA_At e x y) = 0)
  /\ (wellFormed (image.Bounds layer) -> 1 <= numColors ->
      exists e n',
        applyEffect src layer colorA colorB numColors direction n
          = Some (e, n')).
Proof.
  split.
  - intros e n' Hrun x y Hocc.
    apply applyEffect_clear in Hrun as [_ Hclear].
    rewrite (Hclear x y Hocc). reflexivity.
  - intros [Hx Hy] HN. apply applyEffect_total; assumption.
Qed.

(** The flame effect on the sample stub returns an overlay that is unset on
    the stub's one occupied pixel. *)
Lemma directional_overlay_avoids_silhouette_witness :
  exists e n',
    ApplyFlameEffect (sample.mock 1 0) sample.stub sample.red sample.yellow 0%nat
      = Some (e, n')
    /\ alphaOf (image.RGBA_At e 0 2) = 0.
Proof.
  destruct (directional_overlay_avoids_silhouette (sample.mock 1 0) sample.stub
              sample.red sample.yellow 10 DirectionUp 0%nat) as [Hclear Htotal].
  destruct Htotal as (e & n' & Hrun);
    [split; vm_compute; discriminate | lia |].
  exists e, n'. split; [exact Hrun|].
  apply (Hclear e n' Hrun). reflexivity.
Defined.

(** C1 as stated fails for two of the three engines. The corrosion engine
    paints the one occupied pixel of the sample pixel, and the glow engine's
    second pass paints the occupied centre of the sample dot. *)
Lemma silhouette_painted_by_corrosion_and_glow :
  (exists e n',
     ApplyCorrosion (sample.mock 1 0) sample.pixel sample.yellow 1 1 0%nat
       = Some (e, n')
     /\ occupied sample.pixel 0 0 = true
     /\ alphaOf (image.RGBA_At e 0 0) <> 0)
  /\ (exists e n',
        ApplyGlowEffect (sample.mock 1 0) sample.dot sample.red sample.yellow
          0%nat = Some (e, n')
        /\ occupied sample.dot 1 1 = true
        /\ alphaOf (image.RGBA_At e 1 1) <> 0).
Proof.
  split; eexists _, _; (split; [vm_compute; reflexivity|]);
    (split; [reflexivity | vm_compute; discriminate]).
Qed.

(** ** Neighbourhood loops *)

Lemma Point_In_outside x y b :
  image.Point_In x y b
  = negb ((x <? image.X (image.Min b)) || (image.X (image.Max b) <=? x))
    && negb ((y <? image.Y (image.Min b)) || (image.Y (image.Max b) <=? y)).
Proof.
  unfold image.Point_In.
  destruct (Z.ltb_spec x (image.X (image.Min b))),
           (Z.leb_spec (image.X (image.Max b)) x),
           (Z.ltb_spec y (image.Y (image.Min b))),
           (Z.leb_spec (image.Y (image.Max b)) y),
           (Z.leb_spec (image.X (image.Min b)) x),
           (Z.ltb_spec x (image.X (image.Max b))),
           (Z.leb_spec (image.Y (image.Min b)) y),
           (Z.ltb_spec y (image.Y (image.Max b)));
    try reflexivity; exfalso; lia.
Qed.

Lemma forNeighbors_neighborhood {S} b x y (body : Z -> Z -> S -> S) (s : S) :
  forNeighbors b x y body s
  = foldl (fun s p => body p.1 p.2 s) s (neighborhood b x y).
Proof.
  unfold forNeighbors, neighborhood, offsets.
  rewrite !filter_cons, filter_nil. cbn [foldl fst snd].
  rewrite !Point_In_outside.
  destruct ((x + -1 <? image.X (image.Min b))
            || (image.X (image.Max b) <=? x + -1)),
           ((x + 0 <? image.X (image.Min b))
            || (image.X (image.Max b) <=? x + 0)),
           ((x + 1 <? image.X (image.Min b))
            || (image.X (image.Max b) <=? x + 1)),
           ((y + -1 <? image.Y (image.Min b))
            || (image.Y (image.Max b) <=? y + -1)),
           ((y + 0 <? image.Y (image.Min b))
            || (image.Y (image.Max b) <=? y + 0)),
           ((y + 1 <? image.Y (image.Min b))
            || (image.Y (image.Max b) <=? y + 1));
    reflexivity.
Qed.

Lemma elem_of_neighborhood b x y x' y' :
  (x', y') ∈ neighborhood b x y <-> near b x y x' y' = true.
Proof.
  unfold neighborhood, near. rewrite list_elem_of_filter. simpl.
  rewrite !andb_true_iff, !Z.leb_le, !elem_of_cons, elem_of_nil.
  split.
  - intros [Hin Hmem]. split; [|exact Hin].
    repeat destruct Hmem as [[= -> ->]|Hmem]; try contradiction; lia.
  - intros [[Hx Hy] Hin]. split; [exact Hin|].
    assert (x' = x + -1 \/ x' = x + 0 \/ x' = x + 1) as Hx' by lia.
    assert (y' = y + -1 \/ y' = y + 0 \/ y' = y + 1) as Hy' by lia.
    destruct Hx' as [->|[->| ->]], Hy' as [->|[->| ->]]; tauto.
Qed.

Lemma neighborhood_inside b x y x' y' :
  (x', y') ∈ neighborhood b x y -> image.Point_In x' y' b = true.
Proof.
  intros H%elem_of_neighborhood. unfold near in H.
  apply andb_true_iff in H as [_ H]. exact H.
Qed.

Lemma count_foldl {T} (P : T -> bool) (l : list T) (k : Z) :
  foldl (fun n p => if P p then n + 1 else n) k l
  = k + Z.of_nat (length (filter (fun p => P p = true) l)).
Proof.
  revert k. induction l as [|p l IH]; intros k; simpl; [lia|].
  rewrite filter_cons, IH.
  destruct (P p) eqn:E; destruct (decide _) as [H|H]; simpl; try lia;
    congruence.
Qed.

(** ** The glow engine *)

Section Glow.

Variable src : rand.Source.
Variable layer : image.RGBA.

Lemma countOtherColor_spec b c e x y :
  countOtherColor b c e x y = otherColorCount b c e x y.
Proof.
  unfold countOtherColor, otherColorCount. rewrite forNeighbors_neighborhood.
  rewrite (count_foldl (fun p => setOther e c p.1 p.2)). lia.
Qed.

(** The fill visits a list of cells inside the buffer: afterwards each of
    them that was unset carries [c], and nothing else has changed. *)
Lemma fill_cells c (l : list (Z * Z)) e :
  image.packed e ->
  (forall p, p ∈ l -> image.Point_In p.1 p.2 (image.RGBA_Rect e) = true) ->
  let e' := foldl (fun e p =>
              if alphaOf (image.RGBA_At e p.1 p.2) =? 0
              then image.RGBA_Set e p.1 p.2 c else e) e l in
  image.packed e' /\ image.RGBA_Rect e' = image.RGBA_Rect e /\
  forall x y,
    image.RGBA_At e' x y
    = if bool_decide ((x, y) ∈ l) && (alphaOf (image.RGBA_At e x y) =? 0)
      then c else image.RGBA_At e x y.
Proof.
  revert e. induction l as [|[qx qy] l IH]; intros e Hp Hin; cbn [foldl fst snd].
  - split; [exact Hp|]. split; [reflexivity|]. intros x y.
    rewrite (bool_decide_eq_false_2 ((x, y) ∈ [])) by apply not_elem_of_nil.
    reflexivity.
  - set (e1 := if alphaOf (image.RGBA_At e qx qy) =? 0
               then image.RGBA_Set e qx qy c else e).
    assert (Hq : image.Point_In qx qy (image.RGBA_Rect e) = true)
      by (apply (Hin (qx, qy)); left).
    assert (Hp1 : image.packed e1)
      by (unfold e1; destruct (_ =? 0); [apply RGBA_Set_packed|]; exact Hp).
    assert (Hr1 : image.RGBA_Rect e1 = image.RGBA_Rect e)
      by (unfold e1; destruct (_ =? 0); [apply RGBA_Set_Rect|reflexivity]).
    destruct (IH e1 Hp1) as (Hp' & Hr' & Hat).
    { intros p Hpl. rewrite Hr1. apply Hin. right. exact Hpl. }
    split; [exact Hp'|]. split; [congruence|]. intros x y. rewrite Hat.
    destruct (decide ((x, y) = (qx, qy))) as [[= -> ->]|Hne].
    + rewrite (bool_decide_eq_true_2 ((qx, qy) ∈ (qx, qy) :: l)) by left.
      unfold e1. destruct (alphaOf (image.RGBA_At e qx qy) =? 0) eqn:Ea.
      * rewrite RGBA_At_Set_eq by assumption. simpl.
        destruct (_ && _); reflexivity.
      * rewrite Ea, andb_false_r. reflexivity.
    + assert (image.RGBA_At e1 x y = image.RGBA_At e x y) as ->.
      { unfold e1. destruct (_ =? 0); [|reflexivity].
        apply RGBA_At_Set_ne; [apply Hp|congruence]. }
      assert (bool_decide ((x, y) ∈ (qx, qy) :: l) = bool_decide ((x, y) ∈ l))
        as ->; [|reflexivity].
      apply bool_decide_ext. rewrite elem_of_cons. tauto.
Qed.

Lemma glowFill_spec b c x y e :
  image.packed e -> image.RGBA_Rect e = b ->
  let e' := glowFill b c x y e in
  image.packed e' /\ image.RGBA_Rect e' = b /\
  forall x' y',
    image.RGBA_At e' x' y'
    = if near b x y x' y' && (alphaOf (image.RGBA_At e x' y') =? 0)
      then c else image.RGBA_At e x' y'.
Proof.
  intros Hp Hr. unfold glowFill. rewrite forNeighbors_neighborhood.
  destruct (fill_cells c (neighborhood b x y) e Hp) as (Hp' & Hr' & Hat).
  { intros [px py] Hin. rewrite Hr. eapply neighborhood_inside, Hin. }
  split; [exact Hp'|]. split; [congruence|]. intros x' y'. rewrite Hat.
  assert (bool_decide ((x', y') ∈ neighborhood b x y) = near b x y x' y')
    as ->; [|reflexivity].
  destruct (near b x y x' y') eqn:E.
  - apply bool_decide_eq_true_2, elem_of_neighborhood, E.
  - apply bool_decide_eq_false_2. rewrite elem_of_neighborhood. congruence.
Qed.

End Glow.

(** C8. In a propagation pass (gradient index k > 0, colour c = gradient[k])
    the step at pixel (x, y) fills neighbours only if the pixel is unoccupied
    on the layer, is set on the overlay with a colour other than c, has at
    least 3 cells of its 3x3 neighbourhood set on the overlay with a colour
    other than c, and the thinning sample is not below 0.1. When it does, every
    cell of the neighbourhood that is unset becomes c and no other pixel
    changes; when it does not, the overlay is left as it is. *)
Theorem glow_propagation_step
  (src : rand.Source) (layer : image.RGBA) (gradient : list color.RGBA)
  (colorIndex : Z) (c : color.RGBA) (y x : Z) (e : image.RGBA) (n : nat) :
  0 < colorIndex ->
  image.packed e -> image.RGBA_Rect e = image.Bounds layer ->
  let b := image.Bounds layer in
  let triggers :=
    negb (occupied layer x y) && setOther e c x y
    && (3 <=? otherColorCount b c e x y)
    && negb (glowThinned (rand.Float64_at src n)) in
  exists e' n',
    glowPixel src layer gradient colorIndex c y x e n = Some (e', n')
    /\ if triggers
       then forall x' y',
              image.RGBA_At e' x' y'
              = if near b x y x' y' && (alphaOf (image.RGBA_At e x' y') =? 0)
                then c else image.RGBA_At e x' y'
       else e' = e.
Proof.
  intros Hk Hp Hr b triggers. subst triggers. unfold glowPixel, occupied.
  fold b.
  destruct (colorIndex =? 0) eqn:E0; [lia|].
  destruct (alphaOf (image.RGBA_At layer x y) =? 0) eqn:Ea; simpl;
    [|exists e, n; split; reflexivity].
  unfold setOther.
  destruct (alphaOf (image.RGBA_At e x y) =? 0) eqn:Ee; simpl;
    [exists e, n; split; reflexivity|].
  destruct (bool_decide (image.RGBA_At e x y = c)) eqn:Ec; simpl;
    [exists e, n; split; reflexivity|].
  rewrite countOtherColor_spec. unfold minNeighbors, bind at 1.
  destruct (Z.ltb_spec (otherColorCount b c e x y) 3) as [Hlt|Hge].
  - destruct (Z.leb_spec 3 (otherColorCount b c e x y)); [lia|]. simpl.
    exists e, n. split; reflexivity.
  - destruct (Z.leb_spec 3 (otherColorCount b c e x y)); [|lia]. simpl.
    unfold bind, Float64, ret, glowThinned.
    destruct (PrimFloat.ltb (rand.Float64_at src n) _); simpl.
    + exists e, (S n). split; reflexivity.
    + exists (glowFill b c x y e), (S n). split; [reflexivity|].
      apply glowFill_spec; assumption.
Qed.

(** The step at the corner of the sample dot, after the seed pass has set
    the eight pixels around the centre to red: it triggers, and the centre,
    the one unset cell of the corner's neighbourhood, becomes yellow. *)
Lemma glow_propagation_step_witness :
  let e := sample.picture 3 3
             [sample.red; sample.red; sample.red;
              sample.red; sample.none; sample.red;
              sample.red; sample.red; sample.red] in
  exists e' n',
    glowPixel (sample.mock 1 0) sample.dot [] 1 sample.yellow 0 0 e 0%nat
      = Some (e', n')
    /\ image.RGBA_At e' 1 1 = sample.yellow
    /\ image.RGBA_At e' 0 1 = sample.red.
Proof.
  intros e.
  destruct (glow_propagation_step (sample.mock 1 0) sample.dot [] 1
              sample.yellow 0 0 e 0%nat) as (e' & n' & Hrun & Hfill);
    [lia | split; reflexivity | reflexivity |].
  exists e', n'. split; [exact Hrun|].
  split; [exact (Hfill 1 1) | exact (Hfill 0 1)].
Defined.

(** A loop whose body changes nothing changes nothing. *)
Lemma foldM_fixed {T S} (body : T -> S -> M S) l s n :
  (forall a, a ∈ l -> body a s n = Some (s, n)) ->
  foldM body l s n = Some (s, n).
Proof.
  induction l as [|a l IH]; intros Hbody; simpl; [reflexivity|].
  unfold bind. rewrite (Hbody a) by left.
  apply IH. intros a' Ha'. apply Hbody. right. exact Ha'.
Qed.

Section GlowTransparent.

Variable src : rand.Source.
Variable layer : image.RGBA.
Hypothesis layer_transparent : forall x y, occupied layer x y = false.

Lemma layer_alpha x y : (alphaOf (image.RGBA_At layer x y) =? 0) = true.
Proof.
  specialize (layer_transparent x y). unfold occupied in layer_transparent.
  destruct (_ =? 0); [reflexivity|discriminate].
Qed.

Lemma glowPixel_transparent gradient colorIndex c y x e n :
  transparent e ->
  glowPixel src layer gradient colorIndex c y x e n = Some (e, n).
Proof.
  intros He. unfold glowPixel. rewrite layer_alpha, (He x y), alphaOf_zero.
  simpl. destruct (colorIndex =? 0); reflexivity.
Qed.

Lemma glowPasses_transparent gradient e n :
  transparent e -> glowPasses src layer gradient e n = Some (e, n).
Proof.
  intros He. unfold glowPasses.
  apply foldM_fixed. intros [colorIndex c] _.
  apply foldM_fixed. intros y _.
  apply foldM_fixed. intros x _.
  apply glowPixel_transparent, He.
Qed.

End GlowTransparent.

Lemma blank_transparent x y : occupied sample.blank x y = false.
Proof.
  unfold occupied.
  rewrite (NewRGBA_At (image.Rect 0 0 2 2) sample.blank) by reflexivity.
  reflexivity.
Qed.

(** C9. On a layer with no occupied pixel [ApplyGlowEffect] returns an
    overlay with no pixel set (and draws no random sample): whatever buffer it
    returns is fully transparent, and on well-formed bounds it returns one. *)
Theorem glow_of_transparent_layer
  (src : rand.Source) (layer : image.RGBA) (colorA colorB : color.RGBA)
  (n : nat) :
  (forall x y, occupied layer x y = false) ->
  (forall e n',
     ApplyGlowEffect src layer colorA colorB n = Some (e, n') ->
     transparent e /\ image.Bounds e = image.Bounds layer /\ n' = n)
  /\ (wellFormed (image.Bounds layer) ->
      exists e, ApplyGlowEffect src layer colorA colorB n = Some (e, n)).
Proof.
  intros Hlayer.
  assert (Hrun : forall e0 g,
            image.NewRGBA (image.Bounds layer) = Some e0 ->
            buildGradient colorA colorB 3 = Some g ->
            ApplyGlowEffect src layer colorA colorB n = Some (e0, n)).
  { intros e0 g He0 Hg. unfold ApplyGlowEffect. rewrite He0, Hg.
    unfold orPanic, bind, ret.
    apply glowPasses_transparent; [exact Hlayer|].
    intros x y. eapply NewRGBA_At, He0. }
  split.
  - intros e n' H. pose proof H as H'. unfold ApplyGlowEffect in H'.
    apply bind_Some in H' as (e0 & n0 & He0 & H').
    apply orPanic_Some in He0 as [He0 ->].
    apply bind_Some in H' as (g & n1 & Hg & _).
    apply orPanic_Some in Hg as [Hg ->].
    rewrite (Hrun e0 g He0 Hg) in H. injection H as <- <-.
    split; [intros x y; eapply NewRGBA_At, He0|].
    split; [eapply NewRGBA_Rect, He0|reflexivity].
  - intros [Hx Hy].
    destruct (NewRGBA_is_Some _ Hx Hy) as [e0 He0].
    destruct (buildGradient_is_Some colorA colorB 3) as [g Hg]; [lia|].
    exists e0. eapply Hrun; eassumption.
Qed.

(** The glow of the sample blank image is blank. *)
Lemma glow_of_transparent_layer_witness :
  exists e,
    ApplyGlowEffect (sample.mock 0 0) sample.blank sample.red sample.yellow
      0%nat = Some (e, 0%nat)
    /\ transparent e.
Proof.
  destruct (glow_of_transparent_layer (sample.mock 0 0) sample.blank
              sample.red sample.yellow 0%nat blank_transparent)
    as [Hclear Htotal].
  destruct Htotal as [e Hrun]; [split; vm_compute; discriminate|].
  exists e. split; [exact Hrun|]. exact (proj1 (Hclear e 0%nat Hrun)).
Defined.

(** ** The corrosion engine *)

Lemma boolAt_Some (s : list bool) i v :
  boolAt s i = Some v <-> 0 <= i /\ s !! Z.to_nat i = Some v.
Proof.
  unfold boolAt. destruct (Z.ltb_spec i 0); split.
  - discriminate.
  - intros [? _]. lia.
  - auto.
  - intros [_ H']. exact H'.
Qed.

Lemma boolSet_Some (s s' : list bool) i v :
  boolSet s i v = Some s' <->
  0 <= i < Z.of_nat (length s) /\ s' = <[Z.to_nat i := v]> s.
Proof.
  unfold boolSet.
  destruct (Z.ltb_spec i 0), (Z.leb_spec (Z.of_nat (length s)) i); simpl;
    split; try discriminate; try (intros [? _]; lia).
  - intros [= <-]. split; [lia|reflexivity].
  - intros [_ ->]. reflexivity.
Qed.

Lemma boolSet_length (s s' : list bool) i v :
  boolSet s i v = Some s' -> length s' = length s.
Proof. intros [_ ->]%boolSet_Some. apply length_insert. Qed.

Lemma boolAt_set (s : list bool) i j v :
  0 <= i -> boolAt (<[Z.to_nat i := v]> s) j = Some true ->
  (j = i /\ v = true) \/ boolAt s j = Some true.
Proof.
  intros Hi [Hj Hl]%boolAt_Some.
  destruct (decide (i = j)) as [->|Hne].
  - apply list_lookup_insert_Some in Hl as [(_ & -> & _)|[Hne _]]; [auto|lia].
  - right. apply boolAt_Some. split; [exact Hj|].
    rewrite list_lookup_insert_ne in Hl by lia. exact Hl.
Qed.

Section Corrosion.

Variable src : rand.Source.
Variable layer : image.RGBA.

Let bounds := image.Bounds layer.
Let dx := image.Dx bounds.
Let dy := image.Dy bounds.

(** Inside the bounds the cell index determines the pixel. *)
Lemma cell_index_inj x y x' y' :
  image.Point_In x y bounds = true -> image.Point_In x' y' bounds = true ->
  y * dx + x = y' * dx + x' -> x = x' /\ y = y'.
Proof.
  intros H%Point_In_spec H'%Point_In_spec. unfold dx, image.Dx. intros Heq.
  assert (y = y') by nia. subst y'. split; [nia|reflexivity].
Qed.

Lemma occupied_inside x y :
  occupied layer x y = true -> image.Point_In x y bounds = true.
Proof.
  unfold occupied. destruct (image.Point_In x y bounds) eqn:E; [reflexivity|].
  rewrite RGBA_At_outside by exact E. discriminate.
Qed.

Lemma withinSilhouette_set grid x y :
  withinSilhouette layer grid -> occupied layer x y = true ->
  0 <= y * dx + x ->
  withinSilhouette layer (<[Z.to_nat (y * dx + x) := true]> grid).
Proof.
  intros Hg Hocc Hi x' y' Hin' Hat.
  apply boolAt_set in Hat as [[Heq _]|Hat]; [|exact (Hg x' y' Hin' Hat)|exact Hi].
  destruct (cell_index_inj x' y' x y Hin' (occupied_inside x y Hocc) Heq)
    as [-> ->].
  exact Hocc.
Qed.

Lemma withinSilhouette_empty k :
  withinSilhouette layer (replicate k false).
Proof.
  intros x y _ [_ H]%boolAt_Some.
  apply lookup_replicate in H as [? _]. discriminate.
Qed.

(** The seed loop marks cells of occupied pixels only. *)
Lemma seedLoop_within perm : forall cur numSeeds cur',
  withinSilhouette layer cur ->
  seedLoop layer perm cur numSeeds = Some cur' ->
  withinSilhouette layer cur' /\ length cur' = length cur.
Proof.
  induction perm as [|i rest IH]; intros cur numSeeds cur' Hg Hrun;
    simpl in Hrun.
  - injection Hrun as <-. split; [exact Hg|reflexivity].
  - fold bounds dx in Hrun.
    destruct (dx =? 0) eqn:Edx; [discriminate|].
    destruct (negb (alphaOf (image.RGBA_At layer (Z.rem i dx) (Z.quot i dx))
                      =? 0)) eqn:Eocc; simpl in Hrun.
    + destruct (boolSet cur i true) as [cur1|] eqn:Eset; [|discriminate].
      simpl in Hrun.
      apply boolSet_Some in Eset as [Hi ->].
      assert (Hin := occupied_inside _ _ Eocc).
      assert (Hdx : 0 < dx).
      { apply Point_In_spec in Hin. unfold dx, image.Dx. fold bounds. lia. }
      assert (Hidx : i = Z.quot i dx * dx + Z.rem i dx).
      { rewrite (Z.quot_rem' i dx) at 1. lia. }
      assert (Hg1 : withinSilhouette layer (<[Z.to_nat i := true]> cur)).
      { rewrite Hidx at 1.
        apply withinSilhouette_set; [exact Hg|exact Eocc|lia]. }
      destruct (numSeeds - 1 =? 0).
      * injection Hrun as <-. split; [exact Hg1|apply length_insert].
      * destruct (IH _ _ _ Hg1 Hrun) as [Hg' Hl'].
        split; [exact Hg'|]. rewrite Hl'. apply length_insert.
    + destruct (numSeeds =? 0).
      * injection Hrun as <-. split; [exact Hg|reflexivity].
      * exact (IH _ _ _ Hg Hrun).
Qed.

Lemma corrodeCell_within prev y x cur n cur' n' :
  withinSilhouette layer cur ->
  corrodeCell src layer prev y x cur n = Some (cur', n') ->
  withinSilhouette layer cur' /\ length cur' = length cur.
Proof.
  intros Hg Hrun. unfold corrodeCell in Hrun. fold bounds dx in Hrun.
  destruct (alphaOf (image.RGBA_At layer x y) =? 0) eqn:Ea;
    [inv_run; auto|].
  assert (Hocc : occupied layer x y = true) by (unfold occupied; rewrite Ea; reflexivity).
  assert (Hset : forall cur1, boolSet cur (y * dx + x) true = Some cur1 ->
            withinSilhouette layer cur1 /\ length cur1 = length cur).
  { intros cur1 [Hi ->]%boolSet_Some.
    split; [apply withinSilhouette_set; [assumption..|lia]|apply length_insert]. }
  apply bind_Some in Hrun as (prevSet & n1 & _ & Hrun).
  destruct prevSet; [inv_run; auto|].
  apply bind_Some in Hrun as (numNeighbors & n2 & _ & Hrun).
  apply bind_Some in Hrun as (r & n3 & _ & Hrun).
  destruct (r <? numNeighbors); inv_run; auto.
Qed.

Lemma corrodeStep_within cur prev n cur' prev' n' :
  withinSilhouette layer cur -> withinSilhouette layer prev ->
  corrodeStep src layer (cur, prev) n = Some ((cur', prev'), n') ->
  (withinSilhouette layer cur' /\ withinSilhouette layer prev')
  /\ length cur' = length prev /\ length prev' = length cur.
Proof.
  intros Hc Hp Hrun. unfold corrodeStep in Hrun.
  apply bind_Some in Hrun as (cur1 & n1 & Hsweep & Hret).
  apply ret_Some in Hret as [[= -> ->] ->].
  apply (foldM_inv (fun g => withinSilhouette layer g /\ length g = length cur))
    in Hsweep as [Hg Hl]; [auto| |auto].
  intros y g1 n2 g2 n3 _ Hg1 Hrow.
  apply (foldM_inv (fun g => withinSilhouette layer g /\ length g = length cur))
    in Hrow; [exact Hrow| |exact Hg1].
  intros x g3 n4 g4 n5 _ [Hg3 Hl3] Hcell.
  destruct (corrodeCell_within _ _ _ _ _ _ _ Hg3 Hcell) as [? Hl4].
  split; [assumption|congruence].
Qed.

Lemma corrodeLoop_within numIterations cur prev n cur' prev' n' :
  withinSilhouette layer cur -> withinSilhouette layer prev ->
  corrodeLoop src layer numIterations (cur, prev) n = Some ((cur', prev'), n') ->
  withinSilhouette layer cur' /\ withinSilhouette layer prev'.
Proof.
  intros Hc Hp Hrun. unfold corrodeLoop in Hrun.
  apply (foldM_inv (fun st => withinSilhouette layer st.1
                              /\ withinSilhouette layer st.2))
    in Hrun; [exact Hrun| |split; assumption].
  intros _ [c1 p1] n1 [c2 p2] n2 _ [Hc1 Hp1] Hstep. simpl in *.
  destruct (corrodeStep_within _ _ _ _ _ _ Hc1 Hp1 Hstep) as [H _]. exact H.
Qed.

Lemma selectSeeds_within numSeeds n cur prev n' :
  selectSeeds src layer numSeeds n = Some ((cur, prev), n') ->
  withinSilhouette layer cur /\ withinSilhouette layer prev.
Proof.
  unfold selectSeeds, makeBools. fold bounds dx dy. intros Hrun.
  apply bind_Some in Hrun as (c0 & n0 & Hc0 & Hrun).
  apply orPanic_Some in Hc0 as [Hc0 ->].
  apply bind_Some in Hrun as (p0 & n1 & Hp0 & Hrun).
  apply orPanic_Some in Hp0 as [Hp0 ->].
  apply bind_Some in Hrun as (perm & n2 & _ & Hrun).
  apply bind_Some in Hrun as (c1 & n3 & Hc1 & Hrun).
  apply orPanic_Some in Hc1 as [Hc1 ->].
  apply ret_Some in Hrun as [[= -> ->] ->].
  destruct (dx * dy <? 0); [discriminate|].
  injection Hc0 as <-. injection Hp0 as <-.
  split; [|apply withinSilhouette_empty].
  eapply seedLoop_within in Hc1; [apply Hc1|apply withinSilhouette_empty].
Qed.

(** Painting from a grid that lies within the silhouette sets occupied
    pixels only. *)
Lemma paint_within prev color e n e' n' :
  withinSilhouette layer prev ->
  image.Stride e = image.Dx (image.RGBA_Rect e) ->
  (forall x y, alphaOf (image.RGBA_At e x y) <> 0 -> occupied layer x y = true) ->
  paint bounds prev color e n = Some (e', n') ->
  forall x y, alphaOf (image.RGBA_At e' x y) <> 0 -> occupied layer x y = true.
Proof.
  intros Hg Hs He Hrun.
  set (I := fun e : image.RGBA =>
         image.Stride e = image.Dx (image.RGBA_Rect e) /\
         forall x y, alphaOf (image.RGBA_At e x y) <> 0 ->
                     occupied layer x y = true).
  apply (foldM_inv I) in Hrun; [apply Hrun| |split; assumption].
  intros y e1 n1 e2 n2 Hy He1 Hrow.
  apply (foldM_inv I) in Hrow; [exact Hrow| |exact He1].
  intros x e3 n3 e4 n4 Hx [Hs3 He3] Hcell.
  unfold paintCell in Hcell. fold dx in Hcell.
  apply bind_Some in Hcell as (set & n5 & Hset & Hcell).
  destruct set; inv_run; [|split; assumption].
  split; [rewrite RGBA_Set_Stride, RGBA_Set_Rect; exact Hs3|].
  intros x' y' Ha.
  destruct (decide ((x, y) = (x', y'))) as [[= <- <-]|Hne].
  - apply Hg; [|assumption].
    apply elem_of_seqZ in Hx, Hy. apply Point_In_spec.
    unfold image.Dx, image.Dy in *. fold bounds. lia.
  - rewrite RGBA_At_Set_ne in Ha by assumption. exact (He3 x' y' Ha).
Qed.

Lemma ApplyCorrosion_within color numIterations numSeeds n e n' :
  ApplyCorrosion src layer color numIterations numSeeds n = Some (e, n') ->
  forall x y, alphaOf (image.RGBA_At e x y) <> 0 -> occupied layer x y = true.
Proof.
  unfold ApplyCorrosion. fold bounds. intros Hrun.
  apply bind_Some in Hrun as ([cur prev] & n1 & Hseed & Hrun).
  apply bind_Some in Hrun as ([cur' prev'] & n2 & Hloop & Hrun).
  apply bind_Some in Hrun as (e0 & n3 & He0 & Hrun).
  apply orPanic_Some in He0 as [He0 ->].
  destruct (selectSeeds_within _ _ _ _ _ Hseed) as [Hc Hp].
  destruct (corrodeLoop_within _ _ _ _ _ _ _ Hc Hp Hloop) as [_ Hp'].
  eapply paint_within; [exact Hp'| | |exact Hrun].
  - apply (NewRGBA_packed _ _ He0).
  - intros x y. rewrite (NewRGBA_At _ _ x y He0). intros []. reflexivity.
Qed.

End Corrosion.

(** On a layer whose bounds are well formed and start at the origin, with a
    source whose permutations are permutations, the corrosion engine runs to
    the end. *)
Section CorrosionTotal.

Variable src : rand.Source.
Variable layer : image.RGBA.

Let bounds := image.Bounds layer.
Let dx := image.Dx bounds.
Let dy := image.Dy bounds.

Hypothesis origin : atOrigin bounds.
Hypothesis well_formed : wellFormed bounds.
Hypothesis perms : permutes src.

Let cells : nat := Z.to_nat (dx * dy).

Lemma inside_index x y :
  image.Point_In x y bounds = true -> 0 <= y * dx + x < dx * dy.
Proof.
  intros H%Point_In_spec. destruct origin as [Hx Hy].
  unfold dx, dy, image.Dx, image.Dy. nia.
Qed.

Lemma scanned_inside x y :
  y ∈ rowsDown bounds -> x ∈ columns bounds ->
  image.Point_In x y bounds = true.
Proof.
  intros Hy%elem_of_seqZ Hx%elem_of_seqZ. apply Point_In_spec.
  unfold image.Dx, image.Dy in *. lia.
Qed.

Lemma boolAt_total (s : list bool) i :
  length s = cells -> 0 <= i < dx * dy -> is_Some (boolAt s i).
Proof.
  intros Hl Hi. unfold boolAt. destruct (Z.ltb_spec i 0); [lia|].
  apply lookup_lt_is_Some_2. unfold cells in Hl. lia.
Qed.

Lemma boolSet_total (s : list bool) i v :
  length s = cells -> 0 <= i < dx * dy ->
  exists s', boolSet s i v = Some s' /\ length s' = cells.
Proof.
  intros Hl Hi.
  assert (Hset : boolSet s i v = Some (<[Z.to_nat i := v]> s)).
  { apply boolSet_Some. split; [|reflexivity]. unfold cells in Hl. lia. }
  assert (Hlen : length (<[Z.to_nat i := v]> s) = cells)
    by (rewrite length_insert; exact Hl).
  eauto.
Qed.

Lemma seedLoop_total perm : forall cur numSeeds,
  Forall (fun i => 0 <= i < dx * dy) perm -> length cur = cells ->
  is_Some (seedLoop layer perm cur numSeeds).
Proof.
  induction perm as [|i rest IH]; intros cur numSeeds Hperm Hl; simpl;
    [eauto|].
  apply Forall_cons in Hperm as [Hi Hrest]. fold bounds dx.
  destruct (Z.eqb_spec dx 0) as [Hz|_]; [rewrite Hz in Hi; lia|].
  destruct (negb _); simpl.
  - destruct (boolSet_total cur i true Hl Hi) as (cur1 & -> & Hl1). simpl.
    destruct (_ =? 0); [eauto|]. apply IH; assumption.
  - destruct (_ =? 0); [eauto|]. apply IH; assumption.
Qed.

Lemma countPrev_total prev x y :
  length prev = cells -> is_Some (countPrev bounds prev x y).
Proof.
  intros Hl. unfold countPrev. rewrite forNeighbors_neighborhood.
  assert (Hin : forall p, p ∈ neighborhood bounds x y ->
                  image.Point_In p.1 p.2 bounds = true).
  { intros [px py] Hp. eapply neighborhood_inside, Hp. }
  generalize 0 as k. induction (neighborhood bounds x y) as [|p l IH];
    intros k; simpl; [eauto|].
  fold dx.
  destruct (boolAt_total prev (p.2 * dx + p.1) Hl) as [v Hv].
  { apply inside_index, Hin. left. }
  rewrite Hv. simpl. apply IH. intros q Hq. apply Hin. right. exact Hq.
Qed.

Lemma corrodeCell_total prev y x cur n :
  image.Point_In x y bounds = true ->
  length prev = cells -> length cur = cells ->
  exists cur' n',
    corrodeCell src layer prev y x cur n = Some (cur', n')
    /\ length cur' = cells.
Proof.
  intros Hin Hp Hc. unfold corrodeCell. fold bounds dx.
  destruct (_ =? 0); [unfold ret; eauto|].
  pose proof (inside_index x y Hin) as Hi.
  destruct (boolAt_total prev _ Hp Hi) as [v Hv].
  destruct (boolSet_total cur _ true Hc Hi) as (cur1 & Hset & Hl1).
  destruct (countPrev_total prev x y Hp) as [k Hk].
  rewrite Hv, Hset, Hk. unfold orPanic, bind, ret, Intn.
  destruct v; [eauto|]. destruct (_ <? k); eauto.
Qed.

Lemma corrodeStep_total cur prev n :
  length cur = cells -> length prev = cells ->
  exists cur' prev' n',
    corrodeStep src layer (cur, prev) n = Some ((cur', prev'), n')
    /\ length cur' = cells /\ length prev' = cells.
Proof.
  intros Hc Hp. unfold corrodeStep. fold bounds.
  destruct (foldM_total (fun g : list bool => length g = cells)
              (fun y => foldM (corrodeCell src layer prev y) (columns bounds))
              (rowsDown bounds)) with (s := cur) (n := n)
    as (cur1 & n1 & Hrun & Hl1); [|exact Hc|].
  - intros y g n0 Hy Hg.
    apply (foldM_total (fun g : list bool => length g = cells)); [|exact Hg].
    intros x g' n0' Hx Hg'.
    apply corrodeCell_total; [apply scanned_inside|..]; assumption.
  - exists prev, cur1, n1. unfold bind. rewrite Hrun. auto.
Qed.

Lemma corrodeLoop_total numIterations cur prev n :
  length cur = cells -> length prev = cells ->
  exists cur' prev' n',
    corrodeLoop src layer numIterations (cur, prev) n
      = Some ((cur', prev'), n')
    /\ length cur' = cells /\ length prev' = cells.
Proof.
  intros Hc Hp. unfold corrodeLoop.
  destruct (foldM_total
              (fun st : list bool * list bool =>
                 length st.1 = cells /\ length st.2 = cells)
              (fun _ : Z => corrodeStep src layer)
              (seqZ 0 numIterations)) with (s := (cur, prev)) (n := n)
    as ([c p] & n1 & Hrun & Hc1 & Hp1); [|split; assumption|].
  - intros _ [c p] n0 _ [Hc0 Hp0].
    destruct (corrodeStep_total c p n0 Hc0 Hp0) as (c' & p' & n' & H & ? & ?).
    exists (c', p'), n'. auto.
  - exists c, p, n1. auto.
Qed.

Lemma selectSeeds_total numSeeds n :
  exists cur prev n',
    selectSeeds src layer numSeeds n = Some ((cur, prev), n')
    /\ length cur = cells /\ length prev = cells.
Proof.
  unfold selectSeeds, makeBools, Perm. fold bounds dx dy.
  destruct well_formed as [Hx Hy]. fold dx dy in Hx, Hy.
  destruct (Z.ltb_spec (dx * dy) 0) as [|_]; [nia|].
  unfold orPanic, bind at 1 2 3, ret.
  destruct (seedLoop_total (rand.Perm_at src n (dx * dy))
              (replicate (Z.to_nat (dx * dy)) false) numSeeds) as [cur Hcur].
  - rewrite Forall_forall. intros i Hi.
    rewrite (perms n (dx * dy)) in Hi. apply elem_of_seqZ in Hi. lia.
  - apply length_replicate.
  - exists cur, (replicate (Z.to_nat (dx * dy)) false), (S n).
    unfold bind. rewrite Hcur. simpl. split; [reflexivity|].
    split; [|apply length_replicate].
    apply seedLoop_within in Hcur as [_ ->];
      [apply length_replicate|apply withinSilhouette_empty].
Qed.

Lemma paint_total prev color e n :
  length prev = cells -> is_Some (paint bounds prev color e n).
Proof.
  intros Hp. unfold paint.
  destruct (foldM_total (fun _ : image.RGBA => True)
              (fun y => foldM (paintCell bounds prev color y)
                              (columns bounds))
              (rowsDown bounds)) with (s := e) (n := n)
    as (e' & n' & Hrun & _); [|exact I|eauto].
  intros y e1 n1 Hy _.
  apply (foldM_total (fun _ : image.RGBA => True)); [|exact I].
  intros x e2 n2 Hx _. unfold paintCell. fold dx.
  destruct (boolAt_total prev (y * dx + x) Hp) as [v Hv].
  { apply inside_index, scanned_inside; assumption. }
  rewrite Hv. unfold orPanic, bind, ret. destruct v; eauto.
Qed.

Lemma ApplyCorrosion_total color numIterations numSeeds n :
  exists e n',
    ApplyCorrosion src layer color numIterations numSeeds n = Some (e, n').
Proof.
  unfold ApplyCorrosion. fold bounds.
  destruct (selectSeeds_total numSeeds n) as (cur & prev & n1 & Hs & Hc & Hp).
  destruct (corrodeLoop_total numIterations cur prev n1 Hc Hp)
    as (cur' & prev' & n2 & Hl & Hc' & Hp').
  destruct well_formed as [Hx Hy].
  destruct (NewRGBA_is_Some bounds Hx Hy) as [e0 He0].
  destruct (paint_total prev' color e0 n2 Hp') as [[e n'] He].
  exists e, n'. unfold bind. rewrite Hs, Hl, He0. simpl. exact He.
Qed.

End CorrosionTotal.

Lemma mock_permutes f k : permutes (sample.mock f k).
Proof. intros n m. reflexivity. Qed.

(** C2. Whatever the layer, the colour, the iteration count and the seed
    count, every pixel that is set (alpha not 0) in a buffer [ApplyCorrosion]
    returns is occupied on the layer; and the call does return a buffer when
    the layer's bounds are well formed and start at the origin and the
    source's permutations are permutations. *)
Theorem corrosion_within_silhouette
  (src : rand.Source) (layer : image.RGBA) (color : color.RGBA)
  (numIterations numSeeds : Z) (n : nat) :
  (forall e n',
     ApplyCorrosion src layer color numIterations numSeeds n = Some (e, n') ->
     forall x y, alphaOf (image.RGBA_At e x y) <> 0 ->
                 occupied layer x y = true)
  /\ (atOrigin (image.Bounds layer) -> wellFormed (image.Bounds layer) ->
      permutes src ->
      exists e n',
        ApplyCorrosion src layer color numIterations numSeeds n
          = Some (e, n')).
Proof.
  split.
  - intros e n'. apply ApplyCorrosion_within.
  - intros. apply ApplyCorrosion_total; assumption.
Qed.

(** Two iterations from one seed on the sample pixel: the buffer returned
    is set on occupied pixels only. *)
Lemma corrosion_within_silhouette_witness :
  exists e n',
    ApplyCorrosion (sample.mock 1 0) sample.pixel sample.yellow 2 1 0%nat
      = Some (e, n')
    /\ forall x y, alphaOf (image.RGBA_At e x y) <> 0 ->
                   occupied sample.pixel x y = true.
Proof.
  destruct (corrosion_within_silhouette (sample.mock 1 0) sample.pixel
              sample.yellow 2 1 0%nat) as [Hwithin Htotal].
  destruct Htotal as (e & n' & Hrun);
    [split; reflexivity | split; vm_compute; discriminate
    | apply mock_permutes |].
  exists e, n'. split; [exact Hrun|]. exact (Hwithin e n' Hrun).
Defined.

(** With no iteration the grid painted is the untouched previous grid. *)
Lemma paint_nothing bounds k color e n e' n' :
  paint bounds (replicate k false) color e n = Some (e', n') -> e' = e.
Proof.
  intros Hrun. unfold paint in Hrun.
  apply (foldM_inv (fun e1 => e1 = e)) in Hrun; [exact Hrun| |reflexivity].
  intros y e1 n1 e2 n2 _ -> Hrow.
  apply (foldM_inv (fun e1 => e1 = e)) in Hrow; [exact Hrow| |reflexivity].
  intros x e3 n3 e4 n4 _ -> Hcell. unfold paintCell in Hcell.
  apply bind_Some in Hcell as (set & n5 & Hset & Hcell).
  apply orPanic_Some in Hset as [Hset ->].
  unfold boolAt in Hset. destruct (_ <? 0); [discriminate|].
  apply lookup_replicate in Hset as [-> _]. inv_run. reflexivity.
Qed.

(** X22. With [numIterations = 0] every buffer [ApplyCorrosion] returns is
    fully transparent, whatever the layer, the colour and the seed count: the
    seeds are written into the current grid, the buffer is painted from the
    previous grid, and no iteration has swapped them. The call returns a buffer
    when the layer's bounds are well formed and start at the origin and the
    source's permutations are permutations. *)
Theorem corrosion_without_iterations
  (src : rand.Source) (layer : image.RGBA) (color : color.RGBA)
  (numSeeds : Z) (n : nat) :
  (forall e n',
     ApplyCorrosion src layer color 0 numSeeds n = Some (e, n') ->
     transparent e /\ image.Bounds e = image.Bounds layer)
  /\ (atOrigin (image.Bounds layer) -> wellFormed (image.Bounds layer) ->
      permutes src ->
      exists e n',
        ApplyCorrosion src layer color 0 numSeeds n = Some (e, n')).
Proof.
  split; [|intros; apply ApplyCorrosion_total; assumption].
  intros e n' Hrun. unfold ApplyCorrosion in Hrun.
  apply bind_Some in Hrun as ([cur prev] & n1 & Hseed & Hrun).
  apply bind_Some in Hrun as ([cur' prev'] & n2 & Hloop & Hrun).
  apply bind_Some in Hrun as (e0 & n3 & He0 & Hrun).
  apply orPanic_Some in He0 as [He0 ->].
  unfold corrodeLoop in Hloop. simpl in Hloop.
  apply ret_Some in Hloop as [[= -> ->] ->].
  unfold selectSeeds, makeBools in Hseed.
  apply bind_Some in Hseed as (c0 & n4 & _ & Hseed).
  apply bind_Some in Hseed as (p0 & n5 & Hp0 & Hseed).
  apply orPanic_Some in Hp0 as [Hp0 ->].
  apply bind_Some in Hseed as (perm & n6 & _ & Hseed).
  apply bind_Some in Hseed as (c1 & n7 & _ & Hseed).
  apply ret_Some in Hseed as [[= -> ->] ->].
  destruct (_ <? 0); [discriminate|]. injection Hp0 as <-.
  apply paint_nothing in Hrun as ->.
  split; [intros x y; eapply NewRGBA_At, He0 | eapply NewRGBA_Rect, He0].
Qed.

(** Zero iterations from three seeds on the sample pixel. *)
Lemma corrosion_without_iterations_witness :
  exists e n',
    ApplyCorrosion (sample.mock 1 0) sample.pixel sample.yellow 0 3 0%nat
      = Some (e, n')
    /\ transparent e.
Proof.
  destruct (corrosion_without_iterations (sample.mock 1 0) sample.pixel
              sample.yellow 3 0%nat) as [Hclear Htotal].
  destruct Htotal as (e & n' & Hrun);
    [split; reflexivity | split; vm_compute; discriminate
    | apply mock_permutes |].
  exists e, n'. split; [exact Hrun|]. exact (proj1 (Hclear e n' Hrun)).
Defined.

(** C10. With [numIterations = 0] and a layer whose bounds do not start at
    the origin [ApplyCorrosion] returns no buffer: on the 1 x 1 layer at
    (1, 0) the paint loop reads the previous grid at y * width + x = 1,
    outside the one cell of the grid, and the call panics. The loops run
    from the corner of the bounds, as in the two other engines, but the cell
    index leaves the corner out. *)
Theorem corrosion_without_iterations_off_origin :
  occupied sample.shifted 1 0 = true
  /\ ApplyCorrosion (sample.mock 1 0) sample.shifted sample.yellow 0 1 0%nat
     = None.
Proof. split; vm_compute; reflexivity. Qed.

(** * Further properties *)

(** ** Loops that set pixels *)

Lemma foldl_map {S T U} (g : S -> U -> S) (h : T -> U) (l : list T) (s : S) :
  foldl g s (map h l) = foldl (fun s a => g s (h a)) s l.
Proof. revert s. induction l as [|a l IH]; intros s; simpl; [|rewrite IH]; reflexivity. Qed.

(** Two nested loops are one loop over the pairs, outer index first. *)
Lemma foldl_prod {S T U} (f : S -> T -> U -> S) (la : list T) (lb : list U)
  (s : S) :
  foldl (fun s a => foldl (fun s b => f s a b) s lb) s la
  = foldl (fun s p => f s p.1 p.2) s (list_prod la lb).
Proof.
  revert s. induction la as [|a la IH]; intros s; simpl; [reflexivity|].
  rewrite foldl_app, foldl_map. simpl. apply IH.
Qed.

Lemma elem_of_list_prod {T U} (la : list T) (lb : list U) a b :
  (a, b) ∈ list_prod la lb <-> a ∈ la /\ b ∈ lb.
Proof. rewrite !list_elem_of_In. apply in_prod_iff. Qed.

(** A loop over cells that sets the cells satisfying [cond] to [val], both
    read off the coordinates alone: afterwards those cells of the list that
    lie inside the buffer carry [val], and nothing else has changed. *)
Lemma set_cells (cond : Z -> Z -> bool) (val : Z -> Z -> color.RGBA)
  (l : list (Z * Z)) (e : image.RGBA) :
  image.packed e ->
  let e' := foldl (fun e p =>
              if cond p.1 p.2 then image.RGBA_Set e p.1 p.2 (val p.1 p.2)
              else e) e l in
  image.packed e' /\ image.RGBA_Rect e' = image.RGBA_Rect e /\
  forall x y,
    image.RGBA_At e' x y
    = if bool_decide ((x, y) ∈ l) && cond x y
         && image.Point_In x y (image.RGBA_Rect e)
      then val x y else image.RGBA_At e x y.
Proof.
  revert e. induction l as [|[qx qy] l IH]; intros e Hp; cbn [foldl fst snd].
  - split; [exact Hp|]. split; [reflexivity|]. intros x y.
    rewrite (bool_decide_eq_false_2 ((x, y) ∈ [])) by apply not_elem_of_nil.
    reflexivity.
  - set (e1 := if cond qx qy then image.RGBA_Set e qx qy (val qx qy) else e).
    assert (Hp1 : image.packed e1)
      by (unfold e1; destruct (cond qx qy); [apply RGBA_Set_packed|]; exact Hp).
    assert (Hr1 : image.RGBA_Rect e1 = image.RGBA_Rect e)
      by (unfold e1; destruct (cond qx qy); [apply RGBA_Set_Rect|reflexivity]).
    destruct (IH e1 Hp1) as (Hp' & Hr' & Hat).
    split; [exact Hp'|]. split; [congruence|]. intros x y.
    rewrite Hat, Hr1.
    destruct (decide ((x, y) = (qx, qy))) as [[= -> ->]|Hne].
    + rewrite (bool_decide_eq_true_2 ((qx, qy) ∈ (qx, qy) :: l)) by left.
      unfold e1. destruct (cond qx qy) eqn:Ec; simpl.
      * destruct (image.Point_In qx qy (image.RGBA_Rect e)) eqn:Hin.
        -- rewrite RGBA_At_Set_eq by assumption.
           rewrite andb_true_r. destruct (bool_decide _); reflexivity.
        -- rewrite andb_false_r. unfold image.RGBA_Set. rewrite Hin.
           reflexivity.
      * rewrite andb_false_r. reflexivity.
    + assert (image.RGBA_At e1 x y = image.RGBA_At e x y) as ->.
      { unfold e1. destruct (cond qx qy); [|reflexivity].
        apply RGBA_At_Set_ne; [apply Hp|congruence]. }
      assert (bool_decide ((x, y) ∈ (qx, qy) :: l) = bool_decide ((x, y) ∈ l))
        as ->; [|reflexivity].
      apply bool_decide_ext. rewrite elem_of_cons. tauto.
Qed.

(** ** ReplaceColor *)

Lemma bool_decide_as (P : Prop) `{Decision P} (b : bool) :
  (P <-> b = true) -> bool_decide P = b.
Proof.
  intros HP. destruct b.
  - apply bool_decide_eq_true_2, HP. reflexivity.
  - apply bool_decide_eq_false_2. intros HP'%HP. discriminate.
Qed.

Lemma scanned_cells (r : image.Rectangle) x y :
  (x, y) ∈ map (fun p : Z * Z => (p.2, p.1)) (list_prod (rowsDown r) (columns r))
  <-> image.Point_In x y r = true.
Proof.
  rewrite list_elem_of_fmap, Point_In_spec. split.
  - intros ([y' x'] & [= -> ->] & H). apply elem_of_list_prod in H as [Hy Hx].
    apply elem_of_seqZ in Hy, Hx. unfold image.Dx, image.Dy in *. lia.
  - intros [Hx Hy]. exists (y, x). split; [reflexivity|].
    apply elem_of_list_prod. unfold rowsDown, columns.
    rewrite !elem_of_seqZ. unfold image.Dx, image.Dy. lia.
Qed.

Lemma drawSrc_spec (dst : image.RGBA) (src : Image) :
  image.packed dst ->
  let dst' := drawSrc dst (image.RGBA_Rect dst) src in
  image.packed dst' /\ image.RGBA_Rect dst' = image.RGBA_Rect dst /\
  forall x y,
    image.RGBA_At dst' x y
    = if image.Point_In x y (image.RGBA_Rect dst)
      then rgbaModel (Image_At src x y)
      else image.RGBA_At dst x y.
Proof.
  intros Hp. unfold drawSrc.
  rewrite (foldl_prod (fun dst y x =>
             image.RGBA_Set dst x y (rgbaModel (Image_At src x y)))).
  rewrite <- (foldl_map
    (fun dst (q : Z * Z) =>
       image.RGBA_Set dst q.1 q.2 (rgbaModel (Image_At src q.1 q.2)))
    (fun p : Z * Z => (p.2, p.1))).
  destruct (set_cells (fun _ _ => true)
              (fun x y => rgbaModel (Image_At src x y))
              (map (fun p : Z * Z => (p.2, p.1))
                   (list_prod (rowsDown (image.RGBA_Rect dst))
                              (columns (image.RGBA_Rect dst)))) dst Hp)
    as (Hp' & Hr' & Hat).
  split; [exact Hp'|]. split; [exact Hr'|]. intros x y. rewrite Hat.
  destruct (image.Point_In x y (image.RGBA_Rect dst)) eqn:Hin.
  - rewrite bool_decide_eq_true_2 by (apply scanned_cells, Hin). reflexivity.
  - rewrite andb_false_r. reflexivity.
Qed.

(** X1. [ReplaceColor] on an image with well-formed bounds, whose pixels
    are [color.RGBA] or [color.NRGBA] values, returns a packed buffer of the
    same bounds. Inside the bounds a pixel is the conversion of [to] where
    [img.At] reports a value [==] to [from] (same dynamic type, same fields) at
    a coordinate among the 0 .. Dx-1, 0 .. Dy-1 that the loops visit, and
    the conversion of the image's pixel everywhere else. *)
Theorem ReplaceColor_pixels (img : Image) (from to : Color) :
  wellFormed (Image_Bounds img) ->
  exists newImg,
    ReplaceColor img from to = Some newImg
    /\ image.packed newImg
    /\ image.Bounds newImg = Image_Bounds img
    /\ forall x y,
         image.RGBA_At newImg x y
         = if image.Point_In x y (Image_Bounds img)
           then if inZeroBox (Image_Bounds img) x y
                   && bool_decide (Image_At img x y = from)
                then rgbaModel to
                else rgbaModel (Image_At img x y)
           else color.zero.
Proof.
  intros [Hx Hy]. unfold ReplaceColor.
  destruct (NewRGBA_is_Some _ Hx Hy) as [e0 He0]. rewrite He0. simpl.
  pose proof (NewRGBA_packed _ _ He0) as Hp0.
  pose proof (NewRGBA_Rect _ _ He0) as Hr0.
  destruct (drawSrc_spec e0 img Hp0) as (Hp1 & Hr1 & Hat1).
  rewrite Hr0 in Hp1, Hr1, Hat1.
  set (e1 := drawSrc e0 (Image_Bounds img) img) in *.
  rewrite (foldl_prod (fun newImg x y =>
             if bool_decide (Image_At img x y = from)
             then image.RGBA_Set newImg x y (rgbaModel to) else newImg)).
  destruct (set_cells (fun x y => bool_decide (Image_At img x y = from))
              (fun _ _ => rgbaModel to)
              (list_prod (seqZ 0 (image.Dx (Image_Bounds img)))
                         (seqZ 0 (image.Dy (Image_Bounds img)))) e1 Hp1)
    as (Hp2 & Hr2 & Hat2).
  eexists. split; [reflexivity|]. split; [exact Hp2|].
  split; [unfold image.Bounds in *; congruence|]. intros x y.
  rewrite Hat2, Hat1, Hr1, (NewRGBA_At _ _ x y He0).
  assert (bool_decide ((x, y) ∈ list_prod (seqZ 0 (image.Dx (Image_Bounds img)))
                                  (seqZ 0 (image.Dy (Image_Bounds img))))
          = inZeroBox (Image_Bounds img) x y) as ->.
  { unfold inZeroBox. apply bool_decide_as.
    rewrite elem_of_list_prod, !elem_of_seqZ, !andb_true_iff, !Z.leb_le, !Z.ltb_lt.
    lia. }
  destruct (image.Point_In x y (Image_Bounds img)) eqn:Hin.
  - rewrite andb_true_r. reflexivity.
  - rewrite andb_false_r. reflexivity.
Qed.

(** Red for yellow in an [*image.NRGBA] whose pixel is opaque red, with
    [from] given as a [color.RGBA]: the pixel is no [color.RGBA], nothing is
    replaced, and the copy is red. *)
Lemma ReplaceColor_pixels_witness :
  exists newImg,
    ReplaceColor nrgbaPixel (Color_RGBA sample.red) (Color_RGBA sample.yellow)
      = Some newImg
    /\ image.RGBA_At newImg 0 0 = sample.red.
Proof.
  destruct (ReplaceColor_pixels nrgbaPixel (Color_RGBA sample.red)
              (Color_RGBA sample.yellow))
    as (newImg & Hrun & _ & _ & Hat); [split; vm_compute; discriminate|].
  exists newImg. split; [exact Hrun|]. exact (Hat 0 0).
Defined.

(** Two packed buffers over the same well-formed rectangle that agree on
    every pixel inside it are the same buffer. *)
Lemma packed_ext (a b : image.RGBA) :
  image.packed a -> image.packed b ->
  image.RGBA_Rect a = image.RGBA_Rect b -> wellFormed (image.RGBA_Rect a) ->
  (forall x y, image.Point_In x y (image.RGBA_Rect a) = true ->
               image.RGBA_At a x y = image.RGBA_At b x y) ->
  a = b.
Proof.
  destruct a as [pa sa ra], b as [pb sb rb].
  intros [Hsa Hla] [Hsb Hlb] Hr [Hx Hy] Hat. simpl in *. subst rb sa sb.
  f_equal.
  apply list_eq. intros i.
  destruct (decide (i < length pa)%nat) as [Hi|Hi].
  - set (w := image.Dx ra) in *. set (h := image.Dy ra) in *.
    assert (Hw : 0 < w) by nia.
    pose (x := image.X (image.Min ra) + Z.of_nat i mod w).
    pose (y := image.Y (image.Min ra) + Z.of_nat i / w).
    pose proof (Z.mod_pos_bound (Z.of_nat i) w Hw) as Hm.
    pose proof (Z.div_mod (Z.of_nat i) w ltac:(lia)) as Hdm.
    assert (Hd : 0 <= Z.of_nat i / w < h).
    { split; [apply Z.div_pos; lia|]. apply Z.div_lt_upper_bound; [lia|]. nia. }
    assert (Hin : image.Point_In x y ra = true).
    { apply Point_In_spec. unfold x, y, w, h, image.Dx, image.Dy in *. lia. }
    specialize (Hat x y Hin). unfold image.RGBA_At in Hat. simpl in Hat.
    rewrite Hin in Hat. unfold image.RGBA_PixOffset in Hat. simpl in Hat.
    replace (Z.to_nat ((y - image.Y (image.Min ra)) * w
                       + (x - image.X (image.Min ra)))) with i in Hat
      by (unfold x, y; nia).
    destruct (lookup_lt_is_Some_2 pa i Hi) as [ca Hca].
    destruct (lookup_lt_is_Some_2 pb i ltac:(lia)) as [cb Hcb].
    rewrite Hca, Hcb in Hat. simpl in Hat. rewrite Hca, Hcb. congruence.
  - rewrite !lookup_ge_None_2 by lia. reflexivity.
Qed.

(** X2. On an image whose pixels are all [color.RGBA] values, as those of
    an [*image.RGBA] are, and whose bounds are well formed and start at the
    origin, [ReplaceColor] replaces every pixel [==] to [from]: inside the
    bounds the result has the conversion of [to] where the image has
    [from] and the image's pixel elsewhere, and when the conversion of [to]
    is not [==] to [from] no pixel of the result is. *)
Theorem ReplaceColor_at_origin (img : Image) (from to : Color) :
  rgbaPixels img ->
  atOrigin (Image_Bounds img) -> wellFormed (Image_Bounds img) ->
  Color_RGBA (rgbaModel to) <> from ->
  exists newImg,
    ReplaceColor img from to = Some newImg
    /\ forall x y,
         image.Point_In x y (Image_Bounds img) = true ->
         Color_RGBA (image.RGBA_At newImg x y) <> from
         /\ Color_RGBA (image.RGBA_At newImg x y)
            = if bool_decide (Image_At img x y = from)
              then Color_RGBA (rgbaModel to)
              else Image_At img x y.
Proof.
  intros Hrgba [Ox Oy] Hwf Hne.
  destruct (ReplaceColor_pixels img from to Hwf) as (newImg & Hrun & _ & _ & Hat).
  exists newImg. split; [exact Hrun|]. intros x y Hin.
  assert (Hbox : inZeroBox (Image_Bounds img) x y = true).
  { apply Point_In_spec in Hin. unfold inZeroBox, image.Dx, image.Dy.
    rewrite !andb_true_iff, !Z.leb_le, !Z.ltb_lt. lia. }
  rewrite Hat, Hin, Hbox. simpl.
  destruct (bool_decide (Image_At img x y = from)) eqn:E.
  - split; [exact Hne|reflexivity].
  - apply bool_decide_eq_false in E.
    destruct (Hrgba x y) as [c Hc]. rewrite Hc in E |- *. simpl.
    split; [exact E|reflexivity].
Qed.

Lemma Image_of_RGBA_rgbaPixels (p : image.RGBA) : rgbaPixels (Image_of_RGBA p).
Proof. intros x y. eexists. reflexivity. Qed.

Lemma ReplaceColor_at_origin_witness :
  exists newImg,
    ReplaceColor (Image_of_RGBA sample.dot) (Color_RGBA sample.red)
      (Color_RGBA sample.yellow) = Some newImg
    /\ image.RGBA_At newImg 1 1 = sample.yellow
    /\ image.RGBA_At newImg 0 0 = sample.none.
Proof.
  destruct (ReplaceColor_at_origin (Image_of_RGBA sample.dot)
              (Color_RGBA sample.red) (Color_RGBA sample.yellow))
    as (newImg & Hrun & Hat);
    [ apply Image_of_RGBA_rgbaPixels | split; reflexivity
    | split; vm_compute; discriminate | discriminate |].
  exists newImg. split; [exact Hrun|].
  destruct (Hat 1 1 eq_refl) as [_ H1]. destruct (Hat 0 0 eq_refl) as [_ H0].
  simpl in H1, H0. injection H1 as H1. injection H0 as H0. auto.
Defined.

(** X3. On an image whose pixels are all [color.RGBA] values
    [ReplaceColor] is idempotent: replacing [from] by [to] in its own
    result, an [*image.RGBA], changes nothing, whatever the bounds of the
    image. *)
Theorem ReplaceColor_idempotent (img : Image) (newImg : image.RGBA)
  (from to : Color) :
  rgbaPixels img -> wellFormed (Image_Bounds img) ->
  ReplaceColor img from to = Some newImg ->
  ReplaceColor (Image_of_RGBA newImg) from to = Some newImg.
Proof.
  intros Hrgba Hwf Hrun.
  destruct (ReplaceColor_pixels img from to Hwf)
    as (r1 & Hrun1 & Hp1 & Hb1 & Hat1).
  rewrite Hrun in Hrun1. injection Hrun1 as <-.
  assert (Hwf1 : wellFormed (Image_Bounds (Image_of_RGBA newImg)))
    by (simpl; rewrite Hb1; exact Hwf).
  destruct (ReplaceColor_pixels (Image_of_RGBA newImg) from to Hwf1)
    as (r2 & Hrun2 & Hp2 & Hb2 & Hat2).
  rewrite Hrun2. f_equal. simpl in Hb2, Hat2. unfold image.Bounds in *.
  apply packed_ext; [exact Hp2|exact Hp1|exact Hb2|rewrite Hb2; exact Hwf1|].
  intros x y Hin. rewrite Hat2. rewrite Hb2 in Hin. rewrite Hin.
  destruct (inZeroBox (image.RGBA_Rect newImg) x y) eqn:Hbox; [|reflexivity].
  simpl. destruct (bool_decide (Color_RGBA (image.RGBA_At newImg x y) = from))
    eqn:E; [|reflexivity].
  apply bool_decide_eq_true in E. rewrite Hat1 in E |- *.
  rewrite Hb1 in Hin, Hbox. rewrite Hin, Hbox in *. simpl in *.
  destruct (bool_decide (Image_At img x y = from)) eqn:E'; [reflexivity|].
  apply bool_decide_eq_false in E'. destruct (Hrgba x y) as [c Hc].
  rewrite Hc in E, E'. simpl in E. contradiction.
Qed.

Lemma ReplaceColor_idempotent_witness :
  exists newImg,
    ReplaceColor (Image_of_RGBA sample.dot) (Color_RGBA sample.red)
      (Color_RGBA sample.yellow) = Some newImg
    /\ ReplaceColor (Image_of_RGBA newImg) (Color_RGBA sample.red)
         (Color_RGBA sample.yellow) = Some newImg.
Proof.
  eexists. split; [vm_compute; reflexivity|].
  apply (ReplaceColor_idempotent (Image_of_RGBA sample.dot));
    [ apply Image_of_RGBA_rgbaPixels | split; vm_compute; discriminate
    | vm_compute; reflexivity ].
Defined.

(** ** The spritesheet *)












(** X7. An image narrower than the tile: [New] returns a sheet, its
    [NumTiles] is 0, and [TileImage] panics on it whatever the index. *)
Theorem narrow_sheet (decode : list Byte.byte -> option image.RGBA)
  (imgData : list Byte.byte) (tileSize : Z) (img : image.RGBA) :
  decode imgData = Some img ->
  0 <= image.Dx (image.Bounds img) < tileSize ->
  exists s,
    New decode imgData tileSize = Returned s
    /\ s_image s = img
    /\ NumTiles s = 0
    /\ forall index, TileImage s index = None.
Proof.
  intros Hdecode Hdx. unfold New. rewrite Hdecode.
  destruct (Z.eqb_spec tileSize 0) as [->|_]; [lia|].
  eexists. split; [reflexivity|]. split; [reflexivity|].
  unfold NumTiles, TileImage. simpl.
  rewrite (Z.quot_small _ _ Hdx). split; reflexivity.
Qed.

Lemma narrow_sheet_witness :
  exists s,
    New (fun _ => Some sample.dot) [] 4 = Returned s
    /\ NumTiles s = 0 /\ TileImage s 0 = None.
Proof.
  destruct (narrow_sheet (fun _ => Some sample.dot) [] 4 sample.dot eq_refl)
    as (s & Hnew & _ & H0 & Hp);
    [vm_compute; split; [discriminate|reflexivity]|].
  exists s. split; [exact Hnew|]. split; [exact H0|exact (Hp 0)].
Defined.

(** ** More on the corrosion engine *)

(** A loop that ran to the end ran its body to the end at every element. *)
Lemma foldM_Some_elem {T S} (body : T -> S -> M S) l s n r :
  foldM body l s n = Some r ->
  forall a, a ∈ l -> exists s1 n1 r1, body a s1 n1 = Some r1.
Proof.
  revert s n. induction l as [|b l IH]; intros s n Hrun a Ha.
  - apply elem_of_nil in Ha. contradiction.
  - simpl in Hrun. destruct r as [s' n'].
    apply bind_Some in Hrun as (s1 & n1 & Hb & Hrest).
    apply elem_of_cons in Ha as [->|Ha]; [eauto|].
    eapply IH; eassumption.
Qed.

Lemma selectSeeds_lengths src layer numSeeds n cur prev n' :
  selectSeeds src layer numSeeds n = Some ((cur, prev), n') ->
  let cells := Z.to_nat (image.Dx (image.Bounds layer)
                         * image.Dy (image.Bounds layer)) in
  length cur = cells /\ prev = replicate cells false.
Proof.
  unfold selectSeeds, makeBools. intros Hrun.
  apply bind_Some in Hrun as (c0 & n0 & Hc0 & Hrun).
  apply orPanic_Some in Hc0 as [Hc0 ->].
  apply bind_Some in Hrun as (p0 & n1 & Hp0 & Hrun).
  apply orPanic_Some in Hp0 as [Hp0 ->].
  apply bind_Some in Hrun as (perm & n2 & _ & Hrun).
  apply bind_Some in Hrun as (c1 & n3 & Hc1 & Hrun).
  apply orPanic_Some in Hc1 as [Hc1 ->].
  apply ret_Some in Hrun as [[= -> ->] ->].
  destruct (_ <? 0); [discriminate|].
  injection Hc0 as <-. injection Hp0 as <-.
  apply seedLoop_within in Hc1 as [_ Hl]; [|apply withinSilhouette_empty].
  rewrite Hl, length_replicate. split; reflexivity.
Qed.

Lemma corrodeLoop_lengths src layer numIterations cur prev n cur' prev' n' k :
  withinSilhouette layer cur -> withinSilhouette layer prev ->
  length cur = k -> length prev = k ->
  corrodeLoop src layer numIterations (cur, prev) n = Some ((cur', prev'), n') ->
  length cur' = k /\ length prev' = k.
Proof.
  intros Hc Hp Hlc Hlp Hrun. unfold corrodeLoop in Hrun.
  apply (foldM_inv (fun st : list bool * list bool =>
           (withinSilhouette layer st.1 /\ withinSilhouette layer st.2)
           /\ length st.1 = k /\ length st.2 = k))
    in Hrun; [apply Hrun| |auto].
  intros _ [c1 p1] n1 [c2 p2] n2 _ [[Hc1 Hp1] [Hl1 Hl2]] Hstep. simpl in *.
  destruct (corrodeStep_within _ _ _ _ _ _ _ _ Hc1 Hp1 Hstep) as (Hw & Hl3 & Hl4).
  split; [exact Hw|]. split; congruence.
Qed.

(** X8. [ApplyCorrosion] panics on every layer with at least one pixel
    whose upper-left corner (MinX, MinY) does not satisfy
    MinY * Dx + MinX = 0: the cell index y*Dx + x of the first or of the last
    pixel is outside the two slices. In particular it panics on every
    non-empty layer with MinX >= 0 and MinY >= 0 that does not start at the
    origin, whatever the other arguments and the random source. *)
Theorem corrosion_panics_off_origin
  (src : rand.Source) (layer : image.RGBA) (color : color.RGBA)
  (numIterations numSeeds : Z) (n : nat) :
  let bounds := image.Bounds layer in
  0 < image.Dx bounds -> 0 < image.Dy bounds ->
  image.Y (image.Min bounds) * image.Dx bounds + image.X (image.Min bounds) <> 0 ->
  ApplyCorrosion src layer color numIterations numSeeds n = None.
Proof.
  intros bounds Hdx Hdy Hcorner.
  destruct (ApplyCorrosion src layer color numIterations numSeeds n)
    as [[e n']|] eqn:Hrun; [exfalso|reflexivity].
  unfold ApplyCorrosion in Hrun. fold bounds in Hrun.
  apply bind_Some in Hrun as ([cur prev] & n1 & Hseed & Hrun).
  apply bind_Some in Hrun as ([cur' prev'] & n2 & Hloop & Hrun).
  apply bind_Some in Hrun as (e0 & n3 & _ & Hrun).
  destruct (selectSeeds_within _ _ _ _ _ _ _ Hseed) as [Hc Hp].
  destruct (selectSeeds_lengths _ _ _ _ _ _ _ Hseed) as [Hlc ->].
  destruct (corrodeLoop_lengths _ _ _ _ _ _ _ _ _ _ Hc Hp Hlc
              (length_replicate _ _) Hloop) as [_ Hlp'].
  fold bounds in Hlp'.
  assert (Hcell : forall x y, image.Point_In x y bounds = true ->
            0 <= y * image.Dx bounds + x < image.Dx bounds * image.Dy bounds).
  { intros x y Hin%Point_In_spec.
    assert (Hy : y ∈ rowsDown bounds)
      by (apply elem_of_seqZ; unfold image.Dy; lia).
    assert (Hx : x ∈ columns bounds)
      by (apply elem_of_seqZ; unfold image.Dx; lia).
    destruct (foldM_Some_elem _ _ _ _ _ Hrun y Hy) as (e1 & n4 & [e2 n5] & Hrow).
    destruct (foldM_Some_elem _ _ _ _ _ Hrow x Hx) as (e3 & n6 & [e4 n7] & Hcell).
    unfold paintCell in Hcell.
    apply bind_Some in Hcell as (set & n8 & Hset & _).
    apply orPanic_Some in Hset as [Hset _].
    apply boolAt_Some in Hset as [H0 Hl%lookup_lt_Some]. lia. }
  pose proof (Hcell (image.X (image.Min bounds)) (image.Y (image.Min bounds))) as H1.
  pose proof (Hcell (image.X (image.Max bounds) - 1)
                    (image.Y (image.Max bounds) - 1)) as H2.
  rewrite Point_In_spec in H1, H2. unfold image.Dx, image.Dy in *. nia.
Qed.

(** The sample pixel shifted to (1, 0). *)
Lemma corrosion_panics_off_origin_witness :
  ApplyCorrosion (sample.mock 1 0) sample.shifted sample.yellow 1 1 0%nat = None.
Proof.
  apply (corrosion_panics_off_origin (sample.mock 1 0) sample.shifted);
    vm_compute; congruence.
Defined.

Lemma countSet_insert (grid : list bool) (i : nat) :
  grid !! i = Some false ->
  countSet (<[i := true]> grid) = countSet grid + 1.
Proof.
  intros Hi. unfold countSet.
  rewrite insert_take_drop by (eapply lookup_lt_Some, Hi).
  rewrite <- (take_drop_middle grid i false Hi) at 3.
  rewrite !filter_app, !filter_cons, !length_app. simpl.
  destruct (decide (true = true)) as [_|H]; [|contradiction].
  destruct (decide (false = true)) as [H|_]; [discriminate|].
  simpl. lia.
Qed.

Lemma seedableIn_cons layer i l :
  seedableIn layer (i :: l)
  = (if seedable layer i then 1 else 0) + seedableIn layer l.
Proof.
  unfold seedableIn. rewrite filter_cons.
  destruct (seedable layer i); destruct (decide _) as [H|H]; simpl;
    try lia; congruence.
Qed.

Lemma seedableIn_nonneg layer l : 0 <= seedableIn layer l.
Proof. unfold seedableIn. lia. Qed.

(** The seed loop on cells that are distinct, in range and not yet set. *)
Lemma seedLoop_count layer (l : list Z) : forall (cur : list bool) numSeeds,
  NoDup l ->
  (forall i, i ∈ l -> 0 <= i < Z.of_nat (length cur)
                      /\ cur !! Z.to_nat i = Some false) ->
  (l <> [] -> image.Dx (image.Bounds layer) <> 0) ->
  exists cur',
    seedLoop layer l cur numSeeds = Some cur'
    /\ countSet cur' = countSet cur + marked layer l numSeeds
    /\ forall j, cur' !! j = Some true ->
                 cur !! j = Some true
                 \/ exists i, i ∈ l /\ j = Z.to_nat i /\ seedable layer i = true.
Proof.
  induction l as [|i rest IH]; intros cur numSeeds Hnd Hl Hdx.
  - exists cur. split; [reflexivity|]. split; [|auto].
    unfold marked, seedableIn. simpl.
    destruct (Z.leb_spec 1 numSeeds), (numSeeds <? 0); lia.
  - apply NoDup_cons in Hnd as [Hi Hnd].
    destruct (Hl i) as [Hir Hif]; [left|].
    cbn [seedLoop].
    destruct (Z.eqb_spec (image.Dx (image.Bounds layer)) 0) as [Hz|_];
      [exfalso; apply Hdx; [discriminate|exact Hz]|].
    fold (occupied layer (Z.rem i (image.Dx (image.Bounds layer)))
                         (Z.quot i (image.Dx (image.Bounds layer)))).
    fold (seedable layer i).
    pose proof (seedableIn_nonneg layer rest) as Hnn.
    destruct (seedable layer i) eqn:Es; simpl.
    + assert (Hset : boolSet cur i true = Some (<[Z.to_nat i := true]> cur))
        by (apply boolSet_Some; split; [lia|reflexivity]).
      rewrite Hset. simpl.
      pose proof (countSet_insert cur (Z.to_nat i) Hif) as Hcnt.
      destruct (Z.eqb_spec (numSeeds - 1) 0) as [H1|H1].
      * eexists. split; [reflexivity|]. split.
        -- rewrite Hcnt. unfold marked. rewrite seedableIn_cons, Es.
           destruct (Z.leb_spec 1 numSeeds); lia.
        -- intros j Hj.
           destruct (decide (j = Z.to_nat i)) as [->|Hne];
             [right; exists i; split; [left|auto]|].
           rewrite list_lookup_insert_ne in Hj by congruence. auto.
      * destruct (IH (<[Z.to_nat i := true]> cur) (numSeeds - 1) Hnd)
          as (cur' & Hrun & Hc & Hm).
        -- intros k Hk. destruct (Hl k) as [Hkr Hkf]; [right; exact Hk|].
           rewrite length_insert. split; [exact Hkr|].
           rewrite list_lookup_insert_ne; [exact Hkf|].
           intros Heq. apply Hi. assert (k = i) as -> by lia. exact Hk.
        -- intros _. apply Hdx. discriminate.
        -- exists cur'. split; [exact Hrun|]. split.
           ++ rewrite Hc, Hcnt. unfold marked. rewrite seedableIn_cons, Es.
              destruct (Z.leb_spec 1 numSeeds), (Z.leb_spec 1 (numSeeds - 1)),
                       (Z.ltb_spec numSeeds 0), (Z.ltb_spec (numSeeds - 1) 0);
                try lia.
           ++ intros j Hj. destruct (Hm j Hj) as [Hc'|(k & Hk & -> & Hs)].
              ** destruct (decide (j = Z.to_nat i)) as [->|Hne];
                   [right; exists i; split; [left|auto]|].
                 rewrite list_lookup_insert_ne in Hc' by congruence. auto.
              ** right. exists k. split; [right; exact Hk|auto].
    + destruct (Z.eqb_spec numSeeds 0) as [H0|H0].
      * exists cur. split; [reflexivity|]. split; [|auto].
        unfold marked. rewrite Es. subst numSeeds. simpl. lia.
      * destruct (IH cur numSeeds Hnd) as (cur' & Hrun & Hc & Hm).
        -- intros k Hk. apply Hl. right. exact Hk.
        -- intros _. apply Hdx. discriminate.
        -- exists cur'. split; [exact Hrun|]. split.
           ++ rewrite Hc. unfold marked. rewrite seedableIn_cons, Es.
              destruct (Z.leb_spec 1 numSeeds), (Z.ltb_spec numSeeds 0);
                try lia.
           ++ intros j Hj. destruct (Hm j Hj) as [Hc'|(k & Hk & -> & Hs)];
                [auto|].
              right. exists k. split; [right; exact Hk|auto].
Qed.

Lemma countSet_replicate k : countSet (replicate k false) = 0.
Proof.
  unfold countSet. induction k as [|k IH]; [reflexivity|].
  simpl. rewrite filter_cons.
  destruct (decide (false = true)); [discriminate|exact IH].
Qed.

Lemma seedableIn_Permutation layer l l' :
  Permutation l l' -> seedableIn layer l = seedableIn layer l'.
Proof. intros H. unfold seedableIn. rewrite H. reflexivity. Qed.

(** The seed phase with a source whose permutations are permutations. *)
Lemma selectSeeds_count src layer numSeeds n :
  permutes src -> wellFormed (image.Bounds layer) ->
  let cells := image.Dx (image.Bounds layer) * image.Dy (image.Bounds layer) in
  exists cur,
    selectSeeds src layer numSeeds n
      = Some ((cur, replicate (Z.to_nat cells) false), S n)
    /\ countSet cur = marked layer (rand.Perm_at src n cells) numSeeds
    /\ forall i, boolAt cur i = Some true -> seedable layer i = true.
Proof.
  intros Hperm [Hx Hy] cells. unfold selectSeeds, makeBools, Perm. fold cells.
  assert (Hc : 0 <= cells) by (unfold cells; nia).
  destruct (Z.ltb_spec cells 0) as [|_]; [lia|].
  unfold orPanic, bind at 1 2 3, ret.
  specialize (Hperm n cells).
  destruct (seedLoop_count layer (rand.Perm_at src n cells)
              (replicate (Z.to_nat cells) false) numSeeds)
    as (cur & Hrun & Hcount & Hmarks).
  - rewrite Hperm. apply NoDup_seqZ.
  - intros i Hi. rewrite Hperm in Hi. apply elem_of_seqZ in Hi.
    rewrite length_replicate. split; [lia|].
    apply lookup_replicate_2. lia.
  - intros Hne Hz. destruct (rand.Perm_at src n cells) as [|i l] eqn:E;
      [contradiction|].
    assert (Hi : i ∈ seqZ 0 cells) by (rewrite <- Hperm; left).
    apply elem_of_seqZ in Hi. unfold cells in Hi. rewrite Hz in Hi. lia.
  - exists cur. unfold bind. rewrite Hrun. simpl. split; [reflexivity|].
    split; [rewrite Hcount, countSet_replicate; lia|].
    intros i [Hi Hl]%boolAt_Some.
    destruct (Hmarks _ Hl) as [Hr|(k & Hk & Hik & Hs)].
    + apply lookup_replicate in Hr as [? _]. discriminate.
    + rewrite Hperm in Hk. apply elem_of_seqZ in Hk.
      assert (i = k) as -> by lia. exact Hs.
Qed.

(** X9. With a seed budget of at least 1 the seed phase of [ApplyCorrosion]
    marks min(numSeeds, number of seedable cells) cells, each of them
    seedable, where cell i is seedable when the pixel (i % Dx, i / Dx) the
    loop reads for it is occupied; the previous grid stays empty. *)
Theorem seed_count (src : rand.Source) (layer : image.RGBA)
  (numSeeds : Z) (n : nat) :
  permutes src -> wellFormed (image.Bounds layer) -> 1 <= numSeeds ->
  exists cur prev,
    selectSeeds src layer numSeeds n = Some ((cur, prev), S n)
    /\ countSet cur = Z.min numSeeds (seedableCount layer)
    /\ countSet prev = 0
    /\ forall i, boolAt cur i = Some true -> seedable layer i = true.
Proof.
  intros Hperm Hwf Hs.
  destruct (selectSeeds_count src layer numSeeds n Hperm Hwf)
    as (cur & Hrun & Hcount & Hmarks).
  eexists cur, _. split; [exact Hrun|].
  split; [|split; [apply countSet_replicate|exact Hmarks]].
  rewrite Hcount. unfold marked, seedableCount.
  destruct (Z.leb_spec 1 numSeeds); [|lia].
  rewrite (seedableIn_Permutation layer _ _ (Hperm n _)). reflexivity.
Qed.

(** Two seeds asked of a 3 x 3 layer with one occupied pixel: one seed. *)
Lemma seed_count_witness :
  exists cur prev,
    selectSeeds (sample.mock 1 0) sample.dot 2 0%nat = Some ((cur, prev), 1%nat)
    /\ countSet cur = 1.
Proof.
  destruct (seed_count (sample.mock 1 0) sample.dot 2 0%nat)
    as (cur & prev & Hrun & Hcount & _);
    [apply mock_permutes | split; vm_compute; discriminate | lia |].
  exists cur, prev. split; [exact Hrun|]. exact Hcount.
Defined.

(** X10. With a seed budget of 0 the seed phase stops at once only if the
    first cell it visits is not seedable; if that cell is seedable the budget
    drops below zero, never equals zero again, and every seedable cell is
    marked. A negative budget marks every seedable cell too. *)
Theorem seed_count_without_budget (src : rand.Source) (layer : image.RGBA)
  (numSeeds : Z) (n : nat) :
  permutes src -> wellFormed (image.Bounds layer) -> numSeeds <= 0 ->
  let cells := image.Dx (image.Bounds layer) * image.Dy (image.Bounds layer) in
  exists cur prev,
    selectSeeds src layer numSeeds n = Some ((cur, prev), S n)
    /\ countSet cur
       = match rand.Perm_at src n cells with
         | i :: _ =>
             if (numSeeds =? 0) && negb (seedable layer i) then 0
             else seedableCount layer
         | [] => 0
         end.
Proof.
  intros Hperm Hwf Hs cells.
  destruct (selectSeeds_count src layer numSeeds n Hperm Hwf)
    as (cur & Hrun & Hcount & _).
  eexists cur, _. split; [exact Hrun|]. fold cells in Hcount.
  rewrite Hcount. unfold marked, seedableCount. fold cells.
  rewrite <- (seedableIn_Permutation layer _ _ (Hperm n cells)).
  destruct (Z.leb_spec 1 numSeeds); [lia|].
  destruct (rand.Perm_at src n cells) as [|i l].
  - destruct (numSeeds <? 0); reflexivity.
  - destruct (Z.ltb_spec numSeeds 0), (Z.eqb_spec numSeeds 0); try lia;
      simpl; [reflexivity|].
    destruct (seedable layer i); reflexivity.
Qed.

(** No seed asked of the sample pixel: its one cell is marked all the
    same. *)
Lemma seed_count_without_budget_witness :
  exists cur prev,
    selectSeeds (sample.mock 1 0) sample.pixel 0 0%nat
      = Some ((cur, prev), 1%nat)
    /\ countSet cur = 1.
Proof.
  destruct (seed_count_without_budget (sample.mock 1 0) sample.pixel 0 0%nat)
    as (cur & prev & Hrun & Hcount);
    [apply mock_permutes | split; vm_compute; discriminate | lia |].
  exists cur, prev. split; [exact Hrun|]. exact Hcount.
Defined.

(** A loop whose body neither panics nor draws is a fold. *)
Lemma foldM_pure {T S} (f : S -> T -> S) (body : T -> S -> M S) l :
  (forall a s n, a ∈ l -> body a s n = Some (f s a, n)) ->
  forall s n, foldM body l s n = Some (foldl f s l, n).
Proof.
  induction l as [|a l IH]; intros Hbody s n; simpl; [reflexivity|].
  unfold bind. rewrite Hbody by left.
  apply IH. intros b s' n' Hb. apply Hbody. right. exact Hb.
Qed.

Lemma foldM_app {T S} (body : T -> S -> M S) l1 l2 s n :
  foldM body (l1 ++ l2) s n
  = (s' <- foldM body l1 s ;; foldM body l2 s') n.
Proof.
  revert s n. induction l1 as [|a l1 IH]; intros s n; simpl.
  - reflexivity.
  - unfold bind in *. destruct (body a s n) as [[s1 n1]|]; [|reflexivity].
    apply IH.
Qed.

(** What the body establishes at the element it visits, and no later run
    of the body destroys, holds at the end for every element. *)
Lemma foldM_visit {T S} (Q : T -> S -> Prop) (body : T -> S -> M S) l :
  (forall a s n s' n', a ∈ l -> body a s n = Some (s', n') -> Q a s') ->
  (forall a b s n s' n', b ∈ l -> body b s n = Some (s', n') -> Q a s -> Q a s') ->
  forall s n s' n', foldM body l s n = Some (s', n') ->
  forall a, a ∈ l -> Q a s'.
Proof.
  induction l as [|b l IH]; intros Hvisit Hkeep s n s' n' Hrun a Ha.
  - apply elem_of_nil in Ha. contradiction.
  - simpl in Hrun. apply bind_Some in Hrun as (s1 & n1 & Hb & Hrest).
    apply elem_of_cons in Ha as [->|Ha].
    + assert (Hq : Q b s1) by (eapply Hvisit; [left|eassumption]).
      eapply (foldM_inv (Q b)); [|exact Hq|exact Hrest].
      intros c s2 n2 s3 n3 Hc Hq2 Hrun2.
      eapply Hkeep; [right; exact Hc|exact Hrun2|exact Hq2].
    + eapply IH; [| |exact Hrest|exact Ha].
      * intros; eapply Hvisit; [right|]; eassumption.
      * intros; eapply Hkeep; [right| |]; eassumption.
Qed.

Lemma boolAt_insert_eq (g : list bool) i :
  0 <= i < Z.of_nat (length g) ->
  boolAt (<[Z.to_nat i := true]> g) i = Some true.
Proof.
  intros Hi. apply boolAt_Some. split; [lia|].
  apply list_lookup_insert_eq. lia.
Qed.

Lemma boolAt_insert_keeps (g : list bool) i j :
  0 <= i < Z.of_nat (length g) ->
  boolAt g j = Some true -> boolAt (<[Z.to_nat i := true]> g) j = Some true.
Proof.
  intros Hi Hj. destruct (decide (i = j)) as [->|Hne];
    [apply boolAt_insert_eq, Hi|].
  apply boolAt_Some in Hj as [Hj0 Hj]. apply boolAt_Some. split; [exact Hj0|].
  rewrite list_lookup_insert_ne by lia. exact Hj.
Qed.

(** The neighbour count: never negative, and positive only if a cell of the
    neighbourhood is set in the previous grid. *)
Lemma countPrev_positive bounds prev x y k :
  countPrev bounds prev x y = Some k ->
  0 <= k
  /\ (0 < k -> exists x' y',
        near bounds x y x' y' = true
        /\ boolAt prev (y' * image.Dx bounds + x') = Some true).
Proof.
  unfold countPrev. rewrite forNeighbors_neighborhood.
  assert (Hgen : forall (l : list (Z * Z)) (acc : option Z),
    foldl (fun (s : option Z) (p : Z * Z) =>
             numNeighbors ← s;
             set ← boolAt prev (p.2 * image.Dx bounds + p.1);
             Some (if (set : bool) then numNeighbors + 1 else numNeighbors))
          acc l = Some k ->
    exists a, acc = Some a /\ a <= k
      /\ (a < k -> exists p, p ∈ l
            /\ boolAt prev (p.2 * image.Dx bounds + p.1) = Some true)).
  { induction l as [|p l IH]; intros acc Hfold; simpl in Hfold.
    - exists k. split; [exact Hfold|]. split; [lia|lia].
    - apply IH in Hfold as (a1 & Hstep & Hle & Hex).
      destruct acc as [a|]; [|discriminate]. simpl in Hstep.
      destruct (boolAt prev (p.2 * image.Dx bounds + p.1)) as [set|] eqn:Eset;
        [|discriminate].
      simpl in Hstep. injection Hstep as <-. exists a. split; [reflexivity|].
      destruct set.
      + split; [lia|]. intros _. exists p. split; [left|exact Eset].
      + split; [exact Hle|]. intros Hlt.
        destruct (Hex Hlt) as (q & Hq & Hset). exists q. split; [right|]; auto. }
  intros Hfold. apply Hgen in Hfold as (a & [= <-] & Hle & Hex).
  split; [exact Hle|]. intros Hlt.
  destruct (Hex Hlt) as ([x' y'] & Hin & Hset). exists x', y'.
  split; [apply elem_of_neighborhood, Hin|exact Hset].
Qed.

(** What one run of the body of a sweep does to the current grid. *)
Lemma corrodeCell_cases src layer prev y x cur n cur' n' :
  corrodeCell src layer prev y x cur n = Some (cur', n') ->
  let index := y * image.Dx (image.Bounds layer) + x in
  let marks := 0 <= index < Z.of_nat (length cur)
               /\ cur' = <[Z.to_nat index := true]> cur in
  if occupied layer x y then
    exists prevSet, boolAt prev index = Some prevSet
      /\ if (prevSet : bool) then marks
         else exists k, countPrev (image.Bounds layer) prev x y = Some k
                /\ if rand.Intn_at src n 8 <? k then marks else cur' = cur
  else cur' = cur.
Proof.
  intros Hrun index marks. unfold corrodeCell in Hrun. unfold occupied.
  fold index in Hrun.
  destruct (alphaOf (image.RGBA_At layer x y) =? 0); simpl;
    [apply ret_Some in Hrun as [-> _]; reflexivity|].
  apply bind_Some in Hrun as (prevSet & n1 & Hprev & Hrun).
  apply orPanic_Some in Hprev as [Hprev ->].
  exists prevSet. split; [exact Hprev|]. destruct prevSet.
  - apply orPanic_Some in Hrun as [Hset _].
    apply boolSet_Some in Hset. exact Hset.
  - apply bind_Some in Hrun as (k & n2 & Hk & Hrun).
    apply orPanic_Some in Hk as [Hk ->].
    exists k. split; [exact Hk|].
    apply bind_Some in Hrun as (r & n3 & Hr & Hrun).
    unfold Intn in Hr. injection Hr as <- <-.
    destruct (rand.Intn_at src n 8 <? k).
    + apply orPanic_Some in Hrun as [Hset _].
      apply boolSet_Some in Hset. exact Hset.
    + apply ret_Some in Hrun as [-> _]. reflexivity.
Qed.

Section Sweep.

Variable src : rand.Source.
Variable layer : image.RGBA.
Variable prev : list bool.

Lemma near_self x y :
  image.Point_In x y (image.Bounds layer) = true ->
  near (image.Bounds layer) x y x y = true.
Proof.
  intros Hin. unfold near. rewrite Hin, !Z.sub_diag. reflexivity.
Qed.

Lemma corrodeCell_grows y x cur n cur' n' :
  corrodeCell src layer prev y x cur n = Some (cur', n') -> subGrid cur cur'.
Proof.
  intros Hrun%corrodeCell_cases i Hi. cbv zeta in Hrun.
  destruct (occupied layer x y); [|subst; exact Hi].
  destruct Hrun as (prevSet & _ & Hrun).
  destruct prevSet; [destruct Hrun as [Hr ->]; apply boolAt_insert_keeps; assumption|].
  destruct Hrun as (k & _ & Hrun).
  destruct (_ <? k); [|subst; exact Hi].
  destruct Hrun as [Hr ->]. apply boolAt_insert_keeps; assumption.
Qed.

Lemma corrodeCell_copies y x cur n cur' n' :
  corrodeCell src layer prev y x cur n = Some (cur', n') ->
  occupied layer x y = true ->
  boolAt prev (y * image.Dx (image.Bounds layer) + x) = Some true ->
  boolAt cur' (y * image.Dx (image.Bounds layer) + x) = Some true.
Proof.
  intros Hrun%corrodeCell_cases Hocc Hprev. cbv zeta in Hrun.
  rewrite Hocc in Hrun. destruct Hrun as (prevSet & Hp & Hrun).
  rewrite Hprev in Hp. injection Hp as <-.
  destruct Hrun as [Hr ->]. apply boolAt_insert_eq, Hr.
Qed.

Lemma corrodeCell_local y x cur n cur' n' i :
  intnNonneg src ->
  corrodeCell src layer prev y x cur n = Some (cur', n') ->
  boolAt cur' i = Some true ->
  boolAt cur i = Some true
  \/ (i = y * image.Dx (image.Bounds layer) + x
      /\ occupied layer x y = true
      /\ exists x' y',
           near (image.Bounds layer) x y x' y' = true
           /\ boolAt prev (y' * image.Dx (image.Bounds layer) + x') = Some true).
Proof.
  intros Hintn Hrun%corrodeCell_cases Hi. cbv zeta in Hrun.
  destruct (occupied layer x y) eqn:Hocc; [|subst; left; exact Hi].
  assert (Hmark : forall (P : Prop),
            0 <= y * image.Dx (image.Bounds layer) + x < Z.of_nat (length cur)
            /\ cur' = <[Z.to_nat (y * image.Dx (image.Bounds layer) + x) := true]> cur ->
            P ->
            boolAt cur i = Some true
            \/ (i = y * image.Dx (image.Bounds layer) + x /\ true = true /\ P)).
  { intros P [Hr ->] HP.
    apply boolAt_set in Hi as [[-> _]|Hi]; [right|left|lia]; auto. }
  destruct Hrun as (prevSet & Hp & Hrun). destruct prevSet.
  - apply (Hmark _ Hrun). exists x, y.
    split; [apply near_self, occupied_inside, Hocc|exact Hp].
  - destruct Hrun as (k & Hk & Hrun).
    destruct (Z.ltb_spec (rand.Intn_at src n 8) k) as [Hlt|_];
      [|subst; left; exact Hi].
    apply (Hmark _ Hrun).
    apply countPrev_positive in Hk as [_ Hk]. apply Hk.
    specialize (Hintn n 8). lia.
Qed.

Let sweep (cur : list bool) : M (list bool) :=
  foldM (fun y => foldM (corrodeCell src layer prev y)
                        (columns (image.Bounds layer)))
        (rowsDown (image.Bounds layer)) cur.

Lemma sweep_grows cur n cur' n' :
  sweep cur n = Some (cur', n') -> subGrid cur cur'.
Proof.
  intros Hrun. unfold sweep in Hrun.
  apply (foldM_inv (subGrid cur)) in Hrun; [exact Hrun| |intros i Hi; exact Hi].
  intros y g1 n1 g2 n2 _ Hg1 Hrow.
  apply (foldM_inv (subGrid cur)) in Hrow; [exact Hrow| |exact Hg1].
  intros x g3 n3 g4 n4 _ Hg3 Hcell i Hi.
  apply (corrodeCell_grows _ _ _ _ _ _ Hcell), Hg3, Hi.
Qed.

Lemma sweep_copies cur n cur' n' x y :
  sweep cur n = Some (cur', n') ->
  occupied layer x y = true ->
  boolAt prev (y * image.Dx (image.Bounds layer) + x) = Some true ->
  boolAt cur' (y * image.Dx (image.Bounds layer) + x) = Some true.
Proof.
  intros Hrun Hocc Hprev. unfold sweep in Hrun.
  pose proof (occupied_inside _ _ _ Hocc) as Hin%Point_In_spec.
  assert (Hy : y ∈ rowsDown (image.Bounds layer))
    by (apply elem_of_seqZ; unfold image.Dy; lia).
  assert (Hx : x ∈ columns (image.Bounds layer))
    by (apply elem_of_seqZ; unfold image.Dx; lia).
  set (Q := fun (y0 : Z) (g : list bool) =>
         forall x0, x0 ∈ columns (image.Bounds layer) ->
           occupied layer x0 y0 = true ->
           boolAt prev (y0 * image.Dx (image.Bounds layer) + x0) = Some true ->
           boolAt g (y0 * image.Dx (image.Bounds layer) + x0) = Some true).
  apply (foldM_visit Q _ _) with (a := y) in Hrun; [apply Hrun; assumption| | |exact Hy].
  - intros y0 g1 n1 g2 n2 _ Hrow x0 Hx0 Hocc0 Hprev0.
    set (Q' := fun (x1 : Z) (g : list bool) =>
           occupied layer x1 y0 = true ->
           boolAt prev (y0 * image.Dx (image.Bounds layer) + x1) = Some true ->
           boolAt g (y0 * image.Dx (image.Bounds layer) + x1) = Some true).
    apply (foldM_visit Q' _ _) with (a := x0) in Hrow;
      [apply Hrow; assumption| | |exact Hx0].
    + intros x1 g3 n3 g4 n4 _ Hcell Hocc1 Hprev1.
      eapply corrodeCell_copies; eassumption.
    + intros x1 x2 g3 n3 g4 n4 _ Hcell Hq Hocc1 Hprev1.
      apply (corrodeCell_grows _ _ _ _ _ _ Hcell), Hq; assumption.
  - intros y0 y1 g1 n1 g2 n2 _ Hrow Hq x0 Hx0 Hocc0 Hprev0.
    assert (Hsub : subGrid g1 g2).
    { apply (foldM_inv (subGrid g1)) in Hrow; [exact Hrow| |intros i Hi; exact Hi].
      intros x1 g3 n3 g4 n4 _ Hg3 Hcell i Hi.
      apply (corrodeCell_grows _ _ _ _ _ _ Hcell), Hg3, Hi. }
    apply Hsub, Hq; assumption.
Qed.

Lemma sweep_local cur n cur' n' i :
  intnNonneg src ->
  sweep cur n = Some (cur', n') ->
  boolAt cur' i = Some true ->
  boolAt cur i = Some true
  \/ exists x y,
       i = y * image.Dx (image.Bounds layer) + x
       /\ occupied layer x y = true
       /\ exists x' y',
            near (image.Bounds layer) x y x' y' = true
            /\ boolAt prev (y' * image.Dx (image.Bounds layer) + x') = Some true.
Proof.
  intros Hintn Hrun. unfold sweep in Hrun. revert i.
  set (I := fun g : list bool => forall i,
         boolAt g i = Some true ->
         boolAt cur i = Some true
         \/ exists x y,
              i = y * image.Dx (image.Bounds layer) + x
              /\ occupied layer x y = true
              /\ exists x' y',
                   near (image.Bounds layer) x y x' y' = true
                   /\ boolAt prev (y' * image.Dx (image.Bounds layer) + x')
                      = Some true).
  apply (foldM_inv I) in Hrun; [exact Hrun| |intros i Hi; left; exact Hi].
  intros y g1 n1 g2 n2 _ Hg1 Hrow.
  apply (foldM_inv I) in Hrow; [exact Hrow| |exact Hg1].
  intros x g3 n3 g4 n4 _ Hg3 Hcell i Hi.
  destruct (corrodeCell_local _ _ _ _ _ _ _ Hintn Hcell Hi)
    as [Hold|(-> & Hocc & Hnear)]; [apply Hg3, Hold|].
  right. exists x, y. auto.
Qed.

End Sweep.

(** ** The corrosion automaton, iteration by iteration *)

Section Automaton.

Variable src : rand.Source.
Variable layer : image.RGBA.

Hypothesis origin : atOrigin (image.Bounds layer).
Hypothesis well_formed : wellFormed (image.Bounds layer).
Hypothesis perms : permutes src.

Let cells : nat :=
  Z.to_nat (image.Dx (image.Bounds layer) * image.Dy (image.Bounds layer)).

(** Painting from a grid of the right length: no panic, no draw, and the
    pixels painted are the cells set. *)
Lemma paint_pixels prev color e0 n :
  length prev = cells -> image.packed e0 ->
  image.RGBA_Rect e0 = image.Bounds layer ->
  exists e,
    paint (image.Bounds layer) prev color e0 n = Some (e, n)
    /\ image.packed e /\ image.RGBA_Rect e = image.Bounds layer
    /\ forall x y,
         image.RGBA_At e x y
         = if image.Point_In x y (image.Bounds layer) && cellSet layer prev x y
           then color else image.RGBA_At e0 x y.
Proof.
  intros Hl Hp0 Hr0. unfold paint.
  set (f := fun (e : image.RGBA) (y x : Z) =>
         if cellSet layer prev x y then image.RGBA_Set e x y color else e).
  assert (Hrow : forall y e n,
            y ∈ rowsDown (image.Bounds layer) ->
            foldM (paintCell (image.Bounds layer) prev color y)
                  (columns (image.Bounds layer)) e n
            = Some (foldl (fun e x => f e y x) e (columns (image.Bounds layer)),
                    n)).
  { intros y e1 n1 Hy. apply foldM_pure. intros x e2 n2 Hx.
    unfold paintCell, f, cellSet.
    destruct (boolAt_total layer prev
                (y * image.Dx (image.Bounds layer) + x) Hl) as [v Hv].
    { apply inside_index; [exact origin|]. apply scanned_inside; assumption. }
    rewrite Hv. unfold orPanic, bind, ret.
    destruct v; [rewrite bool_decide_eq_true_2 by reflexivity
                |rewrite bool_decide_eq_false_2 by discriminate];
      reflexivity. }
  rewrite (foldM_pure
             (fun e y => foldl (fun e x => f e y x) e
                               (columns (image.Bounds layer)))
             _ _ (fun y e n Hy => Hrow y e n Hy)).
  rewrite (foldl_prod f).
  rewrite <- (foldl_map
    (fun e (q : Z * Z) =>
       if cellSet layer prev q.1 q.2 then image.RGBA_Set e q.1 q.2 color else e)
    (fun p : Z * Z => (p.2, p.1))).
  destruct (set_cells (cellSet layer prev) (fun _ _ => color)
              (map (fun p : Z * Z => (p.2, p.1))
                   (list_prod (rowsDown (image.Bounds layer))
                              (columns (image.Bounds layer)))) e0 Hp0)
    as (Hp1 & Hr1 & Hat).
  eexists. split; [reflexivity|]. split; [exact Hp1|].
  split; [congruence|]. intros x y. rewrite Hat, Hr0.
  destruct (image.Point_In x y (image.Bounds layer)) eqn:Hin.
  - rewrite bool_decide_eq_true_2 by (apply scanned_cells, Hin).
    simpl. rewrite andb_true_r. reflexivity.
  - rewrite andb_false_r. reflexivity.
Qed.

(** [ApplyCorrosion] is the painting of the previous grid that the
    iterations leave. *)
Lemma ApplyCorrosion_grids color numIterations numSeeds n :
  exists cur prev n' e,
    corrosionGrids src layer numIterations numSeeds n = Some ((cur, prev), n')
    /\ ApplyCorrosion src layer color numIterations numSeeds n = Some (e, n')
    /\ (length cur = cells /\ length prev = cells)
    /\ (withinSilhouette layer cur /\ withinSilhouette layer prev)
    /\ forall x y,
         image.RGBA_At e x y
         = if image.Point_In x y (image.Bounds layer) && cellSet layer prev x y
           then color else color.zero.
Proof.
  destruct (selectSeeds_total src layer well_formed perms numSeeds n)
    as (c0 & p0 & n1 & Hseed & Hlc0 & Hlp0).
  destruct (selectSeeds_within _ _ _ _ _ _ _ Hseed) as [Hwc0 Hwp0].
  destruct (corrodeLoop_total src layer origin numIterations c0 p0 n1 Hlc0 Hlp0)
    as (cur & prev & n2 & Hloop & Hlc & Hlp).
  destruct (corrodeLoop_within _ _ _ _ _ _ _ _ _ Hwc0 Hwp0 Hloop) as [Hwc Hwp].
  destruct well_formed as [Hx Hy].
  destruct (NewRGBA_is_Some _ Hx Hy) as [e0 He0].
  destruct (paint_pixels prev color e0 n2 Hlp (NewRGBA_packed _ _ He0)
              (NewRGBA_Rect _ _ He0)) as (e & Hpaint & _ & _ & Hat).
  exists cur, prev, n2, e.
  split; [unfold corrosionGrids, bind; rewrite Hseed; exact Hloop|].
  split; [unfold ApplyCorrosion, bind; rewrite Hseed, Hloop, He0; exact Hpaint|].
  split; [auto|]. split; [auto|]. intros x y. rewrite Hat.
  rewrite (NewRGBA_At _ _ x y He0). reflexivity.
Qed.

End Automaton.

Section Iterations.

Variable src : rand.Source.
Variable layer : image.RGBA.

Hypothesis origin : atOrigin (image.Bounds layer).
Hypothesis well_formed : wellFormed (image.Bounds layer).
Hypothesis perms : permutes src.

Let cells : nat :=
  Z.to_nat (image.Dx (image.Bounds layer) * image.Dy (image.Bounds layer)).

(** One more iteration is one more step. *)
Lemma corrosionGrids_succ k numSeeds n :
  0 <= k ->
  corrosionGrids src layer (k + 1) numSeeds n
  = (st <- corrosionGrids src layer k numSeeds ;; corrodeStep src layer st) n.
Proof.
  intros Hk. unfold corrosionGrids, corrodeLoop, bind at 1 2 3.
  destruct (selectSeeds src layer numSeeds n) as [[seeded n1]|]; [|reflexivity].
  rewrite seqZ_app by lia. rewrite foldM_app. unfold bind.
  destruct (foldM _ (seqZ 0 k) seeded n1) as [[st n2]|]; [|reflexivity].
  rewrite Z.add_0_l. simpl. unfold bind.
  destruct (corrodeStep src layer st n2) as [[st' n3]|]; reflexivity.
Qed.

(** At the origin every cell of a grid is the cell of a pixel. *)
Lemma cell_pixel (grid : list bool) i :
  length grid = cells -> boolAt grid i = Some true ->
  exists x y,
    image.Point_In x y (image.Bounds layer) = true
    /\ i = y * image.Dx (image.Bounds layer) + x.
Proof.
  intros Hl [Hi Hlk%lookup_lt_Some]%boolAt_Some.
  destruct origin as [Ox Oy], well_formed as [Hx Hy].
  set (dx := image.Dx (image.Bounds layer)) in *.
  set (dy := image.Dy (image.Bounds layer)) in *.
  assert (Hlt : i < dx * dy) by (unfold cells in Hl; lia).
  assert (Hdx : 0 < dx) by nia.
  exists (i mod dx), (i / dx).
  pose proof (Z.mod_pos_bound i dx Hdx).
  pose proof (Z.div_mod i dx ltac:(lia)).
  assert (0 <= i / dx < dy).
  { split; [apply Z.div_pos; lia|]. apply Z.div_lt_upper_bound; lia. }
  split; [|lia]. apply Point_In_spec.
  unfold dx, dy, image.Dx, image.Dy in *. lia.
Qed.

(** A step copies the whole previous grid into the new previous grid. *)
Lemma corrodeStep_keeps cur prev n cur' prev' n' :
  withinSilhouette layer prev -> length prev = cells ->
  corrodeStep src layer (cur, prev) n = Some ((cur', prev'), n') ->
  cur' = prev /\ subGrid prev prev' /\ subGrid cur prev'.
Proof.
  intros Hw Hl Hrun. unfold corrodeStep in Hrun.
  apply bind_Some in Hrun as (c1 & n1 & Hsweep & Hret).
  apply ret_Some in Hret as [[= -> ->] ->].
  split; [reflexivity|]. split.
  - intros i Hi. destruct (cell_pixel prev i Hl Hi) as (x & y & Hin & ->).
    eapply sweep_copies; [exact Hsweep| |exact Hi]. apply Hw; assumption.
  - eapply sweep_grows, Hsweep.
Qed.

Lemma corrodeStep_spreads cur prev n cur' prev' n' i :
  intnNonneg src ->
  corrodeStep src layer (cur, prev) n = Some ((cur', prev'), n') ->
  boolAt prev' i = Some true ->
  boolAt cur i = Some true
  \/ exists x y,
       i = y * image.Dx (image.Bounds layer) + x
       /\ occupied layer x y = true
       /\ exists x' y',
            near (image.Bounds layer) x y x' y' = true
            /\ boolAt prev (y' * image.Dx (image.Bounds layer) + x') = Some true.
Proof.
  intros Hintn Hrun Hi. unfold corrodeStep in Hrun.
  apply bind_Some in Hrun as (c1 & n1 & Hsweep & Hret).
  apply ret_Some in Hret as [[= -> ->] ->].
  eapply sweep_local; eassumption.
Qed.

(** The grids after [k] and after [k + 1] iterations. *)
Lemma consecutive_grids k numSeeds n :
  0 <= k ->
  exists cur prev n1 cur' prev' n2,
    corrosionGrids src layer k numSeeds n = Some ((cur, prev), n1)
    /\ corrosionGrids src layer (k + 1) numSeeds n = Some ((cur', prev'), n2)
    /\ corrodeStep src layer (cur, prev) n1 = Some ((cur', prev'), n2)
    /\ withinSilhouette layer prev /\ length prev = cells
    /\ withinSilhouette layer prev' /\ length prev' = cells.
Proof.
  intros Hk.
  destruct (ApplyCorrosion_grids src layer origin well_formed perms
              color.zero k numSeeds n)
    as (cur & prev & n1 & _ & Hg & _ & [_ Hlp] & [_ Hwp] & _).
  destruct (ApplyCorrosion_grids src layer origin well_formed perms
              color.zero (k + 1) numSeeds n)
    as (cur' & prev' & n2 & _ & Hg' & _ & [_ Hlp'] & [_ Hwp'] & _).
  exists cur, prev, n1, cur', prev', n2.
  split; [exact Hg|]. split; [exact Hg'|].
  split; [|auto]. rewrite corrosionGrids_succ in Hg' by exact Hk.
  unfold bind in Hg'. rewrite Hg in Hg'. exact Hg'.
Qed.

(** The grids before any iteration are the seeds and the empty grid. *)
Lemma initial_grids numSeeds n cur prev n1 :
  selectSeeds src layer numSeeds n = Some ((cur, prev), n1) ->
  corrosionGrids src layer 0 numSeeds n = Some ((cur, prev), n1).
Proof.
  intros Hseed. unfold corrosionGrids, bind. rewrite Hseed. reflexivity.
Qed.

End Iterations.

Lemma painted_pixel (layer e : image.RGBA) (grid : list bool)
  (color : color.RGBA) x y :
  image.RGBA_At e x y
  = (if image.Point_In x y (image.Bounds layer) && cellSet layer grid x y
     then color else color.zero) ->
  alphaOf (image.RGBA_At e x y) <> 0 ->
  image.Point_In x y (image.Bounds layer) = true
  /\ boolAt grid (y * image.Dx (image.Bounds layer) + x) = Some true
  /\ image.RGBA_At e x y = color.
Proof.
  intros Hat Ha. rewrite Hat in Ha |- *.
  destruct (image.Point_In x y (image.Bounds layer)); simpl in *;
    [|contradiction].
  unfold cellSet in *. destruct (bool_decide _) eqn:E; [|contradiction].
  apply bool_decide_eq_true in E. auto.
Qed.

Lemma pixel_painted (layer e : image.RGBA) (grid : list bool)
  (color : color.RGBA) x y :
  image.RGBA_At e x y
  = (if image.Point_In x y (image.Bounds layer) && cellSet layer grid x y
     then color else color.zero) ->
  image.Point_In x y (image.Bounds layer) = true ->
  boolAt grid (y * image.Dx (image.Bounds layer) + x) = Some true ->
  image.RGBA_At e x y = color.
Proof.
  intros -> Hin Hset. rewrite Hin. unfold cellSet.
  rewrite bool_decide_eq_true_2 by exact Hset. reflexivity.
Qed.

(** The runs with [k] and with [k + 1] iterations from the same state of
    the source, their grids, and the step between them. *)
Lemma consecutive_runs src layer color k numSeeds n :
  atOrigin (image.Bounds layer) -> wellFormed (image.Bounds layer) ->
  permutes src -> 0 <= k ->
  exists cur prev n1 e cur' prev' n2 e',
    ApplyCorrosion src layer color k numSeeds n = Some (e, n1)
    /\ ApplyCorrosion src layer color (k + 1) numSeeds n = Some (e', n2)
    /\ corrosionGrids src layer k numSeeds n = Some ((cur, prev), n1)
    /\ corrodeStep src layer (cur, prev) n1 = Some ((cur', prev'), n2)
    /\ (withinSilhouette layer prev /\ withinSilhouette layer prev')
    /\ (length prev
        = Z.to_nat (image.Dx (image.Bounds layer) * image.Dy (image.Bounds layer)))
    /\ (forall x y,
          image.RGBA_At e x y
          = if image.Point_In x y (image.Bounds layer) && cellSet layer prev x y
            then color else color.zero)
    /\ (forall x y,
          image.RGBA_At e' x y
          = if image.Point_In x y (image.Bounds layer) && cellSet layer prev' x y
            then color else color.zero).
Proof.
  intros Ho Hwf Hperm Hk.
  destruct (ApplyCorrosion_grids src layer Ho Hwf Hperm color k numSeeds n)
    as (cur & prev & n1 & e & Hg & Hrun & [_ Hlp] & [_ Hwp] & Hat).
  destruct (ApplyCorrosion_grids src layer Ho Hwf Hperm color (k + 1) numSeeds n)
    as (cur' & prev' & n2 & e' & Hg' & Hrun' & _ & [_ Hwp'] & Hat').
  exists cur, prev, n1, e, cur', prev', n2, e'.
  rewrite (corrosionGrids_succ src layer k numSeeds n Hk) in Hg'.
  unfold bind in Hg'. rewrite Hg in Hg'. auto 10.
Qed.

(** X11. Corrosion never recedes: from the same state of the source, every
    pixel that [ApplyCorrosion] paints with k iterations it paints with k + 1
    iterations. (Layers whose bounds are well formed and start at the origin;
    sources whose permutations are permutations.) *)
Theorem corrosion_never_recedes (src : rand.Source) (layer : image.RGBA)
  (color : color.RGBA) (k numSeeds : Z) (n : nat) :
  atOrigin (image.Bounds layer) -> wellFormed (image.Bounds layer) ->
  permutes src -> 0 <= k ->
  exists e n1 e' n2,
    ApplyCorrosion src layer color k numSeeds n = Some (e, n1)
    /\ ApplyCorrosion src layer color (k + 1) numSeeds n = Some (e', n2)
    /\ forall x y, alphaOf (image.RGBA_At e x y) <> 0 ->
                   image.RGBA_At e' x y = image.RGBA_At e x y.
Proof.
  intros Ho Hwf Hperm Hk.
  destruct (consecutive_runs src layer color k numSeeds n Ho Hwf Hperm Hk)
    as (cur & prev & n1 & e & cur' & prev' & n2 & e'
        & Hrun & Hrun' & _ & Hstep & [Hwp _] & Hlp & Hat & Hat').
  exists e, n1, e', n2. split; [exact Hrun|]. split; [exact Hrun'|].
  intros x y Ha.
  destruct (painted_pixel layer e prev color x y (Hat x y) Ha)
    as (Hin & Hset & ->).
  destruct (corrodeStep_keeps src layer Ho Hwf _ _ _ _ _ _ Hwp Hlp Hstep)
    as (_ & Hsub & _).
  apply (pixel_painted layer e' prev' color x y (Hat' x y) Hin), Hsub, Hset.
Qed.

Lemma corrosion_never_recedes_witness :
  exists e n1 e' n2,
    ApplyCorrosion (sample.mock 1 0) sample.pixel sample.yellow 1 1 0%nat
      = Some (e, n1)
    /\ ApplyCorrosion (sample.mock 1 0) sample.pixel sample.yellow 2 1 0%nat
       = Some (e', n2)
    /\ image.RGBA_At e' 0 0 = image.RGBA_At e 0 0.
Proof.
  destruct (corrosion_never_recedes (sample.mock 1 0) sample.pixel
              sample.yellow 1 1 0%nat)
    as (e & n1 & e' & n2 & Hrun & Hrun' & Hat);
    [split; reflexivity | split; vm_compute; discriminate
    | apply mock_permutes | lia |].
  exists e, n1, e', n2. split; [exact Hrun|]. split; [exact Hrun'|].
  apply Hat. vm_compute in Hrun. injection Hrun as <- _.
  vm_compute. discriminate.
Defined.

Lemma corrosionGrids_facts src layer k numSeeds n cur prev n' :
  atOrigin (image.Bounds layer) -> wellFormed (image.Bounds layer) ->
  permutes src ->
  corrosionGrids src layer k numSeeds n = Some ((cur, prev), n') ->
  withinSilhouette layer prev
  /\ length prev
     = Z.to_nat (image.Dx (image.Bounds layer) * image.Dy (image.Bounds layer)).
Proof.
  intros Ho Hwf Hperm Hg.
  destruct (ApplyCorrosion_grids src layer Ho Hwf Hperm color.zero k numSeeds n)
    as (cur0 & prev0 & n0 & _ & Hg0 & _ & [_ Hlp] & [_ Hwp] & _).
  rewrite Hg in Hg0. injection Hg0 as -> -> ->. auto.
Qed.

(** After at least one iteration the previous grid holds every seed. *)
Lemma seeds_kept src layer numSeeds n seeds empty n0 :
  atOrigin (image.Bounds layer) -> wellFormed (image.Bounds layer) ->
  permutes src ->
  selectSeeds src layer numSeeds n = Some ((seeds, empty), n0) ->
  forall k, 0 <= k ->
  forall cur prev n',
    corrosionGrids src layer (k + 1) numSeeds n = Some ((cur, prev), n') ->
    subGrid seeds prev.
Proof.
  intros Ho Hwf Hperm Hseed.
  apply (natlike_ind (fun k => forall cur prev n',
           corrosionGrids src layer (k + 1) numSeeds n = Some ((cur, prev), n') ->
           subGrid seeds prev)).
  - intros cur prev n' Hg. rewrite corrosionGrids_succ in Hg by lia.
    unfold bind in Hg. rewrite (initial_grids _ _ _ _ _ _ _ Hseed) in Hg.
    destruct (corrosionGrids_facts src layer 0 numSeeds n seeds empty n0
                Ho Hwf Hperm (initial_grids _ _ _ _ _ _ _ Hseed)) as [Hw Hl].
    destruct (corrodeStep_keeps src layer Ho Hwf _ _ _ _ _ _ Hw Hl Hg)
      as (_ & _ & Hsub).
    exact Hsub.
  - intros k Hk IH cur prev n' Hg.
    replace (Z.succ k + 1) with (k + 1 + 1) in Hg by lia.
    rewrite corrosionGrids_succ in Hg by lia.
    apply bind_Some in Hg as ([c1 p1] & n1 & Hg1 & Hstep).
    destruct (corrosionGrids_facts src layer (k + 1) numSeeds n c1 p1 n1
                Ho Hwf Hperm Hg1) as [Hw Hl].
    destruct (corrodeStep_keeps src layer Ho Hwf _ _ _ _ _ _ Hw Hl Hstep)
      as (_ & Hsub & _).
    intros i Hi. apply Hsub, (IH c1 p1 n1 Hg1), Hi.
Qed.

(** X12. Every seed is painted as soon as there is one iteration: with
    [numIterations >= 1], each pixel whose cell the seed phase marked carries
    the corrosion colour in the buffer returned. *)
Theorem seeds_are_painted (src : rand.Source) (layer : image.RGBA)
  (color : color.RGBA) (numIterations numSeeds : Z) (n : nat) :
  atOrigin (image.Bounds layer) -> wellFormed (image.Bounds layer) ->
  permutes src -> 1 <= numIterations ->
  exists seeds empty n0 e n',
    selectSeeds src layer numSeeds n = Some ((seeds, empty), n0)
    /\ ApplyCorrosion src layer color numIterations numSeeds n = Some (e, n')
    /\ forall x y,
         image.Point_In x y (image.Bounds layer) = true ->
         cellSet layer seeds x y = true ->
         image.RGBA_At e x y = color.
Proof.
  intros Ho Hwf Hperm Hk.
  destruct (selectSeeds_total src layer Hwf Hperm numSeeds n)
    as (seeds & empty & n0 & Hseed & _).
  destruct (ApplyCorrosion_grids src layer Ho Hwf Hperm color numIterations
              numSeeds n) as (cur & prev & n' & e & Hg & Hrun & _ & _ & Hat).
  exists seeds, empty, n0, e, n'. split; [exact Hseed|]. split; [exact Hrun|].
  intros x y Hin Hset. apply bool_decide_eq_true in Hset.
  apply (pixel_painted layer e prev color x y (Hat x y) Hin).
  replace numIterations with (numIterations - 1 + 1) in Hg by lia.
  apply (seeds_kept src layer numSeeds n seeds empty n0 Ho Hwf Hperm Hseed
           (numIterations - 1) ltac:(lia) cur prev n' Hg), Hset.
Qed.

Lemma seeds_are_painted_witness :
  exists e n',
    ApplyCorrosion (sample.mock 1 0) sample.pixel sample.yellow 3 1 0%nat
      = Some (e, n')
    /\ image.RGBA_At e 0 0 = sample.yellow.
Proof.
  destruct (seeds_are_painted (sample.mock 1 0) sample.pixel sample.yellow
              3 1 0%nat)
    as (seeds & empty & n0 & e & n' & Hseed & Hrun & Hat);
    [split; reflexivity | split; vm_compute; discriminate
    | apply mock_permutes | lia |].
  exists e, n'. split; [exact Hrun|]. apply Hat; [reflexivity|].
  vm_compute in Hseed. injection Hseed as <- _ _. reflexivity.
Defined.

(** X13. The first iteration grows nothing: with [numIterations = 1] the
    pixels painted are exactly the seeds, whatever the source draws (its
    [Intn] being at least 0). *)
Theorem first_iteration_paints_seeds (src : rand.Source) (layer : image.RGBA)
  (color : color.RGBA) (numSeeds : Z) (n : nat) :
  atOrigin (image.Bounds layer) -> wellFormed (image.Bounds layer) ->
  permutes src -> intnNonneg src ->
  exists seeds empty n0 e n',
    selectSeeds src layer numSeeds n = Some ((seeds, empty), n0)
    /\ ApplyCorrosion src layer color 1 numSeeds n = Some (e, n')
    /\ forall x y,
         image.RGBA_At e x y
         = if image.Point_In x y (image.Bounds layer) && cellSet layer seeds x y
           then color else color.zero.
Proof.
  intros Ho Hwf Hperm Hintn.
  destruct (consecutive_runs src layer color 0 numSeeds n Ho Hwf Hperm ltac:(lia))
    as (seeds & empty & n0 & _ & cur' & prev' & n' & e
        & _ & Hrun & Hg & Hstep & [Hwp _] & Hlp & _ & Hat).
  assert (Hseed : selectSeeds src layer numSeeds n = Some ((seeds, empty), n0)).
  { unfold corrosionGrids, corrodeLoop in Hg. simpl in Hg.
    apply bind_Some in Hg as (st & n1 & Hs & Hret).
    apply ret_Some in Hret as [-> ->]. exact Hs. }
  exists seeds, empty, n0, e, n'. split; [exact Hseed|].
  split; [exact Hrun|]. intros x y. rewrite Hat.
  destruct (image.Point_In x y (image.Bounds layer)) eqn:Hin; [|reflexivity].
  simpl. assert (cellSet layer prev' x y = cellSet layer seeds x y) as ->;
    [|reflexivity].
  destruct (selectSeeds_lengths _ _ _ _ _ _ _ Hseed) as [_ Hempty].
  unfold cellSet. apply bool_decide_ext. split.
  - intros Hset.
    destruct (corrodeStep_spreads _ _ _ _ _ _ _ _ _ Hintn Hstep Hset)
      as [Hold|(_ & _ & _ & _ & x' & y' & _ & Hp)]; [exact Hold|].
    rewrite Hempty in Hp. apply boolAt_Some in Hp as [_ Hp].
    apply lookup_replicate in Hp as [? _]. discriminate.
  - intros Hset.
    destruct (corrodeStep_keeps src layer Ho Hwf _ _ _ _ _ _ Hwp Hlp Hstep)
      as (_ & _ & Hsub).
    apply Hsub, Hset.
Qed.

Lemma first_iteration_paints_seeds_witness :
  exists e n',
    ApplyCorrosion (sample.mock 1 0) sample.dot sample.yellow 1 1 0%nat
      = Some (e, n')
    /\ image.RGBA_At e 1 1 = sample.yellow
    /\ image.RGBA_At e 0 0 = color.zero.
Proof.
  destruct (first_iteration_paints_seeds (sample.mock 1 0) sample.dot
              sample.yellow 1 0%nat)
    as (seeds & empty & n0 & e & n' & Hseed & Hrun & Hat);
    [split; reflexivity | split; vm_compute; discriminate
    | apply mock_permutes | intros n k; vm_compute; discriminate |].
  exists e, n'. split; [exact Hrun|].
  vm_compute in Hseed. injection Hseed as <- _ _.
  split; [exact (Hat 1 1) | exact (Hat 0 0)].
Defined.

(** X14. Corrosion spreads by one pixel an iteration: from the second
    iteration on, every pixel painted with k + 1 iterations is occupied and
    has a pixel of its 3x3 neighbourhood, itself included, that is painted
    with k iterations from the same state of the source. *)
Theorem corrosion_spreads_by_one (src : rand.Source) (layer : image.RGBA)
  (color : color.RGBA) (k numSeeds : Z) (n : nat) :
  atOrigin (image.Bounds layer) -> wellFormed (image.Bounds layer) ->
  permutes src -> intnNonneg src -> 1 <= k ->
  exists e n1 e' n2,
    ApplyCorrosion src layer color k numSeeds n = Some (e, n1)
    /\ ApplyCorrosion src layer color (k + 1) numSeeds n = Some (e', n2)
    /\ forall x y,
         alphaOf (image.RGBA_At e' x y) <> 0 ->
         occupied layer x y = true
         /\ exists x' y',
              near (image.Bounds layer) x y x' y' = true
              /\ image.RGBA_At e x' y' = color.
Proof.
  intros Ho Hwf Hperm Hintn Hk.
  destruct (consecutive_runs src layer color k numSeeds n Ho Hwf Hperm
              ltac:(lia))
    as (cur & prev & n1 & e & cur' & prev' & n2 & e'
        & Hrun & Hrun' & Hg & Hstep & [Hwp Hwp'] & Hlp & Hat & Hat').
  destruct (consecutive_grids src layer Ho Hwf Hperm (k - 1) numSeeds n
              ltac:(lia))
    as (c0 & p0 & n0 & c1 & p1 & n1' & _ & Hg1 & Hstep0 & Hwp0 & Hlp0 & _).
  replace (k - 1 + 1) with k in Hg1 by lia.
  rewrite Hg in Hg1. injection Hg1 as <- <- <-.
  destruct (corrodeStep_keeps src layer Ho Hwf _ _ _ _ _ _ Hwp0 Hlp0 Hstep0)
    as (-> & Hsub & _).
  exists e, n1, e', n2. split; [exact Hrun|]. split; [exact Hrun'|].
  intros x y Ha.
  destruct (painted_pixel layer e' prev' color x y (Hat' x y) Ha)
    as (Hin & Hset & _).
  split; [apply Hwp'; assumption|].
  destruct (corrodeStep_spreads src layer _ _ _ _ _ _ _ Hintn Hstep Hset)
    as [Hold|(x0 & y0 & Heq & Hocc & x' & y' & Hnear & Hp)].
  - exists x, y. split; [apply near_self, Hin|].
    apply (pixel_painted layer e prev color x y (Hat x y) Hin), Hsub, Hold.
  - destruct (cell_index_inj layer x y x0 y0 Hin
                (occupied_inside layer x0 y0 Hocc) Heq) as [<- <-].
    exists x', y'. split; [exact Hnear|].
    apply (pixel_painted layer e prev color x' y' (Hat x' y')); [|exact Hp].
    unfold near in Hnear. apply andb_prop in Hnear as [_ Hin']. exact Hin'.
Qed.

Lemma corrosion_spreads_by_one_witness :
  exists e n1 e' n2,
    ApplyCorrosion (sample.mock 1 0) sample.dot sample.yellow 1 1 0%nat
      = Some (e, n1)
    /\ ApplyCorrosion (sample.mock 1 0) sample.dot sample.yellow 2 1 0%nat
       = Some (e', n2)
    /\ exists x' y',
         near (image.Bounds sample.dot) 1 1 x' y' = true
         /\ image.RGBA_At e x' y' = sample.yellow.
Proof.
  destruct (corrosion_spreads_by_one (sample.mock 1 0) sample.dot
              sample.yellow 1 1 0%nat)
    as (e & n1 & e' & n2 & Hrun & Hrun' & Hat);
    [split; reflexivity | split; vm_compute; discriminate
    | apply mock_permutes | intros n k; vm_compute; discriminate | lia |].
  exists e, n1, e', n2. split; [exact Hrun|]. split; [exact Hrun'|].
  apply (Hat 1 1). change (1 + 1) with 2 in Hrun'.
  vm_compute in Hrun'. injection Hrun' as <- _. vm_compute. discriminate.
Defined.

(** ** The gradient of 8-bit colours *)

Lemma interpolateColor_channels (colorA colorB : color.RGBA) (p : float) :
  let f := fun v => float64_of_int (color.widen v) in
  interpolateColor colorA colorB p
  = color.mkRGBA
      (channelOf (f (color.R colorA)) (f (color.R colorB)) p)
      (channelOf (f (color.G colorA)) (f (color.G colorB)) p)
      (channelOf (f (color.B colorA)) (f (color.B colorB)) p)
      (channelOf (f (color.A colorA)) (f (color.A colorB)) p).
Proof. destruct colorA, colorB. reflexivity. Qed.

Lemma channelFloats_In a :
  0 <= a < 256 -> In (a, float64_of_int (color.widen a)) channelFloats.
Proof.
  intros Ha.
  apply (in_map (fun a => (a, float64_of_int (color.widen a)))),
        list_elem_of_In, elem_of_seqZ. lia.
Qed.

Lemma allPairs_at check a b :
  allPairs check = true -> 0 <= a < 256 -> 0 <= b < 256 ->
  check (a, float64_of_int (color.widen a)) (b, float64_of_int (color.widen b))
  = true.
Proof.
  intros Hall Ha Hb. unfold allPairs in Hall.
  pose proof (proj1 (forallb_forall _ _) Hall _ (channelFloats_In a Ha)) as H.
  exact (proj1 (forallb_forall _ _) H _ (channelFloats_In b Hb)).
Qed.

(** The three tables, by evaluation. *)
Lemma roundTrip_all : forallb roundTrip channelFloats = true.
Proof. vm_cast_no_check (eq_refl true). Qed.

Lemma endsCheck_all : allPairs endsCheck = true.
Proof. vm_cast_no_check (eq_refl true). Qed.

Lemma middleCheck_all : allPairs middleCheck = true.
Proof. vm_cast_no_check (eq_refl true). Qed.

Lemma channel_ends a b :
  0 <= a < 256 -> 0 <= b < 256 ->
  channelOf (float64_of_int (color.widen a)) (float64_of_int (color.widen b)) 0
  = a
  /\ channelOf (float64_of_int (color.widen a))
               (float64_of_int (color.widen b)) 1
     = b.
Proof.
  intros Ha Hb.
  pose proof (allPairs_at endsCheck a b endsCheck_all Ha Hb) as Hends.
  pose proof (proj1 (forallb_forall _ _) roundTrip_all _
                (channelFloats_In a Ha)) as Hca.
  pose proof (proj1 (forallb_forall _ _) roundTrip_all _
                (channelFloats_In b Hb)) as Hcb.
  unfold endsCheck in Hends. unfold roundTrip in Hca, Hcb.
  cbn [fst snd] in Hends, Hca, Hcb.
  apply andb_prop in Hends as [H0%Leibniz.eqb_spec H1%Leibniz.eqb_spec].
  apply Z.eqb_eq in Hca, Hcb.
  unfold channelOf. rewrite H0, H1. auto.
Qed.

Lemma channel_middle a b :
  0 <= a < 256 -> 0 <= b < 256 ->
  channelOf (float64_of_int (color.widen a)) (float64_of_int (color.widen b))
            (percentageOf 1 3)
  = middle8 a b.
Proof.
  intros Ha Hb.
  pose proof (allPairs_at middleCheck a b middleCheck_all Ha Hb) as Hexact.
  unfold middleCheck in Hexact. cbn [fst snd] in Hexact. cbv zeta in Hexact.
  apply andb_prop in Hexact as [Hle%Z.leb_le Hlt%Z.ltb_lt].
  unfold middle8.
  apply Z.div_unique with
    (r := 257 * (a + b)
          - 512 * channelOf (float64_of_int (color.widen a))
                    (float64_of_int (color.widen b)) (percentageOf 1 3));
    lia.
Qed.

Lemma percentage_ends numColors :
  engineColors numColors ->
  percentageOf 0 numColors = 0%float
  /\ percentageOf (numColors - 1) numColors = 1%float.
Proof. intros [->|[->| ->]]; split; reflexivity. Qed.

Lemma middle8_between a b :
  0 <= a < 256 -> 0 <= b < 256 -> between a b (middle8 a b).
Proof.
  intros Ha Hb. unfold between, middle8.
  pose proof (Z.div_mod (257 * (a + b)) 512 ltac:(lia)) as Hdiv.
  pose proof (Z.mod_pos_bound (257 * (a + b)) 512 ltac:(lia)) as Hmod.
  lia.
Qed.

(** The two ends of the gradient of two 8-bit colours. *)
Lemma gradient_ends (colorA colorB : color.RGBA) (numColors : Z) :
  color.uint8s colorA -> color.uint8s colorB -> engineColors numColors ->
  exists gradient,
    buildGradient colorA colorB numColors = Some gradient
    /\ length gradient = Z.to_nat numColors
    /\ gradient !! 0%nat = Some colorA
    /\ gradient !! Z.to_nat (numColors - 1) = Some colorB.
Proof.
  intros (HR & HG & HB & HA) (HR' & HG' & HB' & HA') HN.
  assert (H2 : 2 <= numColors) by (destruct HN as [->|[->| ->]]; lia).
  destruct (percentage_ends numColors HN) as [Hp0 Hp1].
  destruct (buildGradient_is_Some colorA colorB numColors) as [g Hg]; [lia|].
  destruct (buildGradient_Some _ _ _ _ Hg) as (_ & Hlen & Hat).
  exists g. split; [exact Hg|]. split; [exact Hlen|]. split.
  - change 0%nat with (Z.to_nat 0). rewrite (Hat 0) by lia.
    rewrite Hp0, interpolateColor_channels. cbv zeta.
    rewrite (proj1 (channel_ends _ (color.R colorB) HR HR')),
            (proj1 (channel_ends _ (color.G colorB) HG HG')),
            (proj1 (channel_ends _ (color.B colorB) HB HB')),
            (proj1 (channel_ends _ (color.A colorB) HA HA')).
    destruct colorA. reflexivity.
  - rewrite (Hat (numColors - 1)) by lia.
    rewrite Hp1, interpolateColor_channels. cbv zeta.
    rewrite (proj2 (channel_ends (color.R colorA) _ HR HR')),
            (proj2 (channel_ends (color.G colorA) _ HG HG')),
            (proj2 (channel_ends (color.B colorA) _ HB HB')),
            (proj2 (channel_ends (color.A colorA) _ HA HA')).
    destruct colorB. reflexivity.
Qed.

(** X15. The gradients of the engines start at the first colour and end at
    the second: for two colours with 8-bit channels and 3, 10 or 15 colours
    the gradient has that many entries, entry 0 is [colorA] and the last
    entry is [colorB]; the floating-point arithmetic of [interpolateColor]
    and its conversions lose nothing there. *)
Theorem gradient_endpoints (colorA colorB : color.RGBA) (numColors : Z) :
  color.uint8s colorA -> color.uint8s colorB -> engineColors numColors ->
  exists gradient,
    buildGradient colorA colorB numColors = Some gradient
    /\ length gradient = Z.to_nat numColors
    /\ gradient !! 0%nat = Some colorA
    /\ gradient !! Z.to_nat (numColors - 1) = Some colorB.
Proof. apply gradient_ends. Qed.

(** The drip gradient from red to yellow: red first, yellow last. *)
Lemma gradient_endpoints_witness :
  exists gradient,
    buildGradient sample.red sample.yellow 15 = Some gradient
    /\ gradient !! 0%nat = Some sample.red
    /\ gradient !! 14%nat = Some sample.yellow.
Proof.
  destruct (gradient_endpoints sample.red sample.yellow 15)
    as (g & Hg & _ & Hfirst & Hlast);
    [repeat split; vm_compute; discriminate
    | repeat split; vm_compute; discriminate
    | right; right; reflexivity |].
  exists g. split; [exact Hg|]. split; [exact Hfirst|exact Hlast].
Defined.

(** X16. The gradient of the glow is exact: for two colours with 8-bit
    channels it is [colorA], the middle colour, [colorB], where each channel
    of the middle colour is the integer part of 257 (a + b) / 512, a and b
    being the channel of the two colours, and so lies between them. *)
Theorem glow_gradient (colorA colorB : color.RGBA) :
  color.uint8s colorA -> color.uint8s colorB ->
  let middle := middleColor colorA colorB in
  buildGradient colorA colorB 3 = Some [colorA; middle; colorB]
  /\ between (color.R colorA) (color.R colorB) (color.R middle)
  /\ between (color.G colorA) (color.G colorB) (color.G middle)
  /\ between (color.B colorA) (color.B colorB) (color.B middle)
  /\ between (color.A colorA) (color.A colorB) (color.A middle).
Proof.
  intros HA HB middle.
  destruct (gradient_ends colorA colorB 3 HA HB ltac:(left; reflexivity))
    as (g & Hg & Hlen & Hfirst & Hlast).
  destruct (buildGradient_Some _ _ _ _ Hg) as (_ & _ & Hat).
  specialize (Hat 1 ltac:(lia)).
  destruct HA as (HR & HG & HBl & HAl), HB as (HR' & HG' & HBl' & HAl').
  rewrite interpolateColor_channels in Hat. cbv zeta in Hat.
  rewrite !channel_middle in Hat by assumption. fold (middleColor colorA colorB) in Hat.
  split; [|unfold middle, middleColor; simpl;
           split; [|split; [|split]]; apply middle8_between; assumption].
  rewrite Hg. f_equal.
  destruct g as [|c0 [|c1 [|c2 [|]]]]; try discriminate Hlen.
  simpl in Hfirst, Hlast, Hat.
  injection Hfirst as ->. injection Hlast as ->. injection Hat as ->.
  reflexivity.
Qed.

(** The glow gradient from red to yellow. *)
Lemma glow_gradient_witness :
  buildGradient sample.red sample.yellow 3
  = Some [sample.red; color.mkRGBA 255 127 0 255; sample.yellow].
Proof.
  destruct (glow_gradient sample.red sample.yellow) as [Hg _];
    [repeat split; vm_compute; discriminate
    | repeat split; vm_compute; discriminate |].
  exact Hg.
Defined.

(** ** Loops that visit every pixel once *)

(** The run of a loop, cut at one of its elements. *)
Lemma foldM_split {T S} (body : T -> S -> M S) l a s n s' n' :
  foldM body l s n = Some (s', n') -> a ∈ l ->
  exists l1 l2 s1 n1 s2 n2,
    l = l1 ++ a :: l2
    /\ foldM body l1 s n = Some (s1, n1)
    /\ body a s1 n1 = Some (s2, n2)
    /\ foldM body l2 s2 n2 = Some (s', n').
Proof.
  intros Hrun (l1 & l2 & ->)%list_elem_of_split.
  rewrite foldM_app in Hrun. apply bind_Some in Hrun as (s1 & n1 & H1 & Hrun).
  simpl in Hrun. apply bind_Some in Hrun as (s2 & n2 & H2 & H3).
  exists l1, l2, s1, n1, s2, n2. auto.
Qed.

(** A loop over a buffer changes only the pixels that its body touches. *)
Lemma foldM_frame {T} (touch : T -> Z -> Z -> Prop)
  (body : T -> image.RGBA -> M image.RGBA) l :
  (forall a e n e' n', a ∈ l -> image.packed e -> body a e n = Some (e', n') ->
     image.packed e' /\ image.RGBA_Rect e' = image.RGBA_Rect e
     /\ forall x y, ~ touch a x y -> image.RGBA_At e' x y = image.RGBA_At e x y) ->
  forall e n e' n', image.packed e -> foldM body l e n = Some (e', n') ->
    image.packed e' /\ image.RGBA_Rect e' = image.RGBA_Rect e
    /\ forall x y, (forall a, a ∈ l -> ~ touch a x y) ->
         image.RGBA_At e' x y = image.RGBA_At e x y.
Proof.
  intros Hbody e n e' n' Hp Hrun.
  apply (foldM_inv (fun e' =>
           image.packed e' /\ image.RGBA_Rect e' = image.RGBA_Rect e
           /\ forall x y, (forall a, a ∈ l -> ~ touch a x y) ->
                image.RGBA_At e' x y = image.RGBA_At e x y)) in Hrun;
    [exact Hrun| |].
  - intros a e1 n1 e2 n2 Ha (Hp1 & Hr1 & Hat1) Hstep.
    destruct (Hbody a e1 n1 e2 n2 Ha Hp1 Hstep) as (Hp2 & Hr2 & Hat2).
    split; [exact Hp2|]. split; [congruence|]. intros x y Hno.
    rewrite Hat2 by (apply Hno, Ha). apply Hat1, Hno.
  - split; [exact Hp|]. split; reflexivity.
Qed.

(** An ascending range, cut at one of its elements. *)
Lemma seqZ_split m len l1 y l2 :
  seqZ m len = l1 ++ y :: l2 ->
  (forall z, z ∈ l1 -> z < y) /\ (forall z, z ∈ l2 -> y < z).
Proof.
  intros Heq.
  assert (Hy : y = m + Z.of_nat (length l1)).
  { pose proof (list_lookup_middle l1 l2 y (length l1) eq_refl) as H.
    rewrite <- Heq in H. apply lookup_seqZ in H as [-> _]. reflexivity. }
  split; intros z [i Hi]%list_elem_of_lookup.
  - pose proof (lookup_lt_Some _ _ _ Hi) as Hlt.
    assert (H : (l1 ++ y :: l2) !! i = Some z)
      by (apply lookup_app_l_Some, Hi).
    rewrite <- Heq in H. apply lookup_seqZ in H as [-> _]. lia.
  - assert (H : (l1 ++ y :: l2) !! (length l1 + S i)%nat = Some z).
    { rewrite lookup_app_r by lia.
      replace (length l1 + S i - length l1)%nat with (S i) by lia. exact Hi. }
    rewrite <- Heq in H. apply lookup_seqZ in H as [-> _]. lia.
Qed.

(** The rows in the order of the scan, cut at one of them: the row is met
    once, and the row one step along the direction is not met after it. *)
Lemma scanRows_split b dir l1 y l2 :
  scanRows b dir = l1 ++ y :: l2 ->
  (y ∉ l1) /\ (y ∉ l2) /\ (y + Direction_int dir ∉ l2).
Proof.
  destruct dir; simpl; intros Heq.
  - apply (f_equal reverse) in Heq.
    rewrite reverse_involutive, reverse_app, reverse_cons, <- app_assoc in Heq.
    simpl in Heq. apply seqZ_split in Heq as [Hlo Hhi].
    split; [intros H%elem_of_reverse%Hhi; lia|].
    split; intros H%elem_of_reverse%Hlo; lia.
  - apply seqZ_split in Heq as [Hlo Hhi].
    split; [intros H%Hlo; lia|]. split; intros H%Hhi; lia.
Qed.

Lemma columns_split b l1 x l2 :
  columns b = l1 ++ x :: l2 -> (x ∉ l1) /\ (x ∉ l2).
Proof.
  intros [Hlo Hhi]%seqZ_split. split; [intros H%Hlo|intros H%Hhi]; lia.
Qed.

Lemma scanned_row b dir x y :
  image.Point_In x y b = true -> y ∈ scanRows b dir /\ x ∈ columns b.
Proof.
  intros Hin%Point_In_spec.
  assert (y ∈ rowsDown b) by (apply elem_of_seqZ; unfold image.Dy; lia).
  split; [|apply elem_of_seqZ; unfold image.Dx; lia].
  destruct dir; simpl; [apply elem_of_reverse|]; assumption.
Qed.

(** ** The directional engine, pixel by pixel *)

Lemma gradientIndexFrom_lookup gradient c k i :
  NoDup gradient -> gradient !! k = Some c ->
  gradientIndexFrom i gradient c = i + Z.of_nat k.
Proof.
  revert k i. induction gradient as [|c0 rest IH]; intros k i Hnd Hk;
    [discriminate|].
  apply NoDup_cons in Hnd as [Hc0 Hnd]. simpl.
  destruct k as [|k]; simpl in Hk.
  - injection Hk as ->. rewrite decide_True by reflexivity. lia.
  - rewrite decide_False.
    + rewrite (IH k (i + 1) Hnd Hk). lia.
    + intros ->. apply Hc0. eapply list_elem_of_lookup_2, Hk.
Qed.

(** In a gradient without repetition the colour after entry [k] is entry
    [k + 1]. *)
Lemma nextColor_lookup gradient numColors c k :
  NoDup gradient -> length gradient = Z.to_nat numColors ->
  gradient !! k = Some c ->
  nextColor gradient numColors c = gradient !! S k.
Proof.
  intros Hnd Hlen Hk. unfold nextColor, gradientIndex.
  rewrite (gradientIndexFrom_lookup gradient c k 0 Hnd Hk).
  replace (Z.to_nat (0 + Z.of_nat k + 1)) with (S k) by lia.
  destruct (Z.ltb_spec (0 + Z.of_nat k) (numColors - 1)); [reflexivity|].
  symmetry. apply lookup_ge_None. lia.
Qed.

Lemma thinned_never src numNeighbors n skip n' :
  neverThins src ->
  thinned src numNeighbors 0x1.999999999999ap-3%float n = Some (skip, n') ->
  skip = false.
Proof.
  intros Hsrc. unfold thinned, bind, Float64, ret.
  destruct (numNeighbors <? minNeighbors).
  - destruct (Hsrc n) as [-> _]. destruct (Hsrc (S n)) as [_ ->].
    intros [= <- _]. reflexivity.
  - destruct (Hsrc n) as [_ ->]. intros [= <- _]. reflexivity.
Qed.

(** What one run of the loop body does to the overlay. *)
Lemma effectPixel_cases src layer gradient numColors d y x e n e' n' :
  effectPixel src layer gradient numColors d y x e n = Some (e', n') ->
  if occupied layer x y then e' = e
  else if occupied layer x (y + d)
  then exists c, gradient !! 0%nat = Some c /\ e' = image.RGBA_Set e x y c
  else if alphaOf (image.RGBA_At e x (y + d)) =? 0 then e' = e
  else exists skip,
         thinned src (countEitherLayer layer e x y)
                 0x1.999999999999ap-3%float n = Some (skip, n')
         /\ if (skip : bool) then e' = e
            else match nextColor gradient numColors
                         (image.RGBA_At e x (y + d)) with
                 | Some c => e' = image.RGBA_Set e x y c
                 | None => e' = e
                 end.
Proof.
  unfold effectPixel, occupied, nextColor. intros Hrun.
  destruct (alphaOf (image.RGBA_At layer x y) =? 0); simpl in *;
    [|apply ret_Some in Hrun as [-> _]; reflexivity].
  destruct (alphaOf (image.RGBA_At layer x (y + d)) =? 0); simpl in *.
  - destruct (alphaOf (image.RGBA_At e x (y + d)) =? 0); simpl in *;
      [apply ret_Some in Hrun as [-> _]; reflexivity|].
    apply bind_Some in Hrun as (skip & n1 & Hskip & Hrun).
    exists skip.
    destruct skip;
      [apply ret_Some in Hrun as [-> ->]; split; [exact Hskip|reflexivity]|].
    destruct (_ <? numColors - 1);
      [|apply ret_Some in Hrun as [-> ->]; split; [exact Hskip|reflexivity]].
    apply bind_Some in Hrun as (c & n2 & Hc & Hrun).
    apply orPanic_Some in Hc as [-> ->].
    apply ret_Some in Hrun as [-> ->]. split; [exact Hskip|reflexivity].
  - apply bind_Some in Hrun as (c & n2 & Hc & Hrun).
    apply orPanic_Some in Hc as [Hc ->].
    apply ret_Some in Hrun as [-> _]. exists c. auto.
Qed.

(** The number of draws never goes down. *)
Lemma thinned_counter src numNeighbors thinning n skip n' :
  thinned src numNeighbors thinning n = Some (skip, n') -> (n < n')%nat.
Proof.
  unfold thinned, bind, Float64, ret.
  destruct (numNeighbors <? minNeighbors);
    repeat match goal with |- context [if ?b then _ else _] => destruct b end;
    intros [= _ <-]; lia.
Qed.

Lemma effectPixel_counter src layer gradient numColors d y x e n e' n' :
  effectPixel src layer gradient numColors d y x e n = Some (e', n') ->
  (n <= n')%nat.
Proof.
  unfold effectPixel. intros Hrun.
  destruct (negb (alphaOf (image.RGBA_At layer x y) =? 0));
    [apply ret_Some in Hrun as [_ ->]; lia|].
  destruct (negb (alphaOf (image.RGBA_At layer x (y + d)) =? 0)).
  { apply bind_Some in Hrun as (c & n2 & Hc & Hrun).
    apply orPanic_Some in Hc as [_ ->].
    apply ret_Some in Hrun as [_ ->]. lia. }
  destruct (negb (alphaOf (image.RGBA_At e x (y + d)) =? 0));
    [|apply ret_Some in Hrun as [_ ->]; lia].
  apply bind_Some in Hrun as (skip & n1 & Hskip%thinned_counter & Hrun).
  destruct skip; [apply ret_Some in Hrun as [_ ->]; lia|].
  destruct (_ <? numColors - 1); [|apply ret_Some in Hrun as [_ ->]; lia].
  apply bind_Some in Hrun as (c & n2 & Hc & Hrun).
  apply orPanic_Some in Hc as [_ ->].
  apply ret_Some in Hrun as [_ ->]. lia.
Qed.

Lemma foldM_counter {T S} (body : T -> S -> M S) l :
  (forall a s n s' n', body a s n = Some (s', n') -> (n <= n')%nat) ->
  forall s n s' n', foldM body l s n = Some (s', n') -> (n <= n')%nat.
Proof.
  intros Hbody. induction l as [|a l IH]; intros s n s' n' Hrun;
    simpl in Hrun.
  - apply ret_Some in Hrun as [_ ->]. lia.
  - apply bind_Some in Hrun as (s1 & n1 & Ha%Hbody & Hrest%IH). lia.
Qed.

Lemma effectRow_counter src layer gradient numColors d y l e n e' n' :
  foldM (effectPixel src layer gradient numColors d y) l e n = Some (e', n') ->
  (n <= n')%nat.
Proof.
  apply foldM_counter. intros x e1 n1 e2 n2. apply effectPixel_counter.
Qed.

Lemma effectRows_counter src layer gradient numColors d cols rows e n e' n' :
  foldM (fun y => foldM (effectPixel src layer gradient numColors d y) cols)
        rows e n = Some (e', n') ->
  (n <= n')%nat.
Proof.
  apply foldM_counter. intros y e1 n1 e2 n2. apply effectRow_counter.
Qed.

Lemma effectPixel_frame src layer gradient numColors d y x e n e' n' :
  image.packed e ->
  effectPixel src layer gradient numColors d y x e n = Some (e', n') ->
  image.packed e' /\ image.RGBA_Rect e' = image.RGBA_Rect e
  /\ forall x' y', ~ (x' = x /\ y' = y) ->
       image.RGBA_At e' x' y' = image.RGBA_At e x' y'.
Proof.
  intros Hp [->|(_ & c & ->)]%effectPixel_result; [auto|].
  split; [apply RGBA_Set_packed, Hp|]. split; [apply RGBA_Set_Rect|].
  intros x' y' Hne. apply RGBA_At_Set_ne; [apply Hp|].
  intros [= <- <-]. apply Hne. auto.
Qed.

(** One row of the scan changes pixels of that row only. *)
Lemma effectRow_frame src layer gradient numColors d y l e n e' n' :
  image.packed e ->
  foldM (effectPixel src layer gradient numColors d y) l e n = Some (e', n') ->
  image.packed e' /\ image.RGBA_Rect e' = image.RGBA_Rect e
  /\ forall x' y', (y' = y -> x' ∉ l) ->
       image.RGBA_At e' x' y' = image.RGBA_At e x' y'.
Proof.
  intros Hp Hrun.
  destruct (foldM_frame (fun x x' y' => x' = x /\ y' = y)
              (effectPixel src layer gradient numColors d y) l
              (fun x e n e' n' _ => effectPixel_frame _ _ _ _ _ _ _ _ _ _ _)
              e n e' n' Hp Hrun) as (Hp' & Hr' & Hat).
  split; [exact Hp'|]. split; [exact Hr'|]. intros x' y' Hno.
  apply Hat. intros x Hx [-> ->]. exact (Hno eq_refl Hx).
Qed.

Lemma effectRows_frame src layer gradient numColors d cols rows e n e' n' :
  image.packed e ->
  foldM (fun y => foldM (effectPixel src layer gradient numColors d y) cols)
        rows e n = Some (e', n') ->
  image.packed e' /\ image.RGBA_Rect e' = image.RGBA_Rect e
  /\ forall x' y', y' ∉ rows ->
       image.RGBA_At e' x' y' = image.RGBA_At e x' y'.
Proof.
  intros Hp Hrun.
  destruct (foldM_frame (fun y (x' y' : Z) => y' = y)
              (fun y => foldM (effectPixel src layer gradient numColors d y)
                              cols) rows) with (e := e) (n := n) (e' := e')
              (n' := n') as (Hp' & Hr' & Hat); [|exact Hp|exact Hrun|].
  - intros y e1 n1 e2 n2 _ Hp1 Hrow.
    destruct (effectRow_frame _ _ _ _ _ _ _ _ _ _ _ Hp1 Hrow)
      as (Hp2 & Hr2 & Hat2).
    split; [exact Hp2|]. split; [exact Hr2|]. intros x' y' Hne.
    apply Hat2. intros ->. contradiction.
  - split; [exact Hp'|]. split; [exact Hr'|]. intros x' y' Hno.
    apply Hat. intros y Hy ->. contradiction.
Qed.

(** The visit of a pixel: the overlay then is unset there and has its final
    value one step along the direction, and the pixel keeps what the visit
    gives it. *)
Lemma applyEffect_visit src layer colorA colorB numColors dir n e n' x y :
  applyEffect src layer colorA colorB numColors dir n = Some (e, n') ->
  image.Point_In x y (image.Bounds layer) = true ->
  let d := Direction_int dir in
  exists gradient a1 n1 a2 n2,
    buildGradient colorA colorB numColors = Some gradient
    /\ image.packed a1 /\ image.RGBA_Rect a1 = image.Bounds layer
    /\ effectPixel src layer gradient numColors d y x a1 n1 = Some (a2, n2)
    /\ image.RGBA_At a1 x y = color.zero
    /\ image.RGBA_At a1 x (y + d) = image.RGBA_At e x (y + d)
    /\ image.RGBA_At e x y = image.RGBA_At a2 x y
    /\ (n <= n1)%nat /\ (n2 <= n')%nat.
Proof.
  intros Hrun Hin d. unfold applyEffect in Hrun.
  apply bind_Some in Hrun as (e0 & n0 & He0 & Hrun).
  apply orPanic_Some in He0 as [He0 ->].
  apply bind_Some in Hrun as (g & n0 & Hg & Hrun).
  apply orPanic_Some in Hg as [Hg ->]. fold d in Hrun.
  destruct (scanned_row _ dir x y Hin) as [Hy Hx].
  destruct (foldM_split _ _ y _ _ _ _ Hrun Hy)
    as (r1 & r2 & e1 & n1 & e2 & n2 & Hrows & Hr1 & Hrow & Hr2).
  destruct (scanRows_split _ _ _ _ _ Hrows) as (Hy1 & Hy2 & Hyd).
  fold d in Hyd.
  destruct (foldM_split _ _ x _ _ _ _ Hrow Hx)
    as (c1 & c2 & a1 & m1 & a2 & m2 & Hcols & Hc1 & Hpix & Hc2).
  destruct (columns_split _ _ _ _ Hcols) as [Hx1 Hx2].
  assert (Hd : d <> 0) by (unfold d; destruct dir; discriminate).
  destruct (effectRows_frame _ _ _ _ _ _ _ _ _ _ _
              (NewRGBA_packed _ _ He0) Hr1) as (Hp1 & Hrect1 & Hat1).
  destruct (effectRow_frame _ _ _ _ _ _ _ _ _ _ _ Hp1 Hc1)
    as (Hpa1 & Hrecta1 & Hata1).
  destruct (effectPixel_frame _ _ _ _ _ _ _ _ _ _ _ Hpa1 Hpix)
    as (Hpa2 & Hrecta2 & Hata2).
  destruct (effectRow_frame _ _ _ _ _ _ _ _ _ _ _ Hpa2 Hc2)
    as (Hp2 & Hrect2 & Hat2).
  destruct (effectRow_frame _ _ _ _ _ _ _ _ _ _ _ Hp1 Hrow)
    as (_ & _ & Hrow12).
  destruct (effectRows_frame _ _ _ _ _ _ _ _ _ _ _ Hp2 Hr2)
    as (Hpe & Hrecte & Hate).
  exists g, a1, m1, a2, m2. split; [exact Hg|]. split; [exact Hpa1|].
  split; [rewrite Hrecta1, Hrect1; eapply NewRGBA_Rect, He0|].
  split; [exact Hpix|]. split; [|split; [|split; [|split]]].
  - rewrite Hata1 by (intros _; exact Hx1). rewrite Hat1 by exact Hy1.
    eapply NewRGBA_At, He0.
  - rewrite Hata1 by lia. rewrite Hate by exact Hyd.
    rewrite Hrow12 by lia. reflexivity.
  - rewrite Hate by exact Hy2. apply Hat2. intros _. exact Hx2.
  - apply effectRows_counter in Hr1. apply effectRow_counter in Hc1. lia.
  - apply effectRows_counter in Hr2. apply effectRow_counter in Hc2. lia.
Qed.

Lemma applyEffect_shape src layer colorA colorB numColors dir n e n' :
  applyEffect src layer colorA colorB numColors dir n = Some (e, n') ->
  image.packed e /\ image.Bounds e = image.Bounds layer.
Proof.
  intros Hrun. unfold applyEffect in Hrun.
  apply bind_Some in Hrun as (e0 & n0 & He0 & Hrun).
  apply orPanic_Some in He0 as [He0 ->].
  apply bind_Some in Hrun as (g & n0 & Hg & Hrun).
  apply orPanic_Some in Hg as [Hg ->].
  destruct (effectRows_frame _ _ _ _ _ _ _ _ _ _ _
              (NewRGBA_packed _ _ He0) Hrun) as (Hp & Hr & _).
  split; [exact Hp|]. unfold image.Bounds at 1. rewrite Hr.
  eapply NewRGBA_Rect, He0.
Qed.

(** Every pixel of the overlay is what the engine puts there when it does
    not thin, or is unset because the engine thinned. *)
Lemma applyEffect_pixel src layer colorA colorB numColors dir n e n' gradient :
  applyEffect src layer colorA colorB numColors dir n = Some (e, n') ->
  buildGradient colorA colorB numColors = Some gradient ->
  forall x y,
    image.RGBA_At e x y
    = trailColor layer gradient numColors (Direction_int dir) e x y
    \/ (image.RGBA_At e x y = color.zero
        /\ image.Point_In x y (image.Bounds layer) = true
        /\ occupied layer x y = false
        /\ occupied layer x (y + Direction_int dir) = false
        /\ alphaOf (image.RGBA_At e x (y + Direction_int dir)) <> 0
        /\ thinsWithin src n n').
Proof.
  intros Hrun Hg x y. unfold trailColor.
  destruct (applyEffect_shape _ _ _ _ _ _ _ _ _ Hrun) as [_ Hb].
  destruct (image.Point_In x y (image.Bounds layer)) eqn:Hin; simpl;
    [|left; apply RGBA_At_outside; unfold image.Bounds in Hb;
      rewrite Hb; exact Hin].
  destruct (applyEffect_visit _ _ _ _ _ _ _ _ _ x y Hrun Hin)
    as (g & a1 & n1 & a2 & n2 & Hg' & Hp1 & Hr1 & Hpix & Hzero & Hnb & ->
        & Hn1 & Hn2).
  rewrite Hg in Hg'. injection Hg' as <-.
  apply effectPixel_cases in Hpix.
  assert (Hset : forall c,
            image.RGBA_At (image.RGBA_Set a1 x y c) x y = c)
    by (intros c; apply RGBA_At_Set_eq; [exact Hp1|rewrite Hr1; exact Hin]).
  destruct (occupied layer x y); [subst a2; left; exact Hzero|].
  destruct (occupied layer x (y + Direction_int dir)).
  { destruct Hpix as (c & -> & ->). left. apply Hset. }
  rewrite <- Hnb.
  destruct (Z.eqb_spec (alphaOf (image.RGBA_At a1 x (y + Direction_int dir))) 0)
    as [|Ha]; [subst a2; left; exact Hzero|].
  destruct Hpix as (skip & Hskip & Hpix). destruct skip.
  - subst a2. right. repeat (split; [first [exact Hzero|reflexivity|exact Ha]|]).
    exists (countEitherLayer layer a1 x y), n1, n2. auto.
  - left. destruct (nextColor gradient numColors _) as [c|];
      subst a2; [apply Hset|exact Hzero].
Qed.


Lemma mock_neverThins : neverThins (sample.mock 1 0).
Proof. intros n. split; reflexivity. Qed.


Lemma applyEffect_without_thinning src layer colorA colorB numColors dir n
  gradient :
  neverThins src -> wellFormed (image.Bounds layer) -> 1 <= numColors ->
  buildGradient colorA colorB numColors = Some gradient ->
  exists e n',
    applyEffect src layer colorA colorB numColors dir n = Some (e, n')
    /\ forall x y,
         image.RGBA_At e x y
         = trailColor layer gradient numColors (Direction_int dir) e x y.
Proof.
  intros Hsrc [Hx Hy] HN Hg.
  destruct (applyEffect_total src layer colorA colorB numColors dir n Hx Hy HN)
    as (e & n' & Hrun).
  exists e, n'. split; [exact Hrun|]. intros x y.
  destruct (applyEffect_pixel _ _ _ _ _ _ _ _ _ _ Hrun Hg x y)
    as [H|(_ & _ & _ & _ & _ & k & m & m' & _ & _ & Hskip)]; [exact H|].
  apply (thinned_never src k m true m' Hsrc) in Hskip. discriminate.
Qed.

(** X18. Under a source that never thins (no sample below 0.5 or below 0.2)
    the overlay of the directional engine is determined by the layer and
    the two colours: each pixel is what [trailColor] reads off the layer
    and the overlay's pixel one step along the direction. *)
Theorem directional_overlay_without_thinning
  (src : rand.Source) (layer : image.RGBA) (colorA colorB : color.RGBA)
  (numColors : Z) (dir : Direction) (n : nat) :
  neverThins src -> wellFormed (image.Bounds layer) -> 1 <= numColors ->
  exists e n' gradient,
    applyEffect src layer colorA colorB numColors dir n = Some (e, n')
    /\ buildGradient colorA colorB numColors = Some gradient
    /\ forall x y,
         image.RGBA_At e x y
         = trailColor layer gradient numColors (Direction_int dir) e x y.
Proof.
  intros Hsrc Hwf HN.
  destruct (buildGradient_is_Some colorA colorB numColors) as [g Hg]; [lia|].
  destruct (applyEffect_without_thinning src layer colorA colorB numColors dir
              n g Hsrc Hwf HN Hg) as (e & n' & Hrun & Hat).
  exists e, n', g. auto.
Qed.

(** The drip of a 1 x 3 image whose top pixel is occupied: the pixel under
    it is red, and the next one carries the colour after red. *)
Lemma directional_overlay_without_thinning_witness :
  let layer := sample.picture 1 3 [sample.red; sample.none; sample.none] in
  exists e n' gradient,
    ApplyDripEffect (sample.mock 1 0) layer sample.red sample.yellow 0%nat
      = Some (e, n')
    /\ buildGradient sample.red sample.yellow 15 = Some gradient
    /\ image.RGBA_At e 0 1 = sample.red
    /\ Some (image.RGBA_At e 0 2) = gradient !! 1%nat.
Proof.
  intros layer.
  destruct (directional_overlay_without_thinning (sample.mock 1 0) layer
              sample.red sample.yellow 15 DirectionDown 0%nat)
    as (e & n' & g & Hrun & Hg & Hat);
    [apply mock_neverThins | split; vm_compute; discriminate | lia |].
  exists e, n', g. split; [exact Hrun|]. split; [exact Hg|].
  vm_compute in Hg. injection Hg as <-.
  assert (H1 : image.RGBA_At e 0 1 = sample.red) by exact (Hat 0 1).
  split; [exact H1|].
  rewrite (Hat 0 2). unfold trailColor. simpl.
  change (2 + -1) with 1. rewrite H1. reflexivity.
Defined.

(** X19. The trail over an occupied pixel, under a source that never thins
    and with a gradient whose colours are pairwise different and all set:
    if the k pixels that follow the occupied pixel (x, y0) against the
    direction are inside the bounds and unoccupied, the k-th of them carries
    [gradient[k-1]], and is unset when k exceeds the number of colours. *)
Theorem directional_trail
  (src : rand.Source) (layer : image.RGBA) (colorA colorB : color.RGBA)
  (numColors : Z) (dir : Direction) (n : nat) (gradient : list color.RGBA) :
  neverThins src -> wellFormed (image.Bounds layer) -> 1 <= numColors ->
  buildGradient colorA colorB numColors = Some gradient ->
  NoDup gradient -> (forall c, c ∈ gradient -> alphaOf c <> 0) ->
  let d := Direction_int dir in
  exists e n',
    applyEffect src layer colorA colorB numColors dir n = Some (e, n')
    /\ forall x y0 k,
         occupied layer x y0 = true -> 1 <= k ->
         (forall j, 1 <= j <= k ->
            image.Point_In x (y0 - j * d) (image.Bounds layer) = true
            /\ occupied layer x (y0 - j * d) = false) ->
         image.RGBA_At e x (y0 - k * d)
         = default color.zero (gradient !! Z.to_nat (k - 1)).
Proof.
  intros Hsrc Hwf HN Hg Hnd Halpha d.
  destruct (applyEffect_without_thinning src layer colorA colorB
              numColors dir n gradient Hsrc Hwf HN Hg) as (e & n' & Hrun & Hat).
  exists e, n'. split; [exact Hrun|]. intros x y0 k Hocc Hk Hfree.
  destruct (buildGradient_Some _ _ _ _ Hg) as (_ & Hlen & _).
  replace k with (Z.of_nat (Z.to_nat (k - 1)) + 1) in Hfree |- * by lia.
  induction (Z.to_nat (k - 1)) as [|m IH].
  - destruct (Hfree 1 ltac:(lia)) as [Hin Hfree1].
    rewrite Hat. unfold trailColor. fold d. change (Z.of_nat 0 + 1) with 1.
    rewrite Hin, Hfree1. simpl.
    replace (y0 - 1 * d + d) with y0 by lia. rewrite Hocc. reflexivity.
  - destruct (Hfree (Z.of_nat (S m) + 1) ltac:(lia)) as [Hin Hfree1].
    destruct (Hfree (Z.of_nat m + 1) ltac:(lia)) as [_ Hfree0].
    rewrite Hat. unfold trailColor. fold d. rewrite Hin, Hfree1. simpl negb.
    cbn [orb].
    replace (y0 - (Z.of_nat (S m) + 1) * d + d)
      with (y0 - (Z.of_nat m + 1) * d) by lia.
    rewrite Hfree0, IH by (intros j Hj; apply Hfree; lia).
    replace (Z.to_nat (Z.of_nat m + 1 - 1)) with m by lia.
    replace (Z.to_nat (Z.of_nat (S m) + 1 - 1)) with (S m) by lia.
    destruct (gradient !! m) as [c|] eqn:Hc; simpl.
    + destruct (Z.eqb_spec (alphaOf c) 0) as [H0|_].
      * exfalso. eapply Halpha, H0. eapply list_elem_of_lookup_2, Hc.
      * rewrite (nextColor_lookup gradient numColors c m Hnd Hlen Hc).
        reflexivity.
    + apply lookup_ge_None in Hc.
      rewrite (proj2 (lookup_ge_None gradient (S m))) by lia. reflexivity.
Qed.

(** The flame of the sample stub: the two pixels over the occupied one
    carry the first two colours of the gradient. *)
Lemma directional_trail_witness :
  exists e n' gradient,
    ApplyFlameEffect (sample.mock 1 0) sample.stub sample.red sample.yellow
      0%nat = Some (e, n')
    /\ buildGradient sample.red sample.yellow 10 = Some gradient
    /\ Some (image.RGBA_At e 0 1) = gradient !! 0%nat
    /\ Some (image.RGBA_At e 0 0) = gradient !! 1%nat.
Proof.
  destruct (buildGradient sample.red sample.yellow 10) as [g|] eqn:Hg;
    [|discriminate Hg].
  assert (Hg' := Hg). vm_compute in Hg'. injection Hg' as Hg'.
  destruct (directional_trail (sample.mock 1 0) sample.stub sample.red
              sample.yellow 10 DirectionUp 0%nat g)
    as (e & n' & Hrun & Hat);
    [ apply mock_neverThins | split; vm_compute; discriminate | lia | exact Hg
    | subst g; apply (bool_decide_unpack _); vm_compute; exact I
    | subst g; intros c Hc; apply (bool_decide_unpack _);
      revert c Hc; apply Forall_forall, (bool_decide_unpack _);
      vm_compute; exact I
    |].
  exists e, n', g. split; [exact Hrun|]. split; [reflexivity|].
  assert (Hocc : occupied sample.stub 0 2 = true) by reflexivity.
  assert (Hfree : forall j, 1 <= j <= 2 ->
            image.Point_In 0 (2 - j * 1) (image.Bounds sample.stub) = true
            /\ occupied sample.stub 0 (2 - j * 1) = false).
  { intros j Hj. assert (j = 1 \/ j = 2) as [->| ->] by lia;
      split; reflexivity. }
  assert (H1 : image.RGBA_At e 0 1 = default color.zero (g !! 0%nat))
    by exact (Hat 0 2 1 Hocc ltac:(lia) (fun j Hj => Hfree j ltac:(lia))).
  assert (H2 : image.RGBA_At e 0 0 = default color.zero (g !! 1%nat))
    by exact (Hat 0 2 2 Hocc ltac:(lia) Hfree).
  rewrite H1, H2. subst g. split; reflexivity.
Defined.

(** ** The glow engine, pass by pass *)

Lemma foldM_map {T U S} (h : T -> U) (body : U -> S -> M S) l s n :
  foldM body (map h l) s n = foldM (fun a => body (h a)) l s n.
Proof.
  revert s n. induction l as [|a l IH]; intros s n; simpl; [reflexivity|].
  unfold bind. destruct (body (h a) s n) as [[s1 n1]|]; [apply IH|reflexivity].
Qed.

(** Two nested loops are one loop over the pairs, outer index first. *)
Lemma foldM_prod {T U S} (body : T -> U -> S -> M S) la lb s n :
  foldM (fun a => foldM (body a) lb) la s n
  = foldM (fun p => body p.1 p.2) (list_prod la lb) s n.
Proof.
  revert s n. induction la as [|a la IH]; intros s n; simpl; [reflexivity|].
  rewrite foldM_app. unfold bind. rewrite foldM_map. simpl.
  destruct (foldM (body a) lb s n) as [[s1 n1]|]; [apply IH|reflexivity].
Qed.

(** What the body establishes at the element it visits and every later run
    keeps, under an invariant of the loop, holds at the end for every
    element. *)
Lemma foldM_visit_inv {T S} (I : S -> Prop) (Q : T -> S -> Prop)
  (body : T -> S -> M S) l :
  (forall a s n s' n', a ∈ l -> I s -> body a s n = Some (s', n') ->
     I s' /\ Q a s' /\ forall b, Q b s -> Q b s') ->
  forall s n s' n', I s -> foldM body l s n = Some (s', n') ->
    I s' /\ forall a, a ∈ l -> Q a s'.
Proof.
  induction l as [|b l IH]; intros Hbody s n s' n' Hs Hrun; simpl in Hrun.
  - apply ret_Some in Hrun as [-> _]. split; [exact Hs|].
    intros a Ha. apply elem_of_nil in Ha. contradiction.
  - apply bind_Some in Hrun as (s1 & n1 & Hb & Hrest).
    destruct (Hbody b s n s1 n1 ltac:(left) Hs Hb) as (Hs1 & Hq & _).
    assert (Hbody' : forall a s n s' n', a ∈ l -> I s ->
              body a s n = Some (s', n') ->
              I s' /\ Q a s' /\ forall b, Q b s -> Q b s')
      by (intros a s2 n2 s3 n3 Ha; apply Hbody; right; exact Ha).
    destruct (IH Hbody' s1 n1 s' n' Hs1 Hrest) as [Hs' Hall].
    split; [exact Hs'|]. intros a [->|Ha]%elem_of_cons; [|apply Hall, Ha].
    apply (foldM_inv (fun s => I s /\ Q b s)) in Hrest; [apply Hrest| |auto].
    intros a s2 n2 s3 n3 Ha [Hs2 Hq2] Hstep.
    destruct (Hbody' a s2 n2 s3 n3 Ha Hs2 Hstep) as (Hs3 & _ & Hkeep).
    auto.
Qed.

Lemma foldl_filter {S T} (P : T -> bool) (f : S -> T -> S) (l : list T) (s : S) :
  foldl (fun s a => if P a then s else f s a) s l
  = foldl f s (filter (fun a => P a = false) l).
Proof.
  revert s. induction l as [|a l IH]; intros s; simpl; [reflexivity|].
  rewrite filter_cons. destruct (P a) eqn:E.
  - rewrite decide_False by discriminate. apply IH.
  - rewrite decide_True by reflexivity. simpl. apply IH.
Qed.

Lemma near_close b x y x' y' :
  near b x y x' y' = true ->
  Z.abs (x' - x) <= 1 /\ Z.abs (y' - y) <= 1 /\ image.Point_In x' y' b = true.
Proof.
  unfold near. rewrite !andb_true_iff, !Z.leb_le. tauto.
Qed.

Lemma reach_near layer k x y x' y' :
  reach layer k x y -> near (image.Bounds layer) x y x' y' = true ->
  reach layer (k + 1) x' y'.
Proof.
  intros (x0 & y0 & Hocc & Hx & Hy) (Hx' & Hy' & _)%near_close.
  exists x0, y0. split; [exact Hocc|]. lia.
Qed.

Lemma reach_more layer k x y : reach layer k x y -> reach layer (k + 1) x y.
Proof.
  intros (x0 & y0 & Hocc & Hx & Hy). exists x0, y0. split; [exact Hocc|]. lia.
Qed.

Section GlowPasses.

Variable src : rand.Source.
Variable layer : image.RGBA.
Variable gradient : list color.RGBA.
Variable c0 : color.RGBA.
Hypothesis first_colour : gradient !! 0%nat = Some c0.

(** The seed step neither panics nor draws: it is a fill of the unoccupied
    cells of the neighbourhood. *)
Lemma glowSeed_fill x y e n :
  glowSeed layer gradient x y e n
  = Some (foldl (fun e p =>
                   if alphaOf (image.RGBA_At e p.1 p.2) =? 0
                   then image.RGBA_Set e p.1 p.2 c0 else e) e
                (filter (fun p => occupied layer p.1 p.2 = false)
                        (neighborhood (image.Bounds layer) x y)), n).
Proof.
  unfold glowSeed. rewrite forNeighbors_neighborhood.
  rewrite <- (foldl_filter (fun p => occupied layer p.1 p.2)).
  generalize (neighborhood (image.Bounds layer) x y). intros l.
  assert (Hgen : forall (acc : M image.RGBA) e,
            (forall n, acc n = Some (e, n)) ->
            forall n,
              foldl (fun (acc : M image.RGBA) (p : Z * Z) =>
                       effectLayer <- acc ;;
                       if negb (alphaOf (image.RGBA_At layer p.1 p.2) =? 0)
                       then ret effectLayer
                       else if alphaOf (image.RGBA_At effectLayer p.1 p.2) =? 0
                            then c <- orPanic (gradient !! 0%nat) ;;
                                 ret (image.RGBA_Set effectLayer p.1 p.2 c)
                            else ret effectLayer) acc l n
              = Some (foldl (fun e p =>
                               if occupied layer p.1 p.2 then e
                               else if alphaOf (image.RGBA_At e p.1 p.2) =? 0
                                    then image.RGBA_Set e p.1 p.2 c0 else e)
                            e l, n)).
  { induction l as [|p l IH]; intros acc e0 Hacc n0; simpl; [apply Hacc|].
    apply IH. intros n1. unfold bind at 1. rewrite Hacc. unfold occupied.
    destruct (negb (alphaOf (image.RGBA_At layer p.1 p.2) =? 0));
      [reflexivity|].
    destruct (alphaOf (image.RGBA_At e0 p.1 p.2) =? 0); [|reflexivity].
    rewrite first_colour. reflexivity. }
  apply Hgen. reflexivity.
Qed.

(** One step of the seed pass. *)
Lemma glowPixel_seed c y x e n :
  image.packed e -> image.RGBA_Rect e = image.Bounds layer ->
  exists e',
    glowPixel src layer gradient 0 c y x e n = Some (e', n)
    /\ image.packed e' /\ image.RGBA_Rect e' = image.Bounds layer
    /\ forall x' y',
         image.RGBA_At e' x' y'
         = if occupied layer x y && near (image.Bounds layer) x y x' y'
              && negb (occupied layer x' y')
              && (alphaOf (image.RGBA_At e x' y') =? 0)
           then c0 else image.RGBA_At e x' y'.
Proof.
  intros Hp Hr. unfold glowPixel. simpl (0 =? 0). cbv iota.
  unfold occupied at 1.
  destruct (alphaOf (image.RGBA_At layer x y) =? 0); simpl.
  { exists e. split; [reflexivity|]. auto. }
  rewrite glowSeed_fill. eexists. split; [reflexivity|].
  destruct (fill_cells c0
              (filter (fun p => occupied layer p.1 p.2 = false)
                      (neighborhood (image.Bounds layer) x y)) e Hp)
    as (Hp' & Hr' & Hat).
  { intros p [_ Hin]%list_elem_of_filter. rewrite Hr. destruct p.
    eapply neighborhood_inside, Hin. }
  split; [exact Hp'|]. split; [congruence|]. intros x' y'. rewrite Hat.
  assert (bool_decide ((x', y') ∈ filter
                         (fun p => occupied layer p.1 p.2 = false)
                         (neighborhood (image.Bounds layer) x y))
          = near (image.Bounds layer) x y x' y' && negb (occupied layer x' y'))
    as ->; [|reflexivity].
  destruct (near (image.Bounds layer) x y x' y') eqn:Hnear;
    destruct (occupied layer x' y') eqn:Hocc; simpl.
  - apply bool_decide_eq_false_2. intros [H _]%list_elem_of_filter.
    simpl in H. congruence.
  - apply bool_decide_eq_true_2, list_elem_of_filter.
    split; [exact Hocc|]. apply elem_of_neighborhood, Hnear.
  - apply bool_decide_eq_false_2. intros [H _]%list_elem_of_filter.
    simpl in H. congruence.
  - apply bool_decide_eq_false_2.
    intros [_ H%elem_of_neighborhood]%list_elem_of_filter. congruence.
Qed.

(** One step of a propagation pass. *)
Lemma glowPixel_fill colorIndex c y x e n :
  colorIndex <> 0 ->
  image.packed e -> image.RGBA_Rect e = image.Bounds layer ->
  exists e' n' (triggers : bool),
    glowPixel src layer gradient colorIndex c y x e n = Some (e', n')
    /\ image.packed e' /\ image.RGBA_Rect e' = image.Bounds layer
    /\ (triggers = true ->
        alphaOf (image.RGBA_At e x y) <> 0 /\ image.RGBA_At e x y <> c)
    /\ forall x' y',
         image.RGBA_At e' x' y'
         = if triggers && near (image.Bounds layer) x y x' y'
              && (alphaOf (image.RGBA_At e x' y') =? 0)
           then c else image.RGBA_At e x' y'.
Proof.
  intros Hk Hp Hr. unfold glowPixel.
  destruct (Z.eqb_spec colorIndex 0) as [|_]; [contradiction|].
  assert (Hsame : forall n', exists e' n'' (triggers : bool),
            ret e n' = Some (e', n'')
            /\ image.packed e' /\ image.RGBA_Rect e' = image.Bounds layer
            /\ (triggers = true ->
                alphaOf (image.RGBA_At e x y) <> 0 /\ image.RGBA_At e x y <> c)
            /\ forall x' y',
                 image.RGBA_At e' x' y'
                 = if triggers && near (image.Bounds layer) x y x' y'
                      && (alphaOf (image.RGBA_At e x' y') =? 0)
                   then c else image.RGBA_At e x' y').
  { intros n'. exists e, n', false. split; [reflexivity|].
    split; [exact Hp|]. split; [exact Hr|]. split; [discriminate|].
    reflexivity. }
  destruct (alphaOf (image.RGBA_At layer x y) =? 0); [|apply Hsame].
  destruct (Z.eqb_spec (alphaOf (image.RGBA_At e x y)) 0) as [|Ha]; simpl;
    [apply Hsame|].
  destruct (bool_decide (image.RGBA_At e x y = c)) eqn:Ec; [apply Hsame|].
  apply bool_decide_eq_false in Ec.
  assert (Hfill : forall n', exists e' n'' (triggers : bool),
            ret (glowFill (image.Bounds layer) c x y e) n' = Some (e', n'')
            /\ image.packed e' /\ image.RGBA_Rect e' = image.Bounds layer
            /\ (triggers = true ->
                alphaOf (image.RGBA_At e x y) <> 0 /\ image.RGBA_At e x y <> c)
            /\ forall x' y',
                 image.RGBA_At e' x' y'
                 = if triggers && near (image.Bounds layer) x y x' y'
                      && (alphaOf (image.RGBA_At e x' y') =? 0)
                   then c else image.RGBA_At e x' y').
  { intros n'. exists (glowFill (image.Bounds layer) c x y e), n', true.
    destruct (glowFill_spec (image.Bounds layer) c x y e Hp Hr)
      as (Hp' & Hr' & Hat).
    split; [reflexivity|]. split; [exact Hp'|]. split; [exact Hr'|].
    split; [auto|]. exact Hat. }
  unfold bind at 1.
  destruct (countOtherColor _ c e x y <? minNeighbors); [apply Hsame|].
  unfold bind, Float64, ret at 1.
  destruct (PrimFloat.ltb _ _); [apply Hsame|apply Hfill].
Qed.

Let pass (colorIndex : Z) (c : color.RGBA) : image.RGBA -> M image.RGBA :=
  foldM (fun y =>
           foldM (glowPixel src layer gradient colorIndex c y)
                 (columns (image.Bounds layer)))
        (rowsDown (image.Bounds layer)).

(** The seed pass on a fresh buffer: what it sets is the first colour, on
    unoccupied pixels beside an occupied one, and it sets all of them. *)
Lemma seed_pass c e n :
  image.packed e -> image.RGBA_Rect e = image.Bounds layer -> transparent e ->
  exists e' n',
    pass 0 c e n = Some (e', n')
    /\ image.packed e' /\ image.RGBA_Rect e' = image.Bounds layer
    /\ (forall x y,
          image.RGBA_At e' x y = color.zero
          \/ (image.RGBA_At e' x y = c0 /\ reach layer 1 x y))
    /\ forall x0 y0 x y,
         occupied layer x0 y0 = true ->
         near (image.Bounds layer) x0 y0 x y = true ->
         occupied layer x y = false ->
         image.RGBA_At e' x y = c0.
Proof.
  intros Hp Hr He. unfold pass.
  set (I := fun e' : image.RGBA =>
         image.packed e' /\ image.RGBA_Rect e' = image.Bounds layer
         /\ forall x y,
              image.RGBA_At e' x y = color.zero
              \/ (image.RGBA_At e' x y = c0 /\ reach layer 1 x y)).
  set (Q := fun (p : Z * Z) (e' : image.RGBA) =>
         occupied layer p.2 p.1 = true ->
         forall x y,
           near (image.Bounds layer) p.2 p.1 x y = true ->
           occupied layer x y = false ->
           image.RGBA_At e' x y = c0).
  set (body := fun p : Z * Z => glowPixel src layer gradient 0 c p.1 p.2).
  assert (Hstep : forall p e1 n1 e2 n2, I e1 -> body p e1 n1 = Some (e2, n2) ->
            I e2 /\ Q p e2 /\ forall q, Q q e1 -> Q q e2).
  { intros [y x] e1 n1 e2 n2 (Hp1 & Hr1 & Hc1) Hrun. unfold body in Hrun.
    simpl in Hrun.
    destruct (glowPixel_seed c y x e1 n1 Hp1 Hr1) as (e2' & Hrun' & Hp2 & Hr2 & Hat).
    rewrite Hrun in Hrun'. injection Hrun' as <-.
    assert (Hcases : forall x' y',
              image.RGBA_At e2 x' y' = image.RGBA_At e1 x' y'
              \/ (image.RGBA_At e2 x' y' = c0
                  /\ occupied layer x y = true
                  /\ near (image.Bounds layer) x y x' y' = true)).
    { intros x' y'. rewrite Hat.
      destruct (occupied layer x y); [|left; reflexivity].
      destruct (near (image.Bounds layer) x y x' y'); [|left; reflexivity].
      destruct (_ && _); [right; auto|left; reflexivity]. }
    split; [|split].
    - split; [exact Hp2|]. split; [exact Hr2|]. intros x' y'.
      destruct (Hcases x' y') as [->|(-> & Hocc & Hnear)]; [apply Hc1|].
      right. split; [reflexivity|].
      apply (reach_near layer 0 x y); [|exact Hnear].
      exists x, y. split; [exact Hocc|]. lia.
    - intros Hocc x' y' Hnear Hfree. simpl in *. rewrite Hat, Hocc, Hnear, Hfree.
      simpl. destruct (Z.eqb_spec (alphaOf (image.RGBA_At e1 x' y')) 0) as [|Ha];
        [reflexivity|].
      destruct (Hc1 x' y') as [H0|[H0 _]]; [|exact H0].
      rewrite H0, alphaOf_zero in Ha. contradiction.
    - intros q Hq Hocc x' y' Hnear Hfree.
      destruct (Hcases x' y') as [->|(-> & _)]; [|reflexivity].
      apply Hq; assumption. }
  destruct (foldM_total I body
              (list_prod (rowsDown (image.Bounds layer))
                         (columns (image.Bounds layer)))) with (s := e) (n := n)
    as (e' & n' & Hrun & _).
  { intros [y x] e1 n1 _ HI. pose proof HI as (Hp1 & Hr1 & _).
    destruct (glowPixel_seed c y x e1 n1 Hp1 Hr1) as (e2 & Hrun & _).
    exists e2, n1. split; [exact Hrun|].
    exact (proj1 (Hstep (y, x) e1 n1 e2 n1 HI Hrun)). }
  { split; [exact Hp|]. split; [exact Hr|]. intros x y. left. apply He. }
  exists e', n'.
  rewrite (foldM_prod (fun y x => glowPixel src layer gradient 0 c y x)).
  split; [exact Hrun|].
  destruct (foldM_visit_inv I Q body
              (list_prod (rowsDown (image.Bounds layer))
                         (columns (image.Bounds layer)))
              (fun p e1 n1 e2 n2 _ => Hstep p e1 n1 e2 n2) e n e' n')
    as ((Hp' & Hr' & Hc') & Hq); [|exact Hrun|].
  { split; [exact Hp|]. split; [exact Hr|]. intros x y. left. apply He. }
  split; [exact Hp'|]. split; [exact Hr'|]. split; [exact Hc'|].
  intros x0 y0 x y Hocc Hnear Hfree.
  apply (Hq (y0, x0)); [|exact Hocc|exact Hnear|exact Hfree].
  apply elem_of_list_prod.
  apply (scanned_row _ DirectionDown), occupied_inside, Hocc.
Qed.

(** A propagation pass keeps every pixel that is set, sets pixels to the
    colour of the pass only, and reaches one pixel further. *)
Lemma fill_pass colorIndex c k e n :
  colorIndex <> 0 ->
  image.packed e -> image.RGBA_Rect e = image.Bounds layer ->
  (forall x y, alphaOf (image.RGBA_At e x y) <> 0 -> reach layer k x y) ->
  exists e' n',
    pass colorIndex c e n = Some (e', n')
    /\ image.packed e' /\ image.RGBA_Rect e' = image.Bounds layer
    /\ (forall x y, alphaOf (image.RGBA_At e x y) <> 0 ->
          image.RGBA_At e' x y = image.RGBA_At e x y)
    /\ (forall x y, image.RGBA_At e' x y = image.RGBA_At e x y
                    \/ image.RGBA_At e' x y = c)
    /\ forall x y, alphaOf (image.RGBA_At e' x y) <> 0 ->
         reach layer (k + 1) x y.
Proof.
  intros Hk Hp Hr Hreach. unfold pass.
  set (I := fun e' : image.RGBA =>
         image.packed e' /\ image.RGBA_Rect e' = image.Bounds layer
         /\ (forall x y, alphaOf (image.RGBA_At e x y) <> 0 ->
               image.RGBA_At e' x y = image.RGBA_At e x y)
         /\ forall x y, image.RGBA_At e' x y = image.RGBA_At e x y
                        \/ (image.RGBA_At e' x y = c
                            /\ reach layer (k + 1) x y)).
  set (body := fun p : Z * Z => glowPixel src layer gradient colorIndex c p.1 p.2).
  destruct (foldM_total I body
              (list_prod (rowsDown (image.Bounds layer))
                         (columns (image.Bounds layer)))) with (s := e) (n := n)
    as (e' & n' & Hrun & (Hp' & Hr' & Hkeep & Hc)).
  { intros [y x] e1 n1 _ (Hp1 & Hr1 & Hkeep1 & Hc1).
    destruct (glowPixel_fill colorIndex c y x e1 n1 Hk Hp1 Hr1)
      as (e2 & n2 & triggers & Hrun & Hp2 & Hr2 & Htrig & Hat).
    exists e2, n2. split; [exact Hrun|]. split; [exact Hp2|].
    split; [exact Hr2|]. split.
    - intros x' y' Ha. rewrite Hat, (Hkeep1 x' y' Ha).
      destruct (Z.eqb_spec (alphaOf (image.RGBA_At e x' y')) 0) as [H0|_];
        [contradiction|].
      rewrite andb_false_r. reflexivity.
    - intros x' y'. rewrite Hat. destruct triggers; [|apply Hc1]. simpl.
      destruct (near (image.Bounds layer) x y x' y') eqn:Hnear; [|apply Hc1].
      simpl. destruct (_ =? 0); [|apply Hc1].
      right. split; [reflexivity|]. destruct (Htrig eq_refl) as [Ha Hne].
      apply (reach_near layer k x y); [|exact Hnear].
      destruct (Hc1 x y) as [H|[H _]]; [|contradiction].
      apply Hreach. rewrite <- H. exact Ha. }
  { split; [exact Hp|]. split; [exact Hr|]. split; [reflexivity|].
    intros x y. left. reflexivity. }
  exists e', n'.
  rewrite (foldM_prod (fun y x => glowPixel src layer gradient colorIndex c y x)).
  split; [exact Hrun|]. split; [exact Hp'|]. split; [exact Hr'|].
  split; [exact Hkeep|]. split.
  - intros x y. destruct (Hc x y) as [H|[H _]]; auto.
  - intros x y Ha. destruct (Hc x y) as [H|[_ H]]; [|exact H].
    apply reach_more, Hreach. rewrite <- H. exact Ha.
Qed.

End GlowPasses.

(** The three passes of [ApplyGlowEffect], put together. *)
Lemma ApplyGlowEffect_passes src layer colorA colorB n :
  wellFormed (image.Bounds layer) ->
  exists e n' c0 c1 c2,
    ApplyGlowEffect src layer colorA colorB n = Some (e, n')
    /\ buildGradient colorA colorB 3 = Some [c0; c1; c2]
    /\ image.Bounds e = image.Bounds layer
    /\ (alphaOf c0 <> 0 ->
        forall x0 y0 x y,
          occupied layer x0 y0 = true ->
          near (image.Bounds layer) x0 y0 x y = true ->
          occupied layer x y = false ->
          image.RGBA_At e x y = c0)
    /\ forall x y,
         alphaOf (image.RGBA_At e x y) <> 0 ->
         image.RGBA_At e x y ∈ [c0; c1; c2] /\ reach layer 3 x y.
Proof.
  intros [Hx Hy].
  destruct (NewRGBA_is_Some _ Hx Hy) as [e0 He0].
  destruct (buildGradient_is_Some colorA colorB 3) as [g Hg]; [lia|].
  destruct (buildGradient_Some _ _ _ _ Hg) as (_ & Hlen & _).
  destruct g as [|c0 [|c1 [|c2 [|]]]]; try discriminate Hlen.
  destruct (seed_pass src layer [c0; c1; c2] c0 eq_refl c0 e0 n
              (NewRGBA_packed _ _ He0) (NewRGBA_Rect _ _ He0)
              (fun x y => NewRGBA_At _ _ x y He0))
    as (e1 & n1 & Hrun1 & Hp1 & Hr1 & Hc1 & Hhalo).
  destruct (fill_pass src layer [c0; c1; c2] 1 c1 1 e1 n1 ltac:(lia) Hp1 Hr1)
    as (e2 & n2 & Hrun2 & Hp2 & Hr2 & Hkeep2 & Hc2 & Hreach2).
  { intros x y Ha. destruct (Hc1 x y) as [H|[_ H]]; [|exact H].
    rewrite H, alphaOf_zero in Ha. contradiction. }
  destruct (fill_pass src layer [c0; c1; c2] 2 c2 (1 + 1) e2 n2 ltac:(lia)
              Hp2 Hr2 Hreach2)
    as (e3 & n3 & Hrun3 & Hp3 & Hr3 & Hkeep3 & Hc3 & Hreach3).
  exists e3, n3, c0, c1, c2. cbv zeta in Hrun1, Hrun2, Hrun3.
  split; [|split; [exact Hg|split; [exact Hr3|split]]].
  - unfold ApplyGlowEffect. rewrite He0, Hg. unfold orPanic, bind at 1 2, ret.
    unfold glowPasses.
    change (indexed [c0; c1; c2]) with [(0, c0); (1, c1); (2, c2)].
    cbn [foldM]. unfold bind at 1. rewrite Hrun1.
    unfold bind at 1. rewrite Hrun2. unfold bind at 1. rewrite Hrun3.
    reflexivity.
  - intros Ha x0 y0 x y Hocc Hnear Hfree.
    pose proof (Hhalo x0 y0 x y Hocc Hnear Hfree) as H1.
    assert (H2 : image.RGBA_At e2 x y = c0)
      by (rewrite Hkeep2; [exact H1|rewrite H1; exact Ha]).
    rewrite Hkeep3; [exact H2|rewrite H2; exact Ha].
  - intros x y Ha. split; [|apply Hreach3, Ha].
    destruct (Hc3 x y) as [H3| ->]; [|set_solver].
    rewrite H3 in Ha |- *.
    destruct (Hc2 x y) as [H2| ->]; [|set_solver].
    rewrite H2 in Ha |- *.
    destruct (Hc1 x y) as [H1|[-> _]]; [|set_solver].
    rewrite H1, alphaOf_zero in Ha. contradiction.
Qed.

(** X20. The halo of the glow: on a layer with well-formed bounds, for two
    colours with 8-bit channels of which the first is not transparent,
    [ApplyGlowEffect] returns an overlay in which every unoccupied pixel of
    the layer that has an occupied pixel in its 3x3 neighbourhood carries
    [colorA], whatever the source draws. *)
Theorem glow_halo (src : rand.Source) (layer : image.RGBA)
  (colorA colorB : color.RGBA) (n : nat) :
  wellFormed (image.Bounds layer) ->
  color.uint8s colorA -> color.uint8s colorB -> color.A colorA <> 0 ->
  exists e n',
    ApplyGlowEffect src layer colorA colorB n = Some (e, n')
    /\ forall x0 y0 x y,
         occupied layer x0 y0 = true ->
         near (image.Bounds layer) x0 y0 x y = true ->
         occupied layer x y = false ->
         image.RGBA_At e x y = colorA.
Proof.
  intros Hwf HA HB Halpha.
  destruct (ApplyGlowEffect_passes src layer colorA colorB n Hwf)
    as (e & n' & c0 & c1 & c2 & Hrun & Hg & _ & Hhalo & _).
  destruct (gradient_ends colorA colorB 3 HA HB ltac:(left; reflexivity))
    as (g & Hg' & _ & Hfirst & _).
  rewrite Hg in Hg'. injection Hg' as <-.
  simpl in Hfirst. injection Hfirst as ->.
  exists e, n'. split; [exact Hrun|].
  apply Hhalo. rewrite alphaOf_eq_0. exact Halpha.
Qed.

(** The glow of the sample dot: the corner beside the centre is red. *)
Lemma glow_halo_witness :
  exists e n',
    ApplyGlowEffect (sample.mock 0 0) sample.dot sample.red sample.yellow 0%nat
      = Some (e, n')
    /\ image.RGBA_At e 0 0 = sample.red.
Proof.
  destruct (glow_halo (sample.mock 0 0) sample.dot sample.red sample.yellow
              0%nat) as (e & n' & Hrun & Hhalo);
    [ split; vm_compute; discriminate
    | repeat split; vm_compute; discriminate
    | repeat split; vm_compute; discriminate
    | discriminate |].
  exists e, n'. split; [exact Hrun|].
  apply (Hhalo 1 1 0 0); reflexivity.
Defined.

(** X21. The reach of the glow: on a layer with well-formed bounds
    [ApplyGlowEffect] returns an overlay with the layer's bounds in which
    every pixel that is set carries one of the three colours of the
    gradient and lies at most 3 columns and 3 rows from an occupied pixel of
    the layer, whatever the source draws. *)
Theorem glow_reach (src : rand.Source) (layer : image.RGBA)
  (colorA colorB : color.RGBA) (n : nat) :
  wellFormed (image.Bounds layer) ->
  exists e n' gradient,
    ApplyGlowEffect src layer colorA colorB n = Some (e, n')
    /\ buildGradient colorA colorB 3 = Some gradient
    /\ image.Bounds e = image.Bounds layer
    /\ forall x y,
         alphaOf (image.RGBA_At e x y) <> 0 ->
         image.RGBA_At e x y ∈ gradient /\ reach layer 3 x y.
Proof.
  intros Hwf.
  destruct (ApplyGlowEffect_passes src layer colorA colorB n Hwf)
    as (e & n' & c0 & c1 & c2 & Hrun & Hg & Hb & _ & Hset).
  exists e, n', [c0; c1; c2]. auto.
Qed.

(** The glow of the sample dot sets the corner, one pixel from the
    centre. *)
Lemma glow_reach_witness :
  exists e n',
    ApplyGlowEffect (sample.mock 0 0) sample.dot sample.red sample.yellow 0%nat
      = Some (e, n')
    /\ reach sample.dot 3 0 0.
Proof.
  destruct (glow_reach (sample.mock 0 0) sample.dot sample.red sample.yellow
              0%nat) as (e & n' & g & Hrun & _ & _ & Hset);
    [split; vm_compute; discriminate|].
  exists e, n'. split; [exact Hrun|]. apply (Hset 0 0).
  vm_compute in Hrun. injection Hrun as <- _. vm_compute. discriminate.
Defined.
